(** * dsharp_opac: dielectric models, effective-medium mixing, size
      distributions, the Mie sweep and the Mueller matrix

    A shallow embedding of [dsharp_opac/dsharp_opac.py] and the properties
    its specification states about it.

    Numeric model.  A finite Python float is a real number ([R]) and a
    numpy array a [list]; rounding, overflow and underflow are not
    represented, so an equation proved here is the equation of exact
    arithmetic.  numpy does not raise on a division by zero or on the
    logarithm of a non-positive number, it yields [inf] or [nan].  The
    logarithm columns of [diel_const] and the answers of its [nk] are
    therefore values of [float64], the reals extended by [inf], [-inf] and
    [nan], with the arithmetic that IEEE 754 gives these.  Elsewhere a
    division whose divisor the source does not control is checked and the
    model stops with [NonFinite], as it does where a [nan] would enter
    complex arithmetic.  In the extrapolation methods and the size
    distributions [np.log10] and [**] are the real functions of the
    standard library, which carry no meaning at a non-positive argument or
    base; the statements about these that depend on a value assume the
    argument positive.  Python exceptions are the constructors of [exn]. *)

From Stdlib Require Import Reals Lra Lia ZArith Ascii String.
From stdpp Require Import base list strings.

Open Scope R_scope.

(** ** Exceptions and the error monad *)

Inductive exn : Type :=
| NameError
| ValueError
| IndexError
| TypeError
| AssertionError
| UnboundLocalError
| NonFinite
| NotModelled.

(** The specification's name for the [NameError] that [diel_const.nk]
    raises on a wavelength outside the tabulated range. *)
Definition OutOfRange : exn := NameError.

Inductive result (A : Type) : Type :=
| Ok (a : A)
| Raise (e : exn).

Arguments Ok {A} & a.
Arguments Raise {A} e.
Arguments pair {A B} & a b.

#[global] Instance result_ret : MRet result := fun _ a => Ok a.

#[global] Instance result_bind : MBind result := fun _ _ f r =>
  match r with
  | Ok a => f a
  | Raise e => Raise e
  end.

#[global] Instance result_fmap : FMap result := fun _ _ f r =>
  match r with
  | Ok a => Ok (f a)
  | Raise e => Raise e
  end.

(** [mapM] for [result]: the first exception wins, as in a Python list
    comprehension. *)
Fixpoint traverse {A B : Type} (f : A -> result B) (xs : list A)
  : result (list B) :=
  match xs with
  | [] => Ok []
  | x :: xs' => y ← f x; ys ← traverse f xs'; Ok (y :: ys)
  end.

(** ** Real-number primitives *)

#[global] Instance Rlt_decision (x y : R) : Decision (x < y) := Rlt_dec x y.
#[global] Instance Rle_decision (x y : R) : Decision (x <= y) := Rle_dec x y.
#[global] Instance Rgt_decision (x y : R) : Decision (x > y) := Rgt_dec x y.
#[global] Instance Req_decision : EqDecision R := Req_dec_T.

(** [np.log10] of a positive number. *)
Definition log10 (x : R) : R := ln x / ln 10.

(** [10.**x] for a finite [x]. *)
Definition pow10 (x : R) : R := Rpower 10 x.

(** [x ** y] for a float exponent. *)
Definition fpow (x y : R) : R := Rpower x y.

(** [x / y] on floats, stopping where numpy would produce [inf] or [nan]. *)
Definition fdiv (x y : R) : result R :=
  if decide (y = 0) then Raise NonFinite else Ok (x / y).

(** [float.astype(int)]: truncation towards zero. *)
Definition astype_int (x : R) : Z :=
  if decide (0 <= x) then Int_part x else (- Int_part (- x))%Z.

(** ** Floats that need not be finite *)

(** A float: a real number, an infinity or [nan]. *)
Inductive float64 : Type :=
| Fin (x : R)
| PosInf
| NegInf
| NaN.

Coercion Fin : R >-> float64.

(** [np.isnan]. *)
Definition is_nan (a : float64) : bool :=
  match a with
  | NaN => true
  | _ => false
  end.

(** The comparisons [a < b], [a <= b] and [a == b]: each is false as soon
    as one side is [nan]. *)
Definition float_lt (a b : float64) : bool :=
  match a, b with
  | Fin x, Fin y => bool_decide (x < y)
  | Fin _, PosInf => true
  | NegInf, Fin _ => true
  | NegInf, PosInf => true
  | _, _ => false
  end.

Definition float_le (a b : float64) : bool :=
  match a, b with
  | Fin x, Fin y => bool_decide (x <= y)
  | Fin _, PosInf => true
  | NegInf, Fin _ => true
  | NegInf, PosInf => true
  | PosInf, PosInf => true
  | NegInf, NegInf => true
  | _, _ => false
  end.

Definition float_eq (a b : float64) : bool :=
  match a, b with
  | Fin x, Fin y => bool_decide (x = y)
  | PosInf, PosInf => true
  | NegInf, NegInf => true
  | _, _ => false
  end.

(** The infinity of the given sign. *)
Definition infinity (positive : bool) : float64 :=
  if positive then PosInf else NegInf.

(** [- a], [a + b], [a - b], [a * b] and [a / b].  A sum of opposite
    infinities, a product of zero and an infinity and a quotient of two
    zeros or of two infinities are [nan]; a zero divisor counts as
    positive. *)
Definition float_opp (a : float64) : float64 :=
  match a with
  | Fin x => Fin (- x)
  | PosInf => NegInf
  | NegInf => PosInf
  | NaN => NaN
  end.

Definition float_add (a b : float64) : float64 :=
  match a, b with
  | Fin x, Fin y => Fin (x + y)
  | NaN, _ => NaN
  | _, NaN => NaN
  | PosInf, NegInf => NaN
  | NegInf, PosInf => NaN
  | PosInf, _ => PosInf
  | _, PosInf => PosInf
  | NegInf, _ => NegInf
  | _, NegInf => NegInf
  end.

Definition float_sub (a b : float64) : float64 := float_add a (float_opp b).

Definition float_mul (a b : float64) : float64 :=
  match a, b with
  | Fin x, Fin y => Fin (x * y)
  | NaN, _ => NaN
  | _, NaN => NaN
  | Fin x, PosInf | PosInf, Fin x =>
      if decide (x = 0) then NaN else infinity (bool_decide (0 < x))
  | Fin x, NegInf | NegInf, Fin x =>
      if decide (x = 0) then NaN else infinity (bool_decide (x < 0))
  | PosInf, PosInf => PosInf
  | NegInf, NegInf => PosInf
  | PosInf, NegInf => NegInf
  | NegInf, PosInf => NegInf
  end.

Definition float_div (a b : float64) : float64 :=
  match a, b with
  | Fin x, Fin y =>
      if decide (y = 0)
      then if decide (x = 0) then NaN else infinity (bool_decide (0 < x))
      else Fin (x / y)
  | NaN, _ => NaN
  | _, NaN => NaN
  | Fin _, _ => Fin 0
  | PosInf, Fin y => infinity (bool_decide (0 <= y))
  | NegInf, Fin y => infinity (bool_decide (y < 0))
  | _, _ => NaN
  end.

(** [np.log10]: [-inf] at zero and [nan] below it. *)
Definition np_log10 (x : R) : float64 :=
  if decide (0 < x) then Fin (log10 x)
  else if decide (x = 0) then NegInf
  else NaN.

(** [10.**a]. *)
Definition float_pow10 (a : float64) : float64 :=
  match a with
  | Fin x => Fin (pow10 x)
  | PosInf => PosInf
  | NegInf => Fin 0
  | NaN => NaN
  end.

(** ** numpy array helpers *)

(** [arr.min()] and [arr.max()]; numpy raises [ValueError] on an empty
    array. *)
Definition np_min (xs : list R) : result R :=
  match xs with
  | [] => Raise ValueError
  | x :: xs' => Ok (foldl Rmin x xs')
  end.

Definition np_max (xs : list R) : result R :=
  match xs with
  | [] => Raise ValueError
  | x :: xs' => Ok (foldl Rmax x xs')
  end.

(** [arr[0]] and [arr[-1]]. *)
Definition first_item (xs : list R) : result R :=
  match xs with
  | [] => Raise IndexError
  | x :: _ => Ok x
  end.

Definition last_item (xs : list R) : result R :=
  match last xs with
  | None => Raise IndexError
  | Some x => Ok x
  end.

(** [np.any(n <= 0)]. *)
Definition any_nonpositive (n : list R) : bool :=
  existsb (fun x => bool_decide (x <= 0)) n.

(** The bracket search of [np.interp] for a query [x] known to be at or
    above the head of [xp]: the first segment whose right end lies above
    [x] is interpolated as [slope * (x - xp[j]) + fp[j]]; a query at or
    beyond the last sample gets [fp[-1]]. *)
Fixpoint interp_from (x : R) (xp fp : list R) : R :=
  match xp, fp with
  | x0 :: xp', f0 :: fp' =>
      match xp', fp' with
      | x1 :: _, f1 :: _ =>
          if decide (x < x1)
          then (f1 - f0) / (x1 - x0) * (x - x0) + f0
          else interp_from x xp' fp'
      | _, _ => f0
      end
  | _, _ => 0
  end.

(** [np.interp(x, xp, fp)] for a scalar [x] and finite samples on an
    increasing [xp]: [fp[0]] left of the samples, [fp[-1]] right of them,
    piecewise linear in between.  numpy raises [ValueError] on empty or
    mismatched samples. *)
Definition np_interp (x : R) (xp fp : list R) : result R :=
  match xp, fp with
  | [], _ => Raise ValueError
  | x0 :: _, f0 :: _ =>
      if decide (length xp = length fp)
      then Ok (if decide (x < x0) then f0 else interp_from x xp fp)
      else Raise ValueError
  | _ :: _, [] => Raise ValueError
  end.

(** One segment of [np.interp] between the samples [(x0, f0)] and
    [(x1, f1)]: [slope * (x - x0) + f0], and where that is [nan] the same
    line taken from the right end, and where that is [nan] too and both
    ends agree, their common value. *)
Definition interp_segment (x x0 x1 f0 f1 : float64) : float64 :=
  let slope := float_div (float_sub f1 f0) (float_sub x1 x0) in
  let res := float_add (float_mul slope (float_sub x x0)) f0 in
  if is_nan res then
    let res := float_add (float_mul slope (float_sub x x1)) f1 in
    if is_nan res && float_eq f0 f1 then f0 else res
  else res.

(** The bracket search of [np.interp] on floats, for a query that is
    neither left nor right of the samples: the scan stops at the first
    sample above [x]; a query on the left sample of its bracket gets that
    sample's value, a query on the last sample the last value. *)
Fixpoint interp_scan (x : float64) (xp fp : list float64) : float64 :=
  match xp, fp with
  | x0 :: xp', f0 :: fp' =>
      match xp', fp' with
      | x1 :: _, f1 :: _ =>
          if float_le x1 x then interp_scan x xp' fp'
          else if float_eq x0 x then f0
          else interp_segment x x0 x1 f0 f1
      | _, _ => f0
      end
  | _, _ => NaN
  end.

(** [np.interp(x, xp, fp)] for a scalar [x] on samples that may hold
    [-inf] or [nan], as the logarithm columns do.  A single sample
    answers every query; otherwise a [nan] query is answered by [nan], a
    query right of the last sample by [fp[-1]], one left of the first by
    [fp[0]].  The bracket is found by the linear scan that numpy runs on
    short tables; on an increasing [xp] the bisection that it runs on
    longer ones finds the same bracket. *)
Definition np_interp_float (x : float64) (xp fp : list float64)
  : result float64 :=
  match xp, fp with
  | [], _ => Raise ValueError
  | x0 :: xp', f0 :: _ =>
      if decide (length xp = length fp)
      then Ok (match xp' with
               | [] => f0
               | _ :: _ =>
                   if is_nan x then x
                   else if float_lt (default x0 (last xp)) x
                        then default f0 (last fp)
                   else if float_lt x x0 then f0
                   else interp_scan x xp fp
               end)
      else Raise ValueError
  | _ :: _, [] => Raise ValueError
  end.

(** ** DielectricModel: class [diel_const] *)

(** The attributes that the methods below read or write. *)
Record diel_const : Type := {
  _l : list R;
  _n : list R;
  _k : list R;
  _ll : list float64;
  _ln : list float64;
  _lk : list float64;
  material_str : option string;
  _lmin : R;
  _lmax : R;
  extrapol : bool;
  _has_negative_n : bool
}.

(** [diel_const.__init__(lam, n, k)] for three arrays. *)
Definition diel_const_init (lam n k : list R) : result diel_const :=
  lmin ← first_item lam;
  lmax ← last_item lam;
  Ok {| _l := lam; _n := n; _k := k;
        _ll := np_log10 <$> lam; _ln := np_log10 <$> n;
        _lk := np_log10 <$> k;
        material_str := None;
        _lmin := lmin; _lmax := lmax;
        extrapol := false;
        _has_negative_n := any_nonpositive n |}.

(** [diel_const.__init__(lam, n, k)] for three scalars: the [np.isscalar]
    branch turns them into a two-sample table around [lam]. *)
Definition diel_const_init_scalar (lam n k : R) : result diel_const :=
  let h := 1e-10 * lam in
  diel_const_init [lam - h; lam + h] [1 * n; 1 * n] [1 * k; 1 * k].

(** [diel_const.nk(l)] for a scalar wavelength [l]. *)
Definition nk (self : diel_const) (l : R) : result (float64 * float64) :=
  if decide (l < _lmin self ∨ l > _lmax self) then Raise NameError
  else
    log_interp ←
      (if _has_negative_n self
       then n ← np_interp l (_l self) (_n self);
            Ok (if decide (n < 0) then false else true)
       else Ok true);
    if (log_interp : bool)
    then
      ln_i ← np_interp_float (np_log10 l) (_ll self) (_ln self);
      lk_i ← np_interp_float (np_log10 l) (_ll self) (_lk self);
      Ok (float_pow10 ln_i, float_pow10 lk_i)
    else
      n_i ← np_interp l (_l self) (_n self);
      lk_i ← np_interp_float (np_log10 l) (_ll self) (_lk self);
      Ok (Fin n_i, float_pow10 lk_i).

(** [np.linspace(start, stop, num)]: [arange(num) * step + start] with the
    last sample then set to [stop]; a negative [num] is a [ValueError]. *)
Definition np_linspace (start stop : R) (num : Z) : result (list R) :=
  if decide (num < 0)%Z then Raise ValueError
  else
    let n := Z.to_nat num in
    let step := (stop - start) / INR (n - 1) in
    let y := (fun i => INR i * step + start) <$> seq 0 n in
    Ok (if decide (1 < n)%nat then <[(n - 1)%nat := stop]> y else y).

(** [np.logspace(start, stop, num)]. *)
Definition np_logspace (start stop : R) (num : Z) : result (list R) :=
  y ← np_linspace start stop num; Ok (pow10 <$> (y : list R)).

(** [arr.argmin()]: the first index of the least entry. *)
Fixpoint argmin_from (best : R) (ibest i : nat) (xs : list R) : nat :=
  match xs with
  | [] => ibest
  | x :: xs' =>
      if decide (x < best) then argmin_from x i (S i) xs'
      else argmin_from best ibest (S i) xs'
  end.

Definition np_argmin (xs : list R) : result nat :=
  match xs with
  | [] => Raise ValueError
  | x :: xs' => Ok (argmin_from x 0 1 xs')
  end.

(** The model functions fitted by the extrapolation, applied to an array
    [x] with the parameters unpacked from a list ([f(x, *popt)]). *)
Definition f_second (x : list R) (p : list R) : result (list R) :=
  match p with
  | [a; b; c] => Ok ((fun xi => a + b * xi + c * xi ^ 2) <$> x)
  | _ => Raise TypeError
  end.

Definition f_first (x : list R) (p : list R) : result (list R) :=
  match p with
  | [a; b] => Ok ((fun xi => a + b * xi) <$> x)
  | _ => Raise TypeError
  end.

(** The type of [scipy.optimize.curve_fit(f, xdata, ydata, p0)[0]]: the
    fitted parameters, or an exception. *)
Definition curve_fit_t : Type :=
  (list R -> list R -> result (list R)) ->
  list R -> list R -> list R -> result (list R).

(** The first half of a method that mutates [self] and may raise: the
    object as the method leaves it, and how the method ended. *)
Definition outcome : Type := (diel_const * result ())%type.

Definition set_extrapol (self : diel_const) : diel_const :=
  {| _l := _l self; _n := _n self; _k := _k self;
     _ll := _ll self; _ln := _ln self; _lk := _lk self;
     material_str := material_str self;
     _lmin := _lmin self; _lmax := _lmax self;
     extrapol := true;
     _has_negative_n := _has_negative_n self |}.

(** The block [# update attributes] shared by both extrapolation methods:
    the six arrays are assigned, then the two bounds, then the label is
    extended.  [self]'s [extrapol] flag is already set. *)
Definition update_attributes (self : diel_const) (l' n' k' : list R)
  : outcome :=
  let with_arrays lo hi ms :=
    {| _l := l'; _n := n'; _k := k';
       _ll := np_log10 <$> l'; _ln := np_log10 <$> n';
       _lk := np_log10 <$> k';
       material_str := ms;
       _lmin := lo; _lmax := hi;
       extrapol := extrapol self;
       _has_negative_n := _has_negative_n self |} in
  match np_min l' with
  | Raise e => (with_arrays (_lmin self) (_lmax self) (material_str self), Raise e)
  | Ok lo =>
      match np_max l' with
      | Raise e => (with_arrays lo (_lmax self) (material_str self), Raise e)
      | Ok hi =>
          match material_str self with
          | None => (with_arrays lo hi None, Raise TypeError)
          | Some s =>
              (with_arrays lo hi (Some (s +:+ " - extrapolated")), Ok ())
          end
      end
  end.

Section Extrapolation.

Variable curve_fit : curve_fit_t.

(** The fit of one column over the tail [xdata], evaluated on the new
    wavelengths: [10.**f(np.log10(l_ext), *curve_fit(...)[0])]. *)
Definition fit_and_extend (f : list R -> list R -> result (list R))
    (l_fit y_fit p0 l_ext : list R) : result (list R) :=
  popt ← curve_fit f (log10 <$> l_fit) (log10 <$> y_fit) p0;
  y ← f (log10 <$> l_ext) popt;
  Ok (pow10 <$> (y : list R)).

(** The new samples of [extrapolate_constants_up], before any attribute
    other than [extrapol] is written. *)
Definition samples_up (self : diel_const) (lmin lmax : R) (n : Z)
    (kind : string) : result (list R * list R * list R) :=
  l_last ← last_item (_l self);
  grid ← np_logspace (log10 l_last) (log10 lmax) n;
  let l_ext : list R := drop 1 grid in
  if decide (kind = "constant") then
    n_last ← last_item (_n self);
    k_last ← last_item (_k self);
    Ok (l_ext, (fun _ => n_last * 1) <$> l_ext,
               (fun _ => k_last * 1) <$> l_ext)
  else
    '(f, p0_n, p0_k) ←
      (if decide (kind = "second") then
         n_last ← last_item (_n self);
         k_last ← last_item (_k self);
         Ok (f_second, [log10 n_last; 1; 0], [log10 k_last; 1; 0])
       else if decide (kind = "first" ∨ kind = "linear") then
         n_last ← last_item (_n self);
         k_last ← last_item (_k self);
         Ok (f_first, [log10 n_last; 1], [log10 k_last; 1])
       else Raise ValueError);
    i_min ← np_argmin ((fun x => Rabs (x - lmin)) <$> _l self);
    n_ext ← fit_and_extend f (drop i_min (_l self)) (drop i_min (_n self))
               p0_n l_ext;
    k_ext ← fit_and_extend f (drop i_min (_l self)) (drop i_min (_k self))
               p0_k l_ext;
    Ok (l_ext, n_ext, k_ext).

(** [diel_const.extrapolate_constants_up(lmin, lmax, n, kind)].  The
    warning issued for a table with [n <= 0] changes nothing and is left
    out. *)
Definition extrapolate_constants_up (self : diel_const) (lmin lmax : R)
    (n : Z) (kind : string) : outcome :=
  let self := set_extrapol self in
  match samples_up self lmin lmax n kind with
  | Raise e => (self, Raise e)
  | Ok (l_ext, n_ext, k_ext) =>
      update_attributes self (_l self ++ l_ext) (_n self ++ n_ext)
        (_k self ++ k_ext)
  end.

(** The new samples of [extrapolate_constants_down]. *)
Definition samples_down (self : diel_const) (lmin lmax : R) (n : Z)
    (kind : string) : result (list R * list R * list R) :=
  l_first ← first_item (_l self);
  grid ← np_logspace (log10 lmin) (log10 l_first) n;
  let l_ext : list R := take (length grid - 1) grid in
  if decide (kind = "constant") then
    n_first ← first_item (_n self);
    k_first ← first_item (_k self);
    Ok (l_ext, (fun _ => n_first * 1) <$> l_ext,
               (fun _ => k_first * 1) <$> l_ext)
  else
    '(f, p0_n, p0_k) ←
      (if decide (kind = "second") then
         n_first ← first_item (_n self);
         k_first ← first_item (_k self);
         Ok (f_second, [log10 n_first; 0; 0], [log10 k_first; 0; 0])
       else if decide (kind = "first" ∨ kind = "linear") then
         n_first ← first_item (_n self);
         k_first ← first_item (_k self);
         Ok (f_first, [log10 n_first; 1], [log10 k_first; 1])
       else Raise ValueError);
    i_max ← np_argmin ((fun x => Rabs (x - lmax)) <$> _l self);
    n_ext ← fit_and_extend f (take i_max (_l self)) (take i_max (_n self))
               p0_n l_ext;
    k_ext ← fit_and_extend f (take i_max (_l self)) (take i_max (_k self))
               p0_k l_ext;
    Ok (l_ext, n_ext, k_ext).

(** [diel_const.extrapolate_constants_down(lmin, lmax, n, kind)]. *)
Definition extrapolate_constants_down (self : diel_const) (lmin lmax : R)
    (n : Z) (kind : string) : outcome :=
  let self := set_extrapol self in
  match samples_down self lmin lmax n kind with
  | Raise e => (self, Raise e)
  | Ok (l_ext, n_ext, k_ext) =>
      update_attributes self (l_ext ++ _l self) (n_ext ++ _n self)
        (k_ext ++ _k self)
  end.

End Extrapolation.

(** ** Complex numbers *)

(** A Python [complex]: real and imaginary part. *)
Definition C : Type := (R * R)%type.

Definition Re (z : C) : R := fst z.
Definition Im (z : C) : R := snd z.
Definition RtoC (x : R) : C := (x, 0).
Definition Cplus (z w : C) : C := (Re z + Re w, Im z + Im w).
Definition Cminus (z w : C) : C := (Re z - Re w, Im z - Im w).
Definition Cmult (z w : C) : C :=
  (Re z * Re w - Im z * Im w, Re z * Im w + Im z * Re w).
Definition Cscale (x : R) (z : C) : C := (x * Re z, x * Im z).
Definition Cconj (z : C) : C := (Re z, - Im z).

(** [np.abs(z)]. *)
Definition Cabs (z : C) : R := sqrt (Re z * Re z + Im z * Im z).

(** [z / w], stopping on a zero divisor. *)
Definition Cdiv (z w : C) : result C :=
  if decide (w = (0, 0)) then Raise NonFinite
  else
    let d := Re w * Re w + Im w * Im w in
    Ok ((Re z * Re w + Im z * Im w) / d, (Im z * Re w - Re z * Im w) / d).

(** [np.sqrt(z)]: the principal branch, with the imaginary part taking the
    sign of [Im z] (a zero imaginary part counts as positive). *)
Definition Csqrt (z : C) : C :=
  let r := Cabs z in
  (sqrt ((r + Re z) / 2),
   (if decide (0 <= Im z) then 1 else -1) * sqrt ((r - Re z) / 2)).

(** [arr.sum()] and the builtin [sum(arr)]. *)
Definition np_sum (xs : list R) : R := foldl Rplus 0 xs.
Definition Csum (zs : list C) : C := foldl Cplus (0, 0) zs.

(** Elementwise [op] of two one-dimensional arrays with numpy's
    broadcasting: equal lengths pair up, a length-one array is repeated,
    anything else is a [ValueError]. *)
Definition broadcast {A B D : Type} (op : A -> B -> D) (xs : list A)
    (ys : list B) : result (list D) :=
  if decide (length xs = length ys) then Ok (zip_with op xs ys)
  else
    match xs, ys with
    | [x], _ => Ok (op x <$> ys)
    | _, [y] => Ok ((fun x => op x y) <$> xs)
    | _, _ => Raise ValueError
    end.

(** ** The interface of dielectric objects: anything with an [nk] method *)

Class Dielectric (T : Type) : Type :=
  nk_at : T -> R -> result (float64 * float64).

#[global] Instance diel_const_dielectric : Dielectric diel_const := nk.

(** Class [diel_vacuum]: [nk] is overridden and answers [(1, 0)] at every
    wavelength. *)
Inductive diel_vacuum : Type := Vacuum.

#[global] Instance diel_vacuum_dielectric : Dielectric diel_vacuum :=
  fun _ _ => Ok (1, 0).

(** [complex(n, k)] for the arithmetic of the mixing rules, which the
    model follows on finite numbers only. *)
Definition complex (n k : float64) : result C :=
  match n, k with
  | Fin n, Fin k => Ok (n, k)
  | _, _ => Raise NonFinite
  end.

(** ** EffectiveMediumMixer: class [diel_mixed] *)

(** [str.lower()] on ASCII text. *)
Definition lower_ascii (c : ascii) : ascii :=
  let n := nat_of_ascii c in
  if decide (65 <= n <= 90)%nat then ascii_of_nat (n + 32) else c.

Fixpoint lower (s : string) : string :=
  match s with
  | EmptyString => EmptyString
  | String c s' => String (lower_ascii c) (lower s')
  end.

Record diel_mixed (T : Type) : Type := {
  constants : list T;
  abundances : list R;
  rule : string;
  mixed_extrapol : bool
}.

Arguments constants {T} _.
Arguments abundances {T} _.
Arguments rule {T} _.
Arguments mixed_extrapol {T} _.

(** [diel_mixed.__init__]: an unknown rule is rejected; under
    Maxwell-Garnett the label of [constants[0]] is read for the note that
    is printed, which takes a first constituent. *)
Definition diel_mixed_init {T : Type} (constants : list T)
    (abundances : list R) (rule : string) (extrapol : bool)
  : result (diel_mixed T) :=
  if decide (lower rule = "bruggeman" ∨ lower rule = "maxwell-garnett")
  then
    _ ← (if decide (lower rule = "maxwell-garnett")
         then match constants with
              | [] => Raise IndexError
              | _ :: _ => Ok ()
              end
         else Ok ());
    Ok {| constants := constants; abundances := abundances;
          rule := rule; mixed_extrapol := extrapol |}
  else Raise NameError.

(** A loop body either falls through to the next iteration or executes
    [return]. *)
Inductive control (S A : Type) : Type :=
| Continue (s : S)
| Return (a : A).

Arguments Continue {S A} s.
Arguments Return {S A} a.

(** [for item in items: body], threading the local state; the result is
    the state at normal exit or the value returned from inside the loop. *)
Fixpoint for_loop {I S A : Type} (body : I -> S -> result (control S A))
    (items : list I) (s : S) : result (S + A) :=
  match items with
  | [] => Ok (inl s)
  | x :: rest =>
      c ← body x s;
      match c with
      | Continue s' => for_loop body rest s'
      | Return a => Ok (inr a)
      end
  end.

(** [enumerate(xs)]. *)
Definition enumerate {A : Type} (xs : list A) : list (nat * A) :=
  imap (fun i x => (i, x)) xs.

(** The Bruggeman residual [fct(x)] of [diel_mixed.nk]:
    [sum(abundances * ((eps - x) / (eps + 2 * x)))]. *)
Definition fct (abundances : list R) (eps : list C) (x : C) : result C :=
  terms ← traverse (fun e => Cdiv (Cminus e x) (Cplus e (Cscale 2 x))) eps;
  prods ← broadcast Cscale abundances terms;
  Ok (Csum prods).

(** The Maxwell-Garnett branch of [diel_mixed.nk] (Bohren & Huffman),
    component 0 being the matrix. *)
Definition maxwell_garnett (abundances : list R) (eps : list C)
  : result C :=
  match eps with
  | [] => Raise IndexError
  | eps_m :: eps_i =>
      let f_i := drop 1 abundances in
      beta_i ← traverse
        (fun e => Cdiv (Cscale 3 eps_m) (Cplus e (Cscale 2 eps_m))) eps_i;
      let f := np_sum f_i in
      fb ← broadcast Cscale f_i beta_i;
      fbe ← broadcast Cmult fb eps_i;
      Cdiv (Cplus (Cscale (1 - f) eps_m) (Csum fbe))
           (Cplus (RtoC (1 - f)) (Csum fb))
  end.

Section Mixer.

Context {T : Type} `{Dielectric T}.

(** [mpmath.findroot(f, x0)]: a root of [f] near [x0], or an exception
    when the iteration does not converge. *)
Variable findroot : (C -> result C) -> C -> result C.

(** The contents of the memory that [np.empty] hands out, slot by
    slot. *)
Variable uninit : nat -> R.

(** [np.empty(shape).astype('complex')]. *)
Definition np_empty_complex (n : nat) : list C :=
  (fun i => RtoC (uninit i)) <$> seq 0 n.

(** The array [eps]: the square of the complex index [n + i k] that each
    constituent's [nk] returns at [l]. *)
Definition constituent_eps (self : diel_mixed T) (l : R)
  : result (list C) :=
  traverse (fun c => '(n, k) ← nk_at c l; m ← complex n k; Ok (Cmult m m))
    (constants self).

(** The value assigned to [eps_mean[i]] by the rule's branch; [None]
    when neither branch is taken and the slot keeps its content. *)
Definition eps_mean_at (self : diel_mixed T) (l : R)
  : result (option C) :=
  eps ← constituent_eps self l;
  if decide (lower (rule self) = "bruggeman") then
    x ← findroot (fct (abundances self) eps) (0.5, 0.5);
    Ok (Some x)
  else if decide (lower (rule self) = "maxwell-garnett") then
    x ← maxwell_garnett (abundances self) eps;
    Ok (Some x)
  else Ok None.

(** The body of the wavelength loop of [diel_mixed.nk], down to its
    [return] statement. *)
Definition nk_body (self : diel_mixed T) (item : nat * R)
    (eps_mean : list C)
  : result (control (list C) (list R * list R)) :=
  let '(i, l) := item in
  x ← eps_mean_at self l;
  let eps_mean :=
    match x with
    | Some x => <[i := x]> eps_mean
    | None => eps_mean
    end in
  let eps_mean := Csqrt <$> eps_mean in
  Ok (Return (Re <$> eps_mean, Im <$> eps_mean)).

(** [diel_mixed.nk(l)] on the array [np.array(l, ndmin=1)]: the pair of
    rows of the returned array, or [None] when the loop ends without
    returning. *)
Definition nk_mixed (self : diel_mixed T) (l_arr : list R)
  : result (option (list R * list R)) :=
  let eps_mean := np_empty_complex (length l_arr) in
  r ← for_loop (nk_body self) (enumerate l_arr) eps_mean;
  match r with
  | inl _ => Ok None
  | inr a => Ok (Some a)
  end.

(** [n, k = mixed.nk(l)] for a scalar [l]. *)
Definition nk_mixed_scalar (self : diel_mixed T) (l : R)
  : result (R * R) :=
  r ← nk_mixed self [l];
  match r with
  | Some ([n], [k]) => Ok (n, k)
  | _ => Raise TypeError
  end.

(** The rows that the first pass of the wavelength loop returns for an
    array of [len] wavelengths starting with [l0]: slot 0 holds the root
    of the mixed permittivity at [l0], every later slot the root of
    whatever [np.empty] left there. *)
Definition first_pass (self : diel_mixed T) (l0 : R) (len : nat)
  : result (option (list R * list R)) :=
  x ← eps_mean_at self l0;
  let slot0 := default (RtoC (uninit 0)) x in
  let later := (fun i => RtoC (uninit i)) <$> seq 1 (len - 1) in
  let eps_mean := Csqrt <$> slot0 :: later in
  Ok (Some (Re <$> eps_mean, Im <$> eps_mean)).

End Mixer.

(** ** SizeDistribution *)

(** [np.trapz(y, x=x)]: the sum of [(x[i+1] - x[i]) * (y[i+1] + y[i]) / 2]. *)
Fixpoint np_trapz (y x : list R) : R :=
  match x, y with
  | x0 :: x', y0 :: y' =>
      match x', y' with
      | x1 :: _, y1 :: _ => (x1 - x0) * (y1 + y0) / 2 + np_trapz y' x'
      | _, _ => 0
      end
  | _, _ => 0
  end.

(** The grain masses [m = 4. * np.pi / 3. * rho_s * a**3]. *)
Definition grain_mass (rho_s : R) (a : list R) : list R :=
  (fun ai => 4 * PI / 3 * rho_s * ai ^ 3) <$> a.

(** [dist / np.trapz(dist * m, x=a)]. *)
Definition normalize_mass (dist m a : list R) : result (list R) :=
  traverse (fun d => fdiv d (np_trapz (zip_with Rmult dist m) a)) dist.

(** [powerlaw_N_of_a(a, a_max, q, rho_s)]. *)
Definition powerlaw_N_of_a (a : list R) (a_max q rho_s : R)
  : result (list R) :=
  let m := grain_mass rho_s a in
  let dist :=
    (fun ai => fpow ai (- q) * (if decide (ai <= a_max) then 1 else 0))
      <$> a in
  normalize_mass dist m a.

(** [gaussian_N_of_a(a, a_mean, sigma_a, rho_s)]. *)
Definition gaussian_N_of_a (a : list R) (a_mean sigma_a rho_s : R)
  : result (list R) :=
  let m := grain_mass rho_s a in
  dist ← traverse
    (fun ai => e ← fdiv (- (ai - a_mean) ^ 2) (2 * sigma_a ^ 2); Ok (exp e))
    a;
  normalize_mass dist m a.

(** ** OpacitySweep: [get_mie_coefficients] *)

Abbreviation matrix := (list (list R)).
Abbreviation cube A := (list (list (list A))).

(** [np.zeros([r, c])] and [np.zeros([r, c, d], dtype=complex)]. *)
Definition np_zeros2 (r c : nat) : matrix := replicate r (replicate c 0).
Definition np_zeros3 (r c d : nat) : cube C :=
  replicate r (replicate c (replicate d (0, 0))).

(** [M[i, j] = v]. *)
Definition set2 {A : Type} (M : list (list A)) (i j : nat) (v : A)
  : list (list A) :=
  alter (<[j := v]>) i M.

(** [M[i, j]]. *)
Definition get2 (M : matrix) (i j : nat) : result R :=
  match M !! i with
  | Some row =>
      match row !! j with
      | Some v => Ok v
      | None => Raise IndexError
      end
  | None => Raise IndexError
  end.

(** [M[i0:, j] = v(i)], the rows from [i0] on getting their own value. *)
Definition set_col_from (M : matrix) (i0 j : nat) (v : nat -> option R)
  : matrix :=
  imap (fun i row =>
          if decide (i0 <= i)%nat
          then match v i with
               | Some x => <[j := x]> row
               | None => row
               end
          else row) M.

(** [X[mask]] for a boolean mask. *)
Definition select {A : Type} (mask : list bool) (X : list A) : list A :=
  snd <$> filter (fun p => fst p = true) (zip mask X).

(** What [bhmie_function(x, complex(n, k), nang)] returns. *)
Record bhmie_result : Type := {
  S1 : list C;
  S2 : list C;
  Qext : R;
  Qabs : R;
  Qsca : R;
  Qback : R;
  gsca : C
}.

(** [bhmie_function]: the size parameter, the index [complex(n, k)],
    whose parts need not be finite, and the number of angles. *)
Definition bhmie_t : Type :=
  R -> float64 * float64 -> Z -> result bhmie_result.

(** The arrays filled by the sweep.  The source also fills [full_mask],
    which is never read nor returned, and is left out. *)
Record mie_arrays : Type := {
  q_abs : matrix;
  q_sca : matrix;
  g_sca : matrix;
  s_1 : cube C;
  s_2 : cube C
}.

(** The entries of the returned dictionary, the [info] text apart. *)
Record package : Type := {
  pkg_q_abs : matrix;
  pkg_q_sca : matrix;
  pkg_g : matrix;
  pkg_S1 : cube C;
  pkg_S2 : cube C;
  pkg_theta : list R
}.

(** The warning of [get_mie_coefficients], with the order it reports. *)
Inductive warning : Type := LargeSizeParameter (nmx : R).

(** After how many terms the extrapolation takes over. *)
Definition NMXX : Z := 200000.

(** What [astype(int)] makes of [nan] and of the infinities on x86-64:
    the least 64-bit integer. *)
Definition astype_int_nonfinite : Z := (- 9223372036854775808)%Z.

(** The recursion order of one size parameter [x] for the index [n + i k]:
    [np.maximum(Xstop, Y).astype(int) + 15].  An index that is not finite
    makes [Y], and with it the maximum, not finite. *)
Definition nmx_of (x : R) (n k : float64) : Z :=
  match n, k with
  | Fin n, Fin k =>
      let Y := Cabs (Cscale x (n, k)) in
      let Xstop := x + 4 * fpow x 0.333333 + 2 in
      (astype_int (Rmax Xstop Y) + 15)%Z
  | _, _ => (astype_int_nonfinite + 15)%Z
  end.

(** Laor & Draine 1993, Eq. 8. *)
Definition g_large (x : R) : R := 0.3 * x ^ 2 / (1 + 0.3 * x ^ 2).

(** [cell[:] = v] for a one-dimensional [v]: same length, or one entry
    repeated. *)
Definition assign_cell (cell v : list C) : result (list C) :=
  if decide (length v = length cell) then Ok v
  else
    match v with
    | [z] => Ok (replicate (length cell) z)
    | _ => Raise ValueError
    end.

(** [for x in xs: body], without [return] or [break] in the body. *)
Fixpoint for_each {I S : Type} (body : I -> S -> result S)
    (items : list I) (s : S) : result S :=
  match items with
  | [] => Ok s
  | x :: rest => s' ← body x s; for_each body rest s'
  end.

Section Sweep.

Context {T : Type} `{Dielectric T}.

Variable bhmie_function : bhmie_t.

(** [scipy.optimize.fsolve(f, x0)], read as a scalar. *)
Variable fsolve : (R -> R) -> R -> R.

(** The body of the loop over the sizes that converge. *)
Definition size_body (n k : float64) (nang : Z) (ilam : nat)
    (item : nat * R)
    (st : mie_arrays) : result mie_arrays :=
  let '(ia, x) := item in
  r ← bhmie_function x (n, k) nang;
  cell1 ← match s_1 st !! ia ≫= (.!! ilam) with
          | Some cell => assign_cell cell (S1 r)
          | None => Raise IndexError
          end;
  cell2 ← match s_2 st !! ia ≫= (.!! ilam) with
          | Some cell => assign_cell cell (S2 r)
          | None => Raise IndexError
          end;
  Ok {| q_abs := set2 (q_abs st) ia ilam (Qabs r);
        q_sca := set2 (q_sca st) ia ilam (Qsca r);
        g_sca := set2 (g_sca st) ia ilam (Re (gsca r));
        s_1 := set2 (s_1 st) ia ilam cell1;
        s_2 := set2 (s_2 st) ia ilam cell2 |}.

(** The sizes that are handed to [bhmie_function] at one wavelength:
    [X[mask]], or the boundary size parameter when no size converges. *)
Definition converging (extrapolate_large_grains : bool) (n k : float64)
    (X : list R) : list R :=
  let nmx := (fun x => nmx_of x n k) <$> X in
  let mask := (fun v => bool_decide (v < NMXX)%Z) <$> nmx in
  let mask :=
    if extrapolate_large_grains then mask else (fun _ => true) <$> mask in
  let X_cut := select mask X in
  match X_cut with
  | [] =>
      [fsolve (fun x => x + 4 * fpow x 0.33333 + 2 - IZR NMXX) (IZR NMXX)]
  | _ => X_cut
  end.

(** The body of the wavelength loop. *)
Definition wavelength_body (A : list R) (diel_constants : T) (nang : Z)
    (extrapolate_large_grains : bool) (item : nat * R) (st : mie_arrays)
  : result mie_arrays :=
  let '(ilam, lam) := item in
  '(n, k) ← nk_at diel_constants lam;
  c ← fdiv (2 * PI) lam;
  let X := (fun a => c * a) <$> A in
  let X_cut := converging extrapolate_large_grains n k X in
  st ← for_each (size_body n k nang ilam) (enumerate X_cut) st;
  let ia := (length X_cut - 1)%nat in
  last_abs ← get2 (q_abs st) ia ilam;
  last_sca ← get2 (q_sca st) ia ilam;
  Ok {| q_abs := set_col_from (q_abs st) (ia + 1) ilam
                   (fun _ => Some last_abs);
        q_sca := set_col_from (q_sca st) (ia + 1) ilam
                   (fun _ => Some last_sca);
        g_sca := set_col_from (g_sca st) (ia + 1) ilam
                   (fun i => g_large <$> X !! i);
        s_1 := s_1 st;
        s_2 := s_2 st |}.

(** [get_mie_coefficients(A, LAM, diel_constants, bhmie_function, nang,
    return_all, extrapolate_large_grains)]: the package and the warnings
    issued. *)
Definition get_mie_coefficients (A LAM : list R) (diel_constants : T)
    (nang : Z) (return_all extrapolate_large_grains : bool)
  : result (package * list warning) :=
  if decide (2 * nang - 1 < 0)%Z then Raise ValueError
  else
    let nangles := Z.to_nat (2 * nang - 1) in
    let zeros := np_zeros2 (length A) (length LAM) in
    let st := {| q_abs := zeros; q_sca := zeros; g_sca := zeros;
                 s_1 := np_zeros3 (length A) (length LAM) nangles;
                 s_2 := np_zeros3 (length A) (length LAM) nangles |} in
    lam_min ← np_min LAM;
    a_max ← np_max A;
    c ← fdiv (2 * PI) lam_min;
    let xmax := c * a_max in
    let xstop := xmax + 4 * fpow xmax 0.333333 + 2 in
    let nmx := xstop + 15 in
    let warnings :=
      if decide (nmx > 2e5) then
        if extrapolate_large_grains then [] else [LargeSizeParameter nmx]
      else [] in
    st ← for_each
           (wavelength_body A diel_constants nang extrapolate_large_grains)
           (enumerate LAM) st;
    theta ← np_linspace 0 180 (2 * nang - 1);
    Ok ({| pkg_q_abs := q_abs st; pkg_q_sca := q_sca st;
           pkg_g := g_sca st; pkg_S1 := s_1 st; pkg_S2 := s_2 st;
           pkg_theta := theta |}, warnings).

End Sweep.

(** ** OpacityAggregator *)

(** Whether the nested list [M] is a two-dimensional array with [r] rows
    and [c] columns, and likewise in three dimensions. *)
Definition has_shape2 {A : Type} (r c : nat) (M : list (list A)) : bool :=
  bool_decide (length M = r) && forallb (fun row => bool_decide (length row = c)) M.

Definition has_shape3 {A : Type} (r c d : nat) (M : list (list (list A)))
  : bool :=
  bool_decide (length M = r) && forallb (has_shape2 c d) M.

(** [M.shape[1]] and [M.shape[-1]], read off the first row. *)
Definition shape1 {A : Type} (M : list (list A)) : nat :=
  match M with
  | [] => 0
  | row :: _ => length row
  end.

Definition shape_last {A : Type} (M : list (list (list A))) : nat :=
  match M with
  | [] => 0
  | plane :: _ => shape1 plane
  end.

(** [q * np.tile(fac, [n_lam, 1]).transpose()]: row [i] of [q] times
    [fac[i]].  Shapes other than [(len(fac), n_lam)] end in [ValueError] or
    in a broadcast that the model does not follow. *)
Definition scale_rows (fac : list R) (n_lam : nat) (q : matrix)
  : result matrix :=
  if has_shape2 (length fac) n_lam q
  then Ok (zip_with (fun f row => (fun v => v * f) <$> row) fac q)
  else Raise NotModelled.

(** [get_kappa_from_q(a, m, q_abs, q_sca)]. *)
Definition get_kappa_from_q (a m : list R) (q_abs q_sca : matrix)
  : result (matrix * matrix) :=
  let n_lam := shape1 q_abs in
  quot ← broadcast (fun ai mi => fdiv (PI * ai ^ 2) mi) a m;
  fac ← traverse (fun r : result R => r) quot;
  kappa_abs ← scale_rows fac n_lam q_abs;
  kappa_sca ← scale_rows fac n_lam q_sca;
  Ok (kappa_abs, kappa_sca).

(** [M[:, i]]. *)
Definition column (M : matrix) (i : nat) : result (list R) :=
  traverse (fun row => match row !! i with
                       | Some v => Ok v
                       | None => Raise IndexError
                       end) M.

(** [assert cond]. *)
Definition py_assert (cond : bool) : result () :=
  if cond then Ok () else Raise AssertionError.

Definition is_none {A : Type} (x : option A) : bool :=
  match x with
  | None => true
  | Some _ => false
  end.

Section Aggregator.

Context {T : Type} `{Dielectric T}.

(** The module-level default [bhmie_function] and scipy's [fsolve]. *)
Variable bhmie_function : bhmie_t.
Variable fsolve : (R -> R) -> R -> R.

(** One pass of the averaging loop: [sum(kappa[:, i] * sig, 0)] for both
    opacities; a name that was never bound is an [UnboundLocalError]. *)
Definition average_at (kappa : option (matrix * matrix)) (sig : list R)
    (i : nat) (acc : list R * list R) : result (list R * list R) :=
  match kappa with
  | None => Raise UnboundLocalError
  | Some (kappa_abs, kappa_sca) =>
      col_abs ← column kappa_abs i;
      col_sca ← column kappa_sca i;
      p_abs ← broadcast Rmult col_abs sig;
      p_sca ← broadcast Rmult col_sca sig;
      Ok (<[i := np_sum p_abs]> (fst acc), <[i := np_sum p_sca]> (snd acc))
  end.

(** [get_size_averaged_opacity(a, lam, n, rho_s, diel_const, q_abs,
    q_sca, k_abs, k_sca)], a keyword left at its default being [None]. *)
Definition get_size_averaged_opacity (a lam n : list R) (rho_s : R)
    (diel_const : option T) (q_abs q_sca k_abs k_sca : option matrix)
  : result (list R * list R) :=
  _ ← py_assert (negb (is_none diel_const));
  _ ← (if (is_none q_abs || is_none q_sca)
            && (is_none k_abs || is_none k_sca)
            && is_none diel_const
       then Raise AssertionError else Ok ());
  let m := grain_mass rho_s a in
  sig ← broadcast Rmult n m;
  sig ← broadcast Rmult sig a;
  sig ← traverse (fun s => fdiv s (np_sum sig)) sig;
  kappa ←
    (if (is_none q_abs || is_none q_sca) && (is_none k_abs || is_none k_sca)
     then
       match diel_const with
       | Some d =>
           _ ← get_mie_coefficients bhmie_function fsolve a lam d 3 false
                 false;
           Ok None
       | None => Raise TypeError
       end
     else if is_none k_abs || is_none k_sca then
       match q_abs, q_sca with
       | Some qa, Some qs => Some <$> get_kappa_from_q a m qa qs
       | _, _ => Raise TypeError
       end
     else Ok None);
  let zeros := replicate (length lam) 0 in
  for_each (average_at kappa sig) (seq 0 (length lam)) (zeros, zeros).

End Aggregator.

(** Elementwise [op] of two three-dimensional arrays of one shape. *)
Definition zip3 {A B D : Type} (op : A -> B -> D)
    (X : cube A) (Y : cube B) : cube D :=
  zip_with (zip_with (zip_with op)) X Y.

(** [zscat[..., c] = vals * factor[:, :, None]]. *)
Definition assign_component (c : nat) (vals : cube R) (factor : matrix)
    (zscat : cube (list R)) : cube (list R) :=
  zip_with
    (fun frow plane =>
       zip_with (fun f cell => (fun '(v, z) => <[c := v * f]> z) <$> cell)
         frow plane)
    factor (zip3 pair vals zscat).

(** [calculate_mueller_matrix(lam, m, S1, S2)] for amplitudes of shape
    [(len(m), len(lam), nangles)]; other shapes end in [ValueError] or in a
    broadcast that the model does not follow. *)
Definition calculate_mueller_matrix (lam m : list R) (S1 S2 : cube C)
  : result (cube (list R)) :=
  factor ← traverse
    (fun mi => traverse (fun lj => fdiv ((lj / (2 * PI)) ^ 2) mi) lam) m;
  let nangles := shape_last S1 in
  if has_shape3 (length m) (length lam) nangles S1
     && has_shape3 (length m) (length lam) nangles S2
  then
    let S11 := zip3 (fun s1 s2 => 0.5 * (Cabs s2 ^ 2 + Cabs s1 ^ 2)) S1 S2 in
    let S12 := zip3 (fun s1 s2 => 0.5 * (Cabs s2 ^ 2 - Cabs s1 ^ 2)) S1 S2 in
    let S33 := zip3 (fun s1 s2 => Re (Cmult s2 (Cconj s1))) S1 S2 in
    let S34 := zip3 (fun s1 s2 => Im (Cmult s2 (Cconj s1))) S1 S2 in
    let zscat :=
      replicate (length m)
        (replicate (length lam) (replicate nangles (replicate 6 0))) in
    let zscat := assign_component 0 S11 factor zscat in
    let zscat := assign_component 1 S12 factor zscat in
    let zscat := assign_component 2 S11 factor zscat in
    let zscat := assign_component 3 S33 factor zscat in
    let zscat := assign_component 4 S34 factor zscat in
    let zscat := assign_component 5 S33 factor zscat in
    Ok zscat
  else Raise NotModelled.

(** ** The value of an interpolation, and the class invariant *)

(** What [np_interp] returns on non-empty samples of one length. *)
Definition piecewise_linear (x : R) (xp fp : list R) : R :=
  match xp, fp with
  | x0 :: _, f0 :: _ => if decide (x < x0) then f0 else interp_from x xp fp
  | _, _ => 0
  end.

(** What [np_interp_float] returns on non-empty samples of one length. *)
Definition interp_float (x : float64) (xp fp : list float64) : float64 :=
  match xp, fp with
  | x0 :: xp', f0 :: _ =>
      match xp' with
      | [] => f0
      | _ :: _ =>
          if is_nan x then x
          else if float_lt (default x0 (last xp)) x then default f0 (last fp)
          else if float_lt x x0 then f0
          else interp_scan x xp fp
      end
  | _, _ => NaN
  end.

(** Section 4.1 in words, for a wavelength [l] between two neighbouring
    samples [(l0, y0)] and [(l1, y1)]: the straight line through the two
    samples in log-log space, that is, the power law through them.  A
    negative sample has no logarithm and leaves [nan]; a zero sample has
    the logarithm [-inf], which the power of ten turns into zero. *)
Definition power_law (l0 l1 y0 y1 l : R) : float64 :=
  if decide (y0 < 0 \/ y1 < 0) then NaN
  else if decide (y0 = 0 \/ y1 = 0) then Fin 0
  else Fin (y0 * Rpower (y1 / y0) (ln (l / l0) / ln (l1 / l0))).

(** What [__init__] establishes and the extrapolation methods keep: three
    columns of one length, their logarithms, and the flag for [n <= 0]. *)
Record table_ok (self : diel_const) : Prop := {
  ok_nonempty : _l self <> [];
  ok_len_n : length (_n self) = length (_l self);
  ok_len_k : length (_k self) = length (_l self);
  ok_ll : _ll self = np_log10 <$> _l self;
  ok_ln : _ln self = np_log10 <$> _n self;
  ok_lk : _lk self = np_log10 <$> _k self;
  ok_flag : _has_negative_n self = any_nonpositive (_n self)
}.

(** ** Sample inputs *)

(** A two-sample table, as a loader subclass builds it (the label set). *)
Definition sample_table (n k : R) : diel_const :=
  {| _l := [1; 10]; _n := [n; n]; _k := [k; k];
     _ll := np_log10 <$> [1; 10];
     _ln := np_log10 <$> [n; n];
     _lk := np_log10 <$> [k; k];
     material_str := Some "sample";
     _lmin := 1; _lmax := 10;
     extrapol := false;
     _has_negative_n := any_nonpositive [n; n] |}.

(** A table whose columns rise from one sample to the next. *)
Definition sample_rising : diel_const :=
  {| _l := [1; 100]; _n := [2; 8]; _k := [1; 100];
     _ll := np_log10 <$> [1; 100];
     _ln := np_log10 <$> [2; 8];
     _lk := np_log10 <$> [1; 100];
     material_str := Some "rising";
     _lmin := 1; _lmax := 100;
     extrapol := false;
     _has_negative_n := any_nonpositive [2; 8] |}.

(** A fit that hands back its starting point. *)
Definition sample_curve_fit : curve_fit_t := fun _ _ _ p0 => Ok p0.

(** ** Reading nested arrays *)

(** [M[i, j]] and [M[i, j, a]] as partial lookups. *)
Definition at2 {A : Type} (M : list (list A)) (i j : nat) : option A :=
  match M !! i with
  | Some row => row !! j
  | None => None
  end.

Definition at3 {A : Type} (M : cube A) (i j a : nat) : option A :=
  match M !! i with
  | Some plane => at2 plane j a
  | None => None
  end.

(** The six Mueller entries of one angle, for amplitudes [s1], [s2] at
    wavelength [lj] and grain mass [mi]. *)
Definition mueller_entry (lj mi : R) (s1 s2 : C) : list R :=
  let factor := (lj / (2 * PI)) ^ 2 / mi in
  let S11 := 0.5 * (Cabs s2 ^ 2 + Cabs s1 ^ 2) in
  let S12 := 0.5 * (Cabs s2 ^ 2 - Cabs s1 ^ 2) in
  let S33 := Re (Cmult s2 (Cconj s1)) in
  let S34 := Im (Cmult s2 (Cconj s1)) in
  [S11 * factor; S12 * factor; S11 * factor;
   S33 * factor; S34 * factor; S33 * factor].

(** ** Grids *)

(** A strictly increasing grid, and an ascending one. *)
Fixpoint increasing (a : list R) : Prop :=
  match a with
  | [] => True
  | x0 :: a' =>
      match a' with
      | [] => True
      | x1 :: _ => x0 < x1 /\ increasing a'
      end
  end.

Fixpoint ascending (a : list R) : Prop :=
  match a with
  | [] => True
  | x0 :: a' =>
      match a' with
      | [] => True
      | x1 :: _ => x0 <= x1 /\ ascending a'
      end
  end.

(** The mass integral [np.trapz(N * m, x=a)] of a distribution [N] over
    the grid [a]. *)
Definition mass_integral (rho_s : R) (a dist : list R) : R :=
  np_trapz (zip_with Rmult dist (grain_mass rho_s a)) a.

(** ** Sample mixtures *)

(** A root finder that reports failure, and memory that reads as zero. *)
Definition sample_no_root : (C -> result C) -> C -> result C :=
  fun _ _ => Raise ValueError.

Definition sample_uninit : nat -> R := fun _ => 0.

(** Two identical tables mixed half and half, the first as the matrix. *)
Definition sample_pair (rule : string) (n k : R) : diel_mixed diel_const :=
  {| constants := [sample_table n k; sample_table n k];
     abundances := [0.5; 0.5];
     rule := rule;
     mixed_extrapol := false |}.


(** A root finder that answers the square of [2 + i]. *)
Definition sample_exact_root : (C -> result C) -> C -> result C :=
  fun _ _ => Ok (Cmult (2, 1) (2, 1)).



(** ** Reading the sweep's arrays *)

(** The three efficiencies stored for size [i] and wavelength [j]. *)
Definition cell3 (st : mie_arrays) (i j : nat)
  : option R * option R * option R :=
  (at2 (q_abs st) i j, at2 (q_sca st) i j, at2 (g_sca st) i j).

(** All five arrays have [r] rows and [c] columns. *)
Record arrays_ok (r c : nat) (st : mie_arrays) : Prop := {
  ok_q_abs : has_shape2 r c (q_abs st) = true;
  ok_q_sca : has_shape2 r c (q_sca st) = true;
  ok_g_sca : has_shape2 r c (g_sca st) = true;
  ok_s_1 : has_shape2 r c (s_1 st) = true;
  ok_s_2 : has_shape2 r c (s_2 st) = true
}.

(** The size parameter [2 pi / lam * a]. *)
Definition size_parameter (lam a : R) : R := 2 * PI / lam * a.

(** [enumerate] counting from [o]. *)
Definition enumerate_from {A : Type} (o : nat) (xs : list A)
  : list (nat * A) :=
  imap (fun i x => ((o + i)%nat, x)) xs.

(** The five arrays have their shape, the amplitude cells [d] angles. *)
Record arrays_full (r c d : nat) (st : mie_arrays) : Prop := {
  full_ok : arrays_ok r c st;
  full_s_1 : has_shape3 r c d (s_1 st) = true;
  full_s_2 : has_shape3 r c d (s_2 st) = true
}.

(** A Mie routine that answers zero amplitudes and fixed efficiencies. *)
Definition sample_bhmie : bhmie_t := fun _ _ nang =>
  Ok {| S1 := replicate (Z.to_nat (2 * nang - 1)) (0, 0);
        S2 := replicate (Z.to_nat (2 * nang - 1)) (0, 0);
        Qext := 3; Qabs := 1; Qsca := 2; Qback := 0; gsca := (0.5, 0) |}.

(** A solver that hands back its starting point. *)
Definition sample_fsolve : (R -> R) -> R -> R := fun _ x0 => x0.

(** The order that the sweep estimates before its loops, from the largest
    size and the shortest wavelength alone: [xstop + 15]. *)
Definition order_estimate (lam_min a_max : R) : R :=
  let xmax := size_parameter lam_min a_max in
  xmax + 4 * fpow xmax 0.333333 + 2 + 15.

(** ** [get_opacities] *)

(** The dictionary that [get_opacities] returns: the package of the sweep
    with the density, the two opacities and the two grids added. *)
Record opacities : Type := {
  op_package : package;
  op_rho_s : R;
  op_k_abs : matrix;
  op_k_sca : matrix;
  op_a : list R;
  op_lam : list R
}.

Section Opacities.

Context {T : Type} `{Dielectric T}.

Variable bhmie_function : bhmie_t.
Variable fsolve : (R -> R) -> R -> R.

(** [get_ricci_mix(extrapol=extrapol, lmax=lmax)], which builds its
    constituents from the data files shipped with the package. *)
Variable get_ricci_mix : bool -> R -> result (T * R).

(** [get_opacities(a, lam, rho_s, diel_const, bhmie_function, return_all,
    extrapol, n_angle, extrapolate_large_grains)], a keyword left at its
    default being [None]; the two notes printed for the default mixture
    are left out. *)
Definition get_opacities (a lam : list R) (rho_s : option R)
    (diel_const : option T) (return_all extrapol : bool) (n_angle : Z)
    (extrapolate_large_grains : bool) : result (opacities * list warning) :=
  if (is_none diel_const && negb (is_none rho_s))
     || (negb (is_none diel_const) && is_none rho_s)
  then Raise AssertionError
  else
    '(diel_const, rho_s) ←
      match diel_const, rho_s with
      | Some d, Some rho => Ok (d, rho)
      | _, _ => lmax ← last_item lam; get_ricci_mix extrapol lmax
      end;
    let m := grain_mass rho_s a in
    '(package, ws) ←
      get_mie_coefficients bhmie_function fsolve a lam diel_const n_angle
        true extrapolate_large_grains;
    '(kappa_abs, kappa_sca) ←
      get_kappa_from_q a m (pkg_q_abs package) (pkg_q_sca package);
    Ok ({| op_package := package; op_rho_s := rho_s;
           op_k_abs := kappa_abs; op_k_sca := kappa_sca;
           op_a := a; op_lam := lam |}, ws).

End Opacities.

(** ** [size_average_opacity] *)

(** [np.log10] where numpy would answer [nan] or [-inf]. *)
Definition flog10 (x : R) : result R :=
  if decide (x <= 0) then Raise NonFinite else Ok (log10 x).

(** What [size_average_opacity] returns without plotting: the entries
    ['ka'], ['ks'] and, for more than one wavelength, ['beta']. *)
Record size_average : Type := {
  ret_ka : matrix;
  ret_ks : matrix;
  ret_beta : option (list R)
}.

(** [[np.interp(_lam, lam, k[ia, :]) for ia in range(len(a))]]. *)
Definition interpolate_sizes (l : R) (lam : list R) (k : matrix) (n_a : nat)
  : result (list R) :=
  traverse (fun ia => match k !! ia with
                      | Some row => np_interp l lam row
                      | None => Raise IndexError
                      end) (seq 0 n_a).

(** The size distribution of pass [ia]: [s = (a / a[0])**(4 - q)], then
    [s[ia + 1:] = 1e-100] unless [ia] is the last index, then
    [s / s.sum()]. *)
Definition size_weights (a : list R) (q : R) (ia : nat)
  : result (list R) :=
  a0 ← first_item a;
  s ← traverse (fun ai => r ← fdiv ai a0; Ok (fpow r (4 - q))) a;
  let s : list R :=
    if decide (ia < length a - 1)%nat
    then imap (fun i si => if decide (ia + 1 <= i)%nat then 1e-100 else si) s
    else s in
  traverse (fun si => fdiv si (np_sum s)) s.

(** The two assignments of the inner loop, for wavelength [ilam] and
    size [ia]. *)
Definition average_cell (k_a k_s : matrix) (s : list R) (ia ilam : nat)
    (acc : matrix * matrix) : result (matrix * matrix) :=
  row_a ← match k_a !! ilam with
          | Some row => Ok row
          | None => Raise IndexError
          end;
  p_a ← broadcast Rmult row_a s;
  row_s ← match k_s !! ilam with
          | Some row => Ok row
          | None => Raise IndexError
          end;
  p_s ← broadcast Rmult row_s s;
  Ok (set2 (fst acc) ilam ia (np_sum p_a),
      set2 (snd acc) ilam ia (np_sum p_s)).

(** [size_average_opacity(lam_avg, a, lam, k_abs, k_sca, q, plot=False)]
    for [lam_avg] as the array that [np.array(lam_avg, ndmin=1)] makes of
    it; the plotting branch is not followed. *)
Definition size_average_opacity (lam_avg a lam : list R)
    (k_abs k_sca : matrix) (q : R) : result size_average :=
  let calc_beta := bool_decide (1 < length lam_avg)%nat in
  rows ← traverse
    (fun l =>
       ra ← interpolate_sizes l lam k_abs (length a);
       rs ← interpolate_sizes l lam k_sca (length a);
       Ok (ra, rs)) lam_avg;
  let k_a : matrix := fst <$> rows in
  let k_s : matrix := snd <$> rows in
  let zeros := np_zeros2 (length lam_avg) (length a) in
  '(ka, ks) ← for_each
    (fun ia acc =>
       s ← size_weights a q ia;
       for_each (average_cell k_a k_s s ia) (seq 0 (length lam_avg)) acc)
    (seq 0 (length a)) (zeros, zeros);
  beta ←
    (if calc_beta then
       ka_last ← match last ka with
                 | Some row => Ok row
                 | None => Raise IndexError
                 end;
       ka_first ← match head ka with
                  | Some row => Ok row
                  | None => Raise IndexError
                  end;
       ratio ← broadcast fdiv ka_last ka_first;
       logs ← traverse (fun r : result R => x ← r; flog10 x) ratio;
       l_last ← last_item lam_avg;
       l_first ← first_item lam_avg;
       r ← fdiv l_last l_first;
       d ← flog10 r;
       beta ← traverse (fun lg => fdiv (- lg) d) logs;
       Ok (Some beta)
     else Ok None);
  Ok {| ret_ka := ka; ret_ks := ks; ret_beta := beta |}.

(** * Properties *)

(** ** The error monad *)

Lemma bind_Ok {A B : Type} (r : result A) (f : A -> result B) (b : B) :
  r ≫= f = Ok b -> exists a, r = Ok a /\ f a = Ok b.
Proof. destruct r as [a|e]; simpl; [eauto | discriminate]. Qed.

Lemma Ok_bind {A B : Type} (a : A) (f : A -> result B) : Ok a ≫= f = f a.
Proof. reflexivity. Qed.

Ltac bind_inv H :=
  let a := fresh "v" in
  let Ha := fresh "Hv" in
  apply bind_Ok in H; destruct H as (a & Ha & H).

Lemma traverse_length {A B : Type} (f : A -> result B) xs ys :
  traverse f xs = Ok ys -> length ys = length xs.
Proof.
  revert ys; induction xs as [|x xs IH]; intros ys Hys; simpl in Hys.
  - by inversion Hys.
  - bind_inv Hys. bind_inv Hys. inversion Hys; subst; simpl.
    f_equal. by apply IH.
Qed.

Lemma traverse_lookup {A B : Type} (f : A -> result B) xs ys i x :
  traverse f xs = Ok ys -> xs !! i = Some x ->
  exists y, ys !! i = Some y /\ f x = Ok y.
Proof.
  revert ys i; induction xs as [|x0 xs IH]; intros ys i Hys Hx.
  - by rewrite lookup_nil in Hx.
  - simpl in Hys. bind_inv Hys. bind_inv Hys. inversion Hys; subst.
    destruct i as [|i]; simpl in *.
    + inversion Hx; subst. eauto.
    + eauto.
Qed.

Lemma traverse_Ok {A B : Type} (f : A -> result B) (g : A -> B) xs :
  (forall x, x ∈ xs -> f x = Ok (g x)) -> traverse f xs = Ok (g <$> xs).
Proof.
  induction xs as [|x xs IH]; intros Hf; simpl; [done|].
  rewrite Hf by left. simpl. rewrite IH; [done|].
  intros y Hy. apply Hf. by right.
Qed.

(** ** DielectricModel *)

Lemma np_interp_Ok x xp fp :
  xp <> [] -> length fp = length xp ->
  np_interp x xp fp = Ok (piecewise_linear x xp fp).
Proof.
  intros Hne Hlen. destruct xp as [|x0 xp]; [done|].
  destruct fp as [|f0 fp]; [done|].
  unfold np_interp, piecewise_linear.
  rewrite decide_True by done. done.
Qed.

Lemma diel_const_init_ok lam n k self :
  diel_const_init lam n k = Ok self ->
  length n = length lam -> length k = length lam ->
  table_ok self.
Proof.
  intros Hinit Hn Hk. unfold diel_const_init in Hinit.
  bind_inv Hinit. bind_inv Hinit. inversion Hinit; subst; clear Hinit.
  split; simpl; try done.
  intros ->. discriminate.
Qed.

(** C2.  A query strictly below the stored minimum or strictly above the
    stored maximum makes [diel_const.nk] raise the out-of-range error,
    whatever the table holds: no value is returned, clamped or
    extrapolated. *)
Theorem nk_outside_range_raises (self : diel_const) (l : R) :
  l < _lmin self \/ l > _lmax self ->
  nk self l = Raise OutOfRange.
Proof.
  intros Hout. unfold nk. by rewrite decide_True.
Qed.

Lemma nk_outside_range_raises_witness :
  (0 < _lmin (sample_table 2 1) \/ 0 > _lmax (sample_table 2 1))
  /\ nk (sample_table 2 1) 0 = Raise OutOfRange.
Proof.
  assert (Hout : 0 < _lmin (sample_table 2 1) \/ 0 > _lmax (sample_table 2 1))
    by (left; simpl; lra).
  split; [exact Hout | exact (nk_outside_range_raises _ _ Hout)].
Defined.

Lemma ln_10_pos : 0 < ln 10.
Proof. rewrite <- ln_1. apply ln_increasing; lra. Qed.

Lemma pow10_log10 (x : R) : 0 < x -> pow10 (log10 x) = x.
Proof.
  intros Hx. unfold pow10, log10, Rpower.
  replace (ln x / ln 10 * ln 10) with (ln x).
  - by apply exp_ln.
  - field. pose proof ln_10_pos. lra.
Qed.

Lemma pow10_pos (x : R) : 0 < pow10 x.
Proof. apply exp_pos. Qed.

Lemma log10_increasing (x y : R) : 0 < x -> x < y -> log10 x < log10 y.
Proof.
  intros Hx Hxy. unfold log10. pose proof ln_10_pos.
  apply Rmult_lt_compat_r; [by apply Rinv_0_lt_compat|].
  by apply ln_increasing.
Qed.

Lemma np_log10_pos (x : R) : 0 < x -> np_log10 x = Fin (log10 x).
Proof. intros Hx. unfold np_log10. by rewrite decide_True. Qed.

Lemma np_interp_float_Ok x xp fp :
  xp <> [] -> length fp = length xp ->
  np_interp_float x xp fp = Ok (interp_float x xp fp).
Proof.
  intros Hne Hlen. destruct xp as [|x0 xp]; [done|].
  destruct fp as [|f0 fp]; [done|].
  unfold np_interp_float, interp_float.
  rewrite decide_True by done. done.
Qed.

(** Between finite samples on distinct points a segment is the straight
    line of exact arithmetic. *)
Lemma interp_segment_finite (x x0 x1 f0 f1 : R) :
  x0 <> x1 ->
  interp_segment x x0 x1 f0 f1
  = Fin ((f1 - f0) / (x1 - x0) * (x - x0) + f0).
Proof.
  intros Hne. unfold interp_segment. cbn [float_sub float_opp float_add].
  unfold float_div. rewrite decide_False by lra.
  cbn [float_mul float_add is_nan]. reflexivity.
Qed.

Lemma interp_float_flat (x x0 x1 f : R) :
  x0 < x1 -> interp_float (Fin x) [Fin x0; Fin x1] [Fin f; Fin f] = Fin f.
Proof.
  intros Hlt. unfold interp_float. simpl.
  repeat case_bool_decide; try done.
  rewrite interp_segment_finite by lra. f_equal. unfold Rdiv. ring.
Qed.

Lemma piecewise_linear_flat (x x0 x1 f : R) :
  piecewise_linear x [x0; x1] [f; f] = f.
Proof.
  unfold piecewise_linear. simpl.
  repeat case_decide; try done. unfold Rdiv. ring.
Qed.

Lemma any_nonpositive_pair (n : R) :
  any_nonpositive [n; n] = bool_decide (n <= 0).
Proof.
  unfold any_nonpositive. simpl. by destruct (bool_decide (n <= 0)).
Qed.

(** The sample table answers its constant index anywhere in its range:
    through the logarithms when [n] is positive, through the linear
    estimate when it is negative. *)
Lemma nk_sample_table (n k l : R) :
  n <> 0 -> 0 < k -> 1 <= l <= 10 ->
  nk (sample_table n k) l = Ok (n, k).
Proof.
  intros Hn Hk Hl. unfold nk, sample_table.
  cbn [_l _n _k _ll _ln _lk _lmin _lmax _has_negative_n].
  rewrite decide_False by (intros [?|?]; lra).
  rewrite !np_interp_Ok by done.
  rewrite !np_interp_float_Ok by done.
  rewrite !fmap_cons, !fmap_nil.
  rewrite (np_log10_pos 1), (np_log10_pos 10), (np_log10_pos l),
    (np_log10_pos k) by lra.
  assert (Hgrid : log10 1 < log10 10) by (apply log10_increasing; lra).
  rewrite (interp_float_flat _ _ _ (log10 k)) by done.
  rewrite !piecewise_linear_flat, any_nonpositive_pair.
  case_bool_decide.
  - rewrite !Ok_bind, decide_True by lra.
    cbn [float_pow10]. by rewrite pow10_log10.
  - rewrite (np_log10_pos n), interp_float_flat by (done || lra).
    rewrite !Ok_bind. cbn [float_pow10]. by rewrite !pow10_log10 by lra.
Qed.

(** ** EffectiveMediumMixer *)

Section MixerFacts.

Context {T : Type} `{Dielectric T}.
Variable findroot : (C -> result C) -> C -> result C.
Variable uninit : nat -> R.

Lemma nk_mixed_cons (self : diel_mixed T) (l0 : R) (rest : list R) :
  nk_mixed findroot uninit self (l0 :: rest)
  = first_pass findroot uninit self l0 (S (length rest)).
Proof.
  unfold nk_mixed, first_pass, enumerate, np_empty_complex.
  simpl. rewrite Nat.sub_0_r.
  by destruct (eps_mean_at findroot self l0) as [[x|]|e].
Qed.

End MixerFacts.

Section MixerLoop.

Context {T : Type} `{Dielectric T}.
Variable findroot : (C -> result C) -> C -> result C.
Variable uninit : nat -> R.

(** C9.  Called with two or more wavelengths, [diel_mixed.nk] returns
    from inside the first pass of its loop: the answer is built from the
    mixed permittivity at the first wavelength and, in every later slot,
    from the uninitialised content of [eps_mean]; the later wavelengths
    are never looked at, so replacing them by any others changes
    nothing. *)
Theorem nk_mixed_array_returns_in_first_pass (self : diel_mixed T)
    (l0 l1 : R) (rest : list R) :
  nk_mixed findroot uninit self (l0 :: l1 :: rest)
  = first_pass findroot uninit self l0 (2 + length rest)
  /\ forall g : R -> R,
      nk_mixed findroot uninit self (l0 :: g l1 :: (g <$> rest))
      = nk_mixed findroot uninit self (l0 :: l1 :: rest).
Proof.
  split.
  - apply nk_mixed_cons.
  - intros g. rewrite !nk_mixed_cons. simpl. by rewrite length_fmap.
Qed.

End MixerLoop.

(** ** OpacityAggregator: the assertion on [diel_const] *)

(** C10.  Without a dielectric object ([diel_const=None]) the call ends in
    the assertion failure of its first statement, whichever of [q_abs],
    [q_sca], [k_abs], [k_sca] are supplied: no input makes it succeed. *)
Theorem get_size_averaged_opacity_requires_diel_const
    {T : Type} `{Dielectric T} (bhmie_function : bhmie_t)
    (fsolve : (R -> R) -> R -> R) (a lam n : list R) (rho_s : R)
    (q_abs q_sca k_abs k_sca : option matrix) :
  get_size_averaged_opacity bhmie_function fsolve a lam n rho_s
    (None : option T) q_abs q_sca k_abs k_sca
  = Raise AssertionError.
Proof. reflexivity. Qed.

(** ** Shapes and lookups of nested arrays *)

Lemma has_shape2_spec {A : Type} (r c : nat) (M : list (list A)) :
  has_shape2 r c M = true <->
  length M = r /\ forall i row, M !! i = Some row -> length row = c.
Proof.
  unfold has_shape2. rewrite andb_true_iff, bool_decide_eq_true.
  rewrite forallb_forall. split; intros [Hlen Hrows]; split; try done.
  - intros i row Hrow. eapply bool_decide_eq_true_1, Hrows.
    apply list_elem_of_In. by eapply list_elem_of_lookup_2.
  - intros row Hin. apply bool_decide_eq_true_2.
    apply list_elem_of_In, list_elem_of_lookup_1 in Hin as [i Hi]. eauto.
Qed.

Lemma has_shape3_spec {A : Type} (r c d : nat) (M : cube A) :
  has_shape3 r c d M = true <->
  length M = r /\
  forall i plane, M !! i = Some plane -> has_shape2 c d plane = true.
Proof.
  unfold has_shape3. rewrite andb_true_iff, bool_decide_eq_true.
  rewrite forallb_forall. split; intros [Hlen Hrows]; split; try done.
  - intros i row Hrow. apply Hrows.
    apply list_elem_of_In. by eapply list_elem_of_lookup_2.
  - intros row Hin.
    apply list_elem_of_In, list_elem_of_lookup_1 in Hin as [i Hi]. eauto.
Qed.

Lemma has_shape3_at3 {A : Type} (r c d : nat) (M : cube A) i j a :
  has_shape3 r c d M = true ->
  (i < r)%nat -> (j < c)%nat -> (a < d)%nat ->
  is_Some (at3 M i j a).
Proof.
  intros [Hr Hplanes]%has_shape3_spec Hi Hj Ha. unfold at3, at2.
  destruct (lookup_lt_is_Some_2 M i) as [plane Hplane]; [lia|].
  apply Hplanes in Hplane as Hshape.
  apply has_shape2_spec in Hshape as [Hc Hcells].
  destruct (lookup_lt_is_Some_2 plane j) as [cell Hcell]; [lia|].
  apply Hcells in Hcell as Hd.
  destruct (lookup_lt_is_Some_2 cell a) as [x Hx]; [lia|].
  rewrite Hplane, Hcell. eauto.
Qed.

Lemma has_shape3_shape_last {A : Type} (r c d : nat) (M : cube A) :
  has_shape3 r c d M = true -> has_shape3 r c (shape_last M) M = true.
Proof.
  intros Hshape. pose proof Hshape as [Hr Hplanes]%has_shape3_spec.
  destruct M as [|plane M]; [done|].
  pose proof (Hplanes 0%nat plane eq_refl) as [Hc Hcells]%has_shape2_spec.
  destruct plane as [|cell plane]; simpl.
  - apply has_shape3_spec. split; [done|].
    intros i p Hp. apply Hplanes in Hp as [Hpc _]%has_shape2_spec.
    apply has_shape2_spec. split; [done|].
    intros j row Hrow. apply lookup_lt_Some in Hrow. simpl in *. lia.
  - pose proof (Hcells 0%nat cell eq_refl) as ->. done.
Qed.

Lemma zip_with_at2 {A B D : Type} (op : A -> B -> D) (X : list (list A))
    (Y : list (list B)) i j :
  at2 (zip_with (zip_with op) X Y) i j
  = x ← at2 X i j; y ← at2 Y i j; Some (op x y).
Proof.
  unfold at2. rewrite lookup_zip_with.
  destruct (X !! i) as [rx|]; simpl; [|done].
  destruct (Y !! i) as [ry|]; simpl.
  - by rewrite lookup_zip_with.
  - by destruct (rx !! j).
Qed.

Lemma zip3_at3 {A B D : Type} (op : A -> B -> D) (X : cube A) (Y : cube B)
    i j a :
  at3 (zip3 op X Y) i j a
  = x ← at3 X i j a; y ← at3 Y i j a; Some (op x y).
Proof.
  unfold at3, zip3. rewrite lookup_zip_with.
  destruct (X !! i) as [px|]; simpl; [|done].
  destruct (Y !! i) as [py|]; simpl.
  - apply zip_with_at2.
  - by destruct (at2 px j a).
Qed.

Lemma assign_component_at3 c vals factor zscat i j a :
  at3 (assign_component c vals factor zscat) i j a
  = f ← at2 factor i j; v ← at3 vals i j a; z ← at3 zscat i j a;
    Some (<[c := v * f]> z).
Proof.
  unfold assign_component.
  pose proof (zip3_at3 pair vals zscat i j a) as Hzip.
  unfold at3, at2 in *. rewrite lookup_zip_with.
  destruct (factor !! i) as [frow|]; simpl; [|done].
  destruct (zip3 pair vals zscat !! i) as [plane|]; simpl in *.
  - rewrite lookup_zip_with.
    destruct (frow !! j) as [f|]; simpl; [|done].
    destruct (plane !! j) as [cell|]; simpl in *.
    + rewrite list_lookup_fmap, Hzip. clear Hzip.
      destruct (vals !! i) as [pv|]; simpl; [|done].
      destruct (pv !! j) as [cv|]; simpl; [|done].
      destruct (cv !! a) as [v|]; simpl; [|done].
      destruct (zscat !! i) as [pz|]; simpl; [|done].
      destruct (pz !! j) as [cz|]; simpl; [|done].
      by destruct (cz !! a).
    + destruct (vals !! i) as [pv|]; simpl in *; [|done].
      destruct (pv !! j) as [cv|]; simpl in *; [|done].
      destruct (cv !! a) as [v|]; simpl in *; [|done].
      destruct (zscat !! i) as [pz|]; simpl in *; [|done].
      destruct (pz !! j) as [cz|]; simpl in *; [|done].
      by destruct (cz !! a).
  - destruct (frow !! j) as [f|]; simpl; [|done].
    destruct (vals !! i) as [pv|]; simpl in *; [|done].
    destruct (pv !! j) as [cv|]; simpl in *; [|done].
    destruct (cv !! a) as [v|]; simpl in *; [|done].
    destruct (zscat !! i) as [pz|]; simpl in *; [|done].
    destruct (pz !! j) as [cz|]; simpl in *; [|done].
    by destruct (cz !! a).
Qed.

Lemma replicate3_at3 {A : Type} (r c d : nat) (x : A) i j a :
  (i < r)%nat -> (j < c)%nat -> (a < d)%nat ->
  at3 (replicate r (replicate c (replicate d x))) i j a = Some x.
Proof.
  intros Hi Hj Ha. unfold at3, at2.
  rewrite lookup_replicate_2 by done.
  rewrite lookup_replicate_2 by done.
  by rewrite lookup_replicate_2.
Qed.

Lemma has_shape2_zip_with {A B D : Type} (op : list A -> list B -> list D)
    (r c : nat) (X : list (list A)) (Y : list (list B)) :
  (forall x y, length x = c -> length y = c -> length (op x y) = c) ->
  has_shape2 r c X = true -> has_shape2 r c Y = true ->
  has_shape2 r c (zip_with op X Y) = true.
Proof.
  intros Hop [HX HXrows]%has_shape2_spec [HY HYrows]%has_shape2_spec.
  apply has_shape2_spec. split.
  - rewrite length_zip_with. lia.
  - intros i row (x & y & -> & Hx & Hy)%lookup_zip_with_Some. eauto.
Qed.

Lemma has_shape3_zip_with {A B D : Type}
    (op : list (list A) -> list (list B) -> list (list D))
    (r c d : nat) (X : cube A) (Y : cube B) :
  (forall x y, has_shape2 c d x = true -> has_shape2 c d y = true ->
               has_shape2 c d (op x y) = true) ->
  has_shape3 r c d X = true -> has_shape3 r c d Y = true ->
  has_shape3 r c d (zip_with op X Y) = true.
Proof.
  intros Hop [HX HXrows]%has_shape3_spec [HY HYrows]%has_shape3_spec.
  apply has_shape3_spec. split.
  - rewrite length_zip_with. lia.
  - intros i row (x & y & -> & Hx & Hy)%lookup_zip_with_Some. eauto.
Qed.

Lemma has_shape3_zip3 {A B D : Type} (op : A -> B -> D) (r c d : nat)
    (X : cube A) (Y : cube B) :
  has_shape3 r c d X = true -> has_shape3 r c d Y = true ->
  has_shape3 r c d (zip3 op X Y) = true.
Proof.
  apply has_shape3_zip_with. intros x y.
  apply has_shape2_zip_with. intros u v Hu Hv.
  rewrite length_zip_with. lia.
Qed.

Lemma has_shape3_assign_component k vals factor zscat (r c d : nat) :
  has_shape2 r c factor = true ->
  has_shape3 r c d vals = true -> has_shape3 r c d zscat = true ->
  has_shape3 r c d (assign_component k vals factor zscat) = true.
Proof.
  intros [Hf Hfrows]%has_shape2_spec Hvals Hz.
  pose proof (has_shape3_zip3 pair r c d vals zscat Hvals Hz)
    as [Hl Hplanes]%has_shape3_spec.
  apply has_shape3_spec. split.
  - unfold assign_component. rewrite length_zip_with. lia.
  - intros i plane (frow & p & -> & Hfrow & Hp)%lookup_zip_with_Some.
    apply Hplanes in Hp as [Hpl Hcells]%has_shape2_spec.
    apply has_shape2_spec. split.
    + rewrite length_zip_with. apply Hfrows in Hfrow. lia.
    + intros j cell (f & cl & -> & _ & Hcl)%lookup_zip_with_Some.
      rewrite length_fmap. eauto.
Qed.

Lemma has_shape3_replicate {A : Type} (r c d : nat) (x : A) :
  has_shape3 r c d (replicate r (replicate c (replicate d x))) = true.
Proof.
  apply has_shape3_spec. split; [by rewrite length_replicate|].
  intros i plane [-> _]%lookup_replicate_1.
  apply has_shape2_spec. split; [by rewrite length_replicate|].
  intros j cell [-> _]%lookup_replicate_1. by rewrite length_replicate.
Qed.

(** A shape with an empty axis in front does not fix the last axis. *)
Lemma has_shape3_last_axis {A : Type} (r c d : nat) (M : cube A) :
  has_shape3 r c d M = true -> r = 0%nat \/ c = 0%nat \/ shape_last M = d.
Proof.
  intros [Hr Hplanes]%has_shape3_spec.
  destruct M as [|plane M]; [left; done|].
  pose proof (Hplanes 0%nat plane eq_refl) as [Hc Hcells]%has_shape2_spec.
  destruct plane as [|cell plane]; [right; left; done|].
  right; right. simpl. exact (Hcells 0%nat cell eq_refl).
Qed.

Lemma has_shape3_empty_axis {A : Type} (r c d d' : nat) (M : cube A) :
  r = 0%nat \/ c = 0%nat ->
  has_shape3 r c d M = true -> has_shape3 r c d' M = true.
Proof.
  intros Hempty [Hr Hplanes]%has_shape3_spec.
  apply has_shape3_spec. split; [done|].
  intros i plane Hi. pose proof (lookup_lt_Some _ _ _ Hi) as Hlt.
  apply Hplanes in Hi as [Hc Hcells]%has_shape2_spec.
  apply has_shape2_spec. split; [done|].
  intros j cell Hj. apply lookup_lt_Some in Hj. lia.
Qed.

(** The conversion factor [(lam / (2 pi))**2 / m] as the source tabulates
    it, one row per mass. *)
Lemma mueller_factor lam m :
  Forall (fun mi => mi <> 0) m ->
  exists factor,
    traverse (fun mi =>
                traverse (fun lj => fdiv ((lj / (2 * PI)) ^ 2) mi) lam) m
    = Ok factor
    /\ has_shape2 (length m) (length lam) factor = true
    /\ forall i j mi lj, m !! i = Some mi -> lam !! j = Some lj ->
         at2 factor i j = Some ((lj / (2 * PI)) ^ 2 / mi).
Proof.
  intros Hm.
  exists ((fun mi => (fun lj => (lj / (2 * PI)) ^ 2 / mi) <$> lam) <$> m).
  split; [|split].
  - apply traverse_Ok. intros mi Hmi.
    apply traverse_Ok. intros lj _. unfold fdiv.
    rewrite decide_False; [done|].
    rewrite Forall_forall in Hm. by apply Hm.
  - apply has_shape2_spec. split; [by rewrite length_fmap|].
    intros i row Hrow. rewrite list_lookup_fmap in Hrow.
    destruct (m !! i); simpl in Hrow; [|done].
    inversion Hrow. by rewrite length_fmap.
  - intros i j mi lj Hi Hj. unfold at2.
    rewrite list_lookup_fmap, Hi. simpl.
    by rewrite list_lookup_fmap, Hj.
Qed.

(** C7.  For amplitudes [S1], [S2] of shape (masses, wavelengths, angles)
    and non-zero masses, [calculate_mueller_matrix] returns an array of the
    same three leading dimensions whose entry at mass [i], wavelength [j]
    and angle [a] is the six-element list [S11, S12, S11, S33, S34, S33]
    times [(lam_j / (2 pi))^2 / m_i], with [S11 = 0.5 (|S2|^2 + |S1|^2)],
    [S12 = 0.5 (|S2|^2 - |S1|^2)], [S33 = Re (S2 conj S1)] and
    [S34 = Im (S2 conj S1)]. *)
Theorem mueller_matrix_entries (lam m : list R) (S1 S2 : cube C)
    (nangles : nat) :
  has_shape3 (length m) (length lam) nangles S1 = true ->
  has_shape3 (length m) (length lam) nangles S2 = true ->
  Forall (fun mi => mi <> 0) m ->
  exists zscat,
    calculate_mueller_matrix lam m S1 S2 = Ok zscat
    /\ has_shape3 (length m) (length lam) nangles zscat = true
    /\ forall i j a mi lj s1 s2,
         m !! i = Some mi -> lam !! j = Some lj ->
         at3 S1 i j a = Some s1 -> at3 S2 i j a = Some s2 ->
         at3 zscat i j a = Some (mueller_entry lj mi s1 s2).
Proof.
  intros HS1 HS2 Hm.
  destruct (mueller_factor lam m Hm) as (factor & Hfac & Hfshape & Hfat).
  unfold calculate_mueller_matrix. rewrite Hfac. simpl.
  set (d := shape_last S1).
  assert (HS1d : has_shape3 (length m) (length lam) d S1 = true)
    by (eapply has_shape3_shape_last; eauto).
  assert (HS2d : has_shape3 (length m) (length lam) d S2 = true).
  { destruct (has_shape3_last_axis _ _ _ _ HS1) as [Hz|[Hz|Hd]].
    - eapply has_shape3_empty_axis; eauto.
    - eapply has_shape3_empty_axis; eauto.
    - unfold d. by rewrite Hd. }
  rewrite HS1d, HS2d. simpl.
  eexists. split; [reflexivity|]. split.
  - match goal with
    | |- has_shape3 _ _ _ ?Z = true =>
        assert (Hd : has_shape3 (length m) (length lam) d Z = true)
    end.
    { repeat (apply has_shape3_assign_component;
              [done | by apply has_shape3_zip3 |]).
      apply has_shape3_replicate. }
    destruct (has_shape3_last_axis _ _ _ _ HS1) as [Hz|[Hz|Hd']].
    + eapply has_shape3_empty_axis; eauto.
    + eapply has_shape3_empty_axis; eauto.
    + fold d in Hd'. by rewrite <- Hd'.
  - intros i j a mi lj s1 s2 Hi Hj Hs1 Hs2.
    assert (Ha : (a < d)%nat).
    { apply has_shape3_spec in HS1d as [_ Hplanes].
      unfold at3, at2 in Hs1.
      destruct (S1 !! i) as [plane|] eqn:Hplane; [|done].
      apply Hplanes in Hplane as [_ Hcells]%has_shape2_spec.
      destruct (plane !! j) as [cell|] eqn:Hcell; [|done].
      apply Hcells in Hcell as <-. by eapply lookup_lt_Some. }
    apply lookup_lt_Some in Hi as Hilt. apply lookup_lt_Some in Hj as Hjlt.
    rewrite !assign_component_at3, !zip3_at3, Hs1, Hs2.
    rewrite (Hfat i j mi lj Hi Hj).
    rewrite replicate3_at3 by done.
    reflexivity.
Qed.

Lemma mueller_matrix_entries_witness :
  exists zscat,
    calculate_mueller_matrix [1] [1] [[[(1, 0)]]] [[[(0, 1)]]] = Ok zscat
    /\ has_shape3 1 1 1 zscat = true
    /\ forall i j a mi lj s1 s2,
         [1] !! i = Some mi -> [1] !! j = Some lj ->
         at3 [[[(1, 0)]]] i j a = Some s1 ->
         at3 [[[(0, 1)]]] i j a = Some s2 ->
         at3 zscat i j a = Some (mueller_entry lj mi s1 s2).
Proof.
  apply (mueller_matrix_entries [1] [1] [[[(1, 0)]]] [[[(0, 1)]]] 1).
  - reflexivity.
  - reflexivity.
  - repeat constructor. lra.
Defined.

(** ** Extending a table *)

Lemma foldl_Rmin_spec (x : R) (xs : list R) :
  foldl Rmin x xs ∈ x :: xs
  /\ forall y, y ∈ x :: xs -> foldl Rmin x xs <= y.
Proof.
  revert x; induction xs as [|z xs IH]; intros x; simpl.
  - split; [left|]. intros y ->%list_elem_of_singleton. lra.
  - destruct (IH (Rmin x z)) as [Hin Hle]. split.
    + apply elem_of_cons in Hin as [Heq|Hin].
      * rewrite Heq. unfold Rmin. destruct (Rle_dec x z); [left|right; left].
      * right; by right.
    + intros y Hy.
      assert (Hm : foldl Rmin (Rmin x z) xs <= Rmin x z) by (apply Hle; left).
      apply elem_of_cons in Hy as [->|Hy].
      * pose proof (Rmin_l x z). lra.
      * apply elem_of_cons in Hy as [->|Hy].
        -- pose proof (Rmin_r x z). lra.
        -- apply Hle. by right.
Qed.

Lemma foldl_Rmax_spec (x : R) (xs : list R) :
  foldl Rmax x xs ∈ x :: xs
  /\ forall y, y ∈ x :: xs -> y <= foldl Rmax x xs.
Proof.
  revert x; induction xs as [|z xs IH]; intros x; simpl.
  - split; [left|]. intros y ->%list_elem_of_singleton. lra.
  - destruct (IH (Rmax x z)) as [Hin Hle]. split.
    + apply elem_of_cons in Hin as [Heq|Hin].
      * rewrite Heq. unfold Rmax. destruct (Rle_dec x z); [right; left|left].
      * right; by right.
    + intros y Hy.
      assert (Hm : Rmax x z <= foldl Rmax (Rmax x z) xs) by (apply Hle; left).
      apply elem_of_cons in Hy as [->|Hy].
      * pose proof (Rmax_l x z). lra.
      * apply elem_of_cons in Hy as [->|Hy].
        -- pose proof (Rmax_r x z). lra.
        -- apply Hle. by right.
Qed.

(** [arr.min()] and [arr.max()] are entries of the array that bound all
    the others. *)
Lemma np_min_spec (xs : list R) (v : R) :
  np_min xs = Ok v -> v ∈ xs /\ forall y, y ∈ xs -> v <= y.
Proof.
  destruct xs as [|x xs]; simpl; [done|].
  intros [= <-]. apply foldl_Rmin_spec.
Qed.

Lemma np_max_spec (xs : list R) (v : R) :
  np_max xs = Ok v -> v ∈ xs /\ forall y, y ∈ xs -> y <= v.
Proof.
  destruct xs as [|x xs]; simpl; [done|].
  intros [= <-]. apply foldl_Rmax_spec.
Qed.

Lemma np_min_Ok (xs : list R) : xs <> [] -> exists v, np_min xs = Ok v.
Proof. destruct xs; [done|]. simpl. eauto. Qed.

Lemma np_max_Ok (xs : list R) : xs <> [] -> exists v, np_max xs = Ok v.
Proof. destruct xs; [done|]. simpl. eauto. Qed.

Lemma np_linspace_length start stop num y :
  np_linspace start stop num = Ok y -> length y = Z.to_nat num.
Proof.
  unfold np_linspace. case_decide; [done|]. intros [= <-].
  case_decide; rewrite ?length_insert, length_fmap, length_seq; done.
Qed.

Lemma np_linspace_last start stop num y :
  (2 <= num)%Z -> np_linspace start stop num = Ok y -> last y = Some stop.
Proof.
  intros Hnum. unfold np_linspace. case_decide; [lia|]. intros [= <-].
  rewrite decide_True by lia.
  rewrite last_lookup, length_insert, length_fmap, length_seq.
  replace (Nat.pred (Z.to_nat num)) with (Z.to_nat num - 1)%nat by lia.
  apply list_lookup_insert_eq. rewrite length_fmap, length_seq. lia.
Qed.

Lemma np_linspace_head start stop num y :
  (2 <= num)%Z -> np_linspace start stop num = Ok y -> head y = Some start.
Proof.
  intros Hnum. unfold np_linspace. case_decide; [lia|]. intros [= <-].
  rewrite decide_True by lia.
  destruct (Z.to_nat num) as [|[|n]] eqn:Hn; [lia|lia|].
  simpl. f_equal. ring.
Qed.

Lemma np_logspace_inv start stop num grid :
  np_logspace start stop num = Ok grid ->
  exists y, np_linspace start stop num = Ok y /\ grid = pow10 <$> y.
Proof.
  unfold np_logspace. intros Hg. bind_inv Hg. inversion Hg. eauto.
Qed.

Lemma np_logspace_length start stop num grid :
  np_logspace start stop num = Ok grid -> length grid = Z.to_nat num.
Proof.
  intros (y & Hy & ->)%np_logspace_inv. rewrite length_fmap.
  by eapply np_linspace_length.
Qed.

Lemma last_drop_1 {A : Type} (l : list A) :
  (2 <= length l)%nat -> last (drop 1 l) = last l.
Proof.
  destruct l as [|x [|y l]]; simpl; intros Hlen; try lia. done.
Qed.

Lemma head_take {A : Type} (l : list A) (n : nat) :
  (1 <= n)%nat -> head (take n l) = head l.
Proof. destruct l, n; simpl; intros; try lia; done. Qed.

Section ExtrapolationFacts.

Variable curve_fit : curve_fit_t.

Lemma fit_and_extend_length f l_fit y_fit p0 l_ext y :
  f = f_second \/ f = f_first ->
  fit_and_extend curve_fit f l_fit y_fit p0 l_ext = Ok y ->
  length y = length l_ext.
Proof.
  intros Hf Hy. unfold fit_and_extend in Hy.
  bind_inv Hy. bind_inv Hy. inversion Hy; subst y; clear Hy.
  rewrite length_fmap.
  destruct Hf as [-> | ->]; unfold f_second, f_first in Hv0;
    repeat (destruct v as [|? v]; try discriminate);
    inversion Hv0; by rewrite !length_fmap.
Qed.

(** The fitted model and its starting points, whatever the direction. *)
Lemma model_choice (kind : string) (y0 : result R) (z0 : result R)
    (s : R) f p0_n p0_k :
  (if decide (kind = "second") then
     n0 ← y0; k0 ← z0;
     Ok (f_second, [log10 n0; s; 0], [log10 k0; s; 0])
   else if decide (kind = "first" ∨ kind = "linear") then
     n0 ← y0; k0 ← z0;
     Ok (f_first, [log10 n0; 1], [log10 k0; 1])
   else Raise ValueError) = Ok (f, p0_n, p0_k) ->
  f = f_second \/ f = f_first.
Proof.
  intros Hm. repeat case_decide; try discriminate;
    bind_inv Hm; bind_inv Hm; inversion Hm; auto.
Qed.

Lemma samples_up_spec self lmin lmax n kind l_ext n_ext k_ext :
  samples_up curve_fit self lmin lmax n kind = Ok (l_ext, n_ext, k_ext) ->
  length l_ext = (Z.to_nat n - 1)%nat
  /\ length n_ext = length l_ext
  /\ length k_ext = length l_ext
  /\ ((2 <= n)%Z -> 0 < lmax -> last l_ext = Some lmax).
Proof.
  intros Hs. unfold samples_up in Hs.
  bind_inv Hs. bind_inv Hs. rename v0 into grid.
  assert (Hlen : length (drop 1 grid) = (Z.to_nat n - 1)%nat).
  { rewrite length_drop. apply np_logspace_length in Hv0. lia. }
  assert (Hlast : (2 <= n)%Z -> 0 < lmax -> last (drop 1 grid) = Some lmax).
  { intros Hn Hlmax.
    pose proof (np_logspace_length _ _ _ _ Hv0) as Hg.
    rewrite last_drop_1 by lia.
    apply np_logspace_inv in Hv0 as (y & Hy & ->).
    rewrite fmap_last, (np_linspace_last _ _ _ _ Hn Hy). simpl.
    by rewrite pow10_log10. }
  case_decide.
  - bind_inv Hs. bind_inv Hs. inversion Hs; subst; clear Hs.
    by rewrite !length_fmap.
  - bind_inv Hs. destruct v0 as [[f p0_n] p0_k].
    apply model_choice in Hv1 as Hf.
    bind_inv Hs. bind_inv Hs. bind_inv Hs.
    inversion Hs; subst; clear Hs.
    rewrite (fit_and_extend_length _ _ _ _ _ _ Hf Hv3).
    rewrite (fit_and_extend_length _ _ _ _ _ _ Hf Hv4). done.
Qed.

Lemma samples_down_spec self lmin lmax n kind l_ext n_ext k_ext :
  samples_down curve_fit self lmin lmax n kind = Ok (l_ext, n_ext, k_ext) ->
  length l_ext = (Z.to_nat n - 1)%nat
  /\ length n_ext = length l_ext
  /\ length k_ext = length l_ext
  /\ ((2 <= n)%Z -> 0 < lmin -> head l_ext = Some lmin).
Proof.
  intros Hs. unfold samples_down in Hs.
  bind_inv Hs. bind_inv Hs. rename v0 into grid.
  pose proof (np_logspace_length _ _ _ _ Hv0) as Hg.
  assert (Hlen : length (take (length grid - 1) grid)
                 = (Z.to_nat n - 1)%nat).
  { rewrite length_take. lia. }
  assert (Hhead : (2 <= n)%Z -> 0 < lmin ->
                  head (take (length grid - 1) grid) = Some lmin).
  { intros Hn Hlmin.
    rewrite head_take by lia.
    apply np_logspace_inv in Hv0 as (y & Hy & ->).
    rewrite head_lookup, list_lookup_fmap, <- head_lookup.
    rewrite (np_linspace_head _ _ _ _ Hn Hy). simpl.
    by rewrite pow10_log10. }
  case_decide.
  - bind_inv Hs. bind_inv Hs. inversion Hs; subst; clear Hs.
    by rewrite !length_fmap.
  - bind_inv Hs. destruct v0 as [[f p0_n] p0_k].
    apply model_choice in Hv1 as Hf.
    bind_inv Hs. bind_inv Hs. bind_inv Hs.
    inversion Hs; subst; clear Hs.
    rewrite (fit_and_extend_length _ _ _ _ _ _ Hf Hv3).
    rewrite (fit_and_extend_length _ _ _ _ _ _ Hf Hv4). done.
Qed.

Lemma update_attributes_Ok self l' n' k' self' :
  update_attributes self l' n' k' = (self', Ok ()) ->
  _l self' = l' /\ _n self' = n' /\ _k self' = k'
  /\ np_min l' = Ok (_lmin self') /\ np_max l' = Ok (_lmax self').
Proof.
  unfold update_attributes.
  destruct (np_min l') as [lo|]; [|by intros [=]].
  destruct (np_max l') as [hi|]; [|by intros [=]].
  destruct (material_str self); intros [= <-]; done.
Qed.

End ExtrapolationFacts.




(** ** SizeDistribution *)

Lemma np_trapz_scale (c : R) (y x : list R) :
  np_trapz ((fun v => v * c) <$> y) x = np_trapz y x * c.
Proof.
  revert y; induction x as [|x0 x IH]; intros y.
  - destruct y; simpl; ring.
  - destruct y as [|y0 y]; [simpl; ring|].
    destruct x as [|x1 x]; [simpl; destruct y; simpl; ring|].
    destruct y as [|y1 y]; [simpl; ring|].
    specialize (IH (y1 :: y)).
    change (np_trapz ((fun v => v * c) <$> y0 :: y1 :: y) (x0 :: x1 :: x))
      with ((x1 - x0) * (y1 * c + y0 * c) / 2
            + np_trapz ((fun v => v * c) <$> y1 :: y) (x1 :: x)).
    rewrite IH.
    change (np_trapz (y0 :: y1 :: y) (x0 :: x1 :: x))
      with ((x1 - x0) * (y1 + y0) / 2 + np_trapz (y1 :: y) (x1 :: x)).
    field.
Qed.

Lemma np_trapz_nonneg (y x : list R) :
  increasing x -> Forall (fun v => 0 <= v) y -> 0 <= np_trapz y x.
Proof.
  revert y; induction x as [|x0 x IH]; intros y Hx Hy.
  - destruct y; simpl; lra.
  - destruct y as [|y0 y]; [simpl; lra|].
    destruct x as [|x1 x]; [simpl; destruct y; simpl; lra|].
    destruct y as [|y1 y]; [simpl; lra|].
    destruct Hx as [Hlt Hx].
    inversion Hy as [|? ? Hy0 Hy']; subst.
    inversion Hy' as [|? ? Hy1 Hy'']; subst.
    specialize (IH (y1 :: y) Hx Hy').
    change (np_trapz (y0 :: y1 :: y) (x0 :: x1 :: x))
      with ((x1 - x0) * (y1 + y0) / 2 + np_trapz (y1 :: y) (x1 :: x)).
    nra.
Qed.

(** A non-negative integrand that is positive at the first of at least two
    grid points has a positive trapezoidal integral. *)
Lemma np_trapz_pos (y x : list R) :
  increasing x -> (2 <= length x)%nat -> length y = length x ->
  Forall (fun v => 0 <= v) y ->
  (forall y0, head y = Some y0 -> 0 < y0) ->
  0 < np_trapz y x.
Proof.
  intros Hx Hlen Hylen Hy Hhead.
  destruct x as [|x0 [|x1 x]]; simpl in Hlen; try lia.
  destruct y as [|y0 [|y1 y]]; simpl in Hylen; try lia.
  destruct Hx as [Hlt Hx].
  inversion Hy as [|? ? Hy0 Hy']; subst.
  inversion Hy' as [|? ? Hy1 Hy'']; subst.
  pose proof (np_trapz_nonneg (y1 :: y) (x1 :: x) Hx Hy') as Hrest.
  pose proof (Hhead y0 eq_refl) as Hpos.
  change (np_trapz (y0 :: y1 :: y) (x0 :: x1 :: x))
    with ((x1 - x0) * (y1 + y0) / 2 + np_trapz (y1 :: y) (x1 :: x)).
  nra.
Qed.

Lemma zip_with_scale_l (c : R) (dist m : list R) :
  zip_with Rmult ((fun d => d / c) <$> dist) m
  = (fun v => v * / c) <$> zip_with Rmult dist m.
Proof.
  revert m; induction dist as [|d dist IH]; intros [|mi m]; simpl; try done.
  rewrite IH. f_equal. unfold Rdiv. ring.
Qed.

(** Dividing by a non-zero mass integral normalizes it to one. *)
Lemma normalize_mass_Ok (rho_s : R) (a dist : list R) :
  mass_integral rho_s a dist <> 0 ->
  exists dist',
    normalize_mass dist (grain_mass rho_s a) a = Ok dist'
    /\ length dist' = length dist
    /\ mass_integral rho_s a dist' = 1.
Proof.
  intros Hnz. set (I := mass_integral rho_s a dist) in *.
  exists ((fun d => d / I) <$> dist). split; [|split].
  - unfold normalize_mass. apply traverse_Ok. intros d _.
    unfold fdiv. fold (mass_integral rho_s a dist). fold I.
    by rewrite decide_False.
  - by rewrite length_fmap.
  - unfold mass_integral. rewrite zip_with_scale_l, np_trapz_scale.
    fold (mass_integral rho_s a dist). fold I. by field.
Qed.

Lemma normalize_mass_zero (rho_s : R) (a dist : list R) :
  dist <> [] -> mass_integral rho_s a dist = 0 ->
  normalize_mass dist (grain_mass rho_s a) a = Raise NonFinite.
Proof.
  intros Hne Hz. destruct dist as [|d dist]; [done|].
  unfold normalize_mass. fold (mass_integral rho_s a (d :: dist)).
  rewrite Hz. simpl. unfold fdiv. by rewrite decide_True.
Qed.

Lemma grain_mass_pos (rho_s ai : R) :
  0 < rho_s -> 0 < ai -> 0 < 4 * PI / 3 * rho_s * ai ^ 3.
Proof.
  intros Hrho Hai. pose proof PI_RGT_0 as Hpi.
  assert (0 < ai ^ 3) by (apply pow_lt; lra).
  assert (0 < 4 * PI / 3 * rho_s) by nra.
  nra.
Qed.

(** The integrand [f(a) * m(a)] of a distribution given pointwise. *)
Lemma mass_integrand_fmap (f : R -> R) (rho_s : R) (a : list R) :
  zip_with Rmult (f <$> a) (grain_mass rho_s a)
  = (fun ai => f ai * (4 * PI / 3 * rho_s * ai ^ 3)) <$> a.
Proof.
  unfold grain_mass. by rewrite zip_with_fmap_l, zip_with_fmap_r, zip_with_diag.
Qed.

(** A pointwise distribution that is non-negative on the grid and positive
    at its first point has a positive mass integral. *)
Lemma mass_integral_pos (f : R -> R) (rho_s : R) (a : list R) :
  increasing a -> Forall (fun ai => 0 < ai) a -> (2 <= length a)%nat ->
  0 < rho_s ->
  (forall ai, ai ∈ a -> 0 <= f ai) ->
  (forall a0, head a = Some a0 -> 0 < f a0) ->
  0 < mass_integral rho_s a (f <$> a).
Proof.
  intros Hinc Hpos Hlen Hrho Hf Hf0.
  unfold mass_integral. rewrite mass_integrand_fmap.
  rewrite Forall_forall in Hpos.
  apply np_trapz_pos; try done.
  - by rewrite length_fmap.
  - apply Forall_fmap, Forall_forall. intros ai Hai. simpl.
    pose proof (grain_mass_pos rho_s ai Hrho (Hpos ai Hai)).
    pose proof (Hf ai Hai). nra.
  - intros y0 Hy0. destruct a as [|a0 a]; [done|].
    simpl in Hy0. inversion Hy0; subst.
    pose proof (grain_mass_pos rho_s a0 Hrho (Hpos a0 ltac:(left))).
    pose proof (Hf0 a0 eq_refl). nra.
Qed.

(** C4, as the code has it.  On a strictly increasing, positive grid of at
    least two sizes and for a positive material density, the power law is
    normalized to a trapezoidal mass integral of one gram whenever the
    smallest grid size does not exceed [a_max], and the Gaussian whenever
    [sigma_a] is not zero (in exact arithmetic). *)
Theorem size_distributions_normalized (a : list R) (rho_s : R) :
  increasing a -> Forall (fun ai => 0 < ai) a -> (2 <= length a)%nat ->
  0 < rho_s ->
  (forall a_max q,
     (forall a0, head a = Some a0 -> a0 <= a_max) ->
     exists dist,
       powerlaw_N_of_a a a_max q rho_s = Ok dist
       /\ length dist = length a
       /\ mass_integral rho_s a dist = 1)
  /\
  (forall a_mean sigma_a,
     sigma_a <> 0 ->
     exists dist,
       gaussian_N_of_a a a_mean sigma_a rho_s = Ok dist
       /\ length dist = length a
       /\ mass_integral rho_s a dist = 1).
Proof.
  intros Hinc Hpos Hlen Hrho. split.
  - intros a_max q Hmax. unfold powerlaw_N_of_a.
    set (f := fun ai => fpow ai (- q) * (if decide (ai <= a_max) then 1 else 0)).
    assert (Hint : 0 < mass_integral rho_s a (f <$> a)).
    { apply mass_integral_pos; try done.
      - intros ai _. unfold f, fpow, Rpower.
        pose proof (exp_pos (- q * ln ai)). case_decide; nra.
      - intros a0 Ha0. unfold f, fpow, Rpower.
        pose proof (exp_pos (- q * ln a0)).
        rewrite decide_True by auto. nra. }
    destruct (normalize_mass_Ok rho_s a (f <$> a)) as (dist & Hd & Hl & Hi);
      [lra|].
    exists dist. rewrite length_fmap in Hl. done.
  - intros a_mean sigma_a Hsigma. unfold gaussian_N_of_a.
    set (f := fun ai => exp (- (ai - a_mean) ^ 2 / (2 * sigma_a ^ 2))).
    assert (Hdist : traverse
                      (fun ai => e ← fdiv (- (ai - a_mean) ^ 2)
                                      (2 * sigma_a ^ 2); Ok (exp e)) a
                    = Ok (f <$> a)).
    { apply traverse_Ok. intros ai _. unfold fdiv.
      rewrite decide_False; [done|]. nra. }
    rewrite Hdist. simpl.
    assert (Hint : 0 < mass_integral rho_s a (f <$> a)).
    { apply mass_integral_pos; try done.
      - intros ai _. unfold f. left. apply exp_pos.
      - intros a0 _. apply exp_pos. }
    destruct (normalize_mass_Ok rho_s a (f <$> a)) as (dist & Hd & Hl & Hi);
      [lra|].
    exists dist. rewrite length_fmap in Hl. done.
Qed.

Lemma size_distributions_normalized_witness :
  (exists dist,
     powerlaw_N_of_a [1; 2] 1 3.5 1 = Ok dist
     /\ length dist = 2%nat /\ mass_integral 1 [1; 2] dist = 1)
  /\ (exists dist,
        gaussian_N_of_a [1; 2] 1 1 1 = Ok dist
        /\ length dist = 2%nat /\ mass_integral 1 [1; 2] dist = 1).
Proof.
  destruct (size_distributions_normalized [1; 2] 1) as [Hpow Hgauss].
  - simpl. lra.
  - repeat constructor; lra.
  - simpl. lia.
  - lra.
  - split.
    + apply (Hpow 1 3.5). intros a0 [= <-]. lra.
    + apply (Hgauss 1 1). lra.
Defined.

(** The claim as written fails when the cut-off lies below the grid: the
    power law vanishes on every grid point, its mass integral is zero and
    the normalization divides zero by zero, so no distribution of unit
    mass comes back. *)
Lemma powerlaw_cutoff_below_grid :
  increasing [1; 2] /\ Forall (fun ai => 0 < ai) [1; 2]
  /\ powerlaw_N_of_a [1; 2] 0.5 3.5 1 = Raise NonFinite
  /\ ~ exists dist,
         powerlaw_N_of_a [1; 2] 0.5 3.5 1 = Ok dist
         /\ mass_integral 1 [1; 2] dist = 1.
Proof.
  assert (Hraise : powerlaw_N_of_a [1; 2] 0.5 3.5 1 = Raise NonFinite).
  { unfold powerlaw_N_of_a. apply normalize_mass_zero; [done|].
    unfold mass_integral. rewrite mass_integrand_fmap. simpl.
    rewrite !decide_False by lra. lra. }
  split; [simpl; lra|]. split; [repeat constructor; lra|].
  split; [exact Hraise|].
  intros (dist & Hd & _). rewrite Hraise in Hd. discriminate.
Qed.

(** ** Complex arithmetic *)

Lemma C_nonzero_norm (w : C) : w <> (0, 0) -> Re w * Re w + Im w * Im w <> 0.
Proof.
  destruct w as [a b]; simpl. intros Hw Hz.
  apply Hw. f_equal; nra.
Qed.

Lemma Cdiv_Ok (z w : C) :
  w <> (0, 0) ->
  Cdiv z w
  = Ok ((Re z * Re w + Im z * Im w) / (Re w * Re w + Im w * Im w),
        (Im z * Re w - Re z * Im w) / (Re w * Re w + Im w * Im w)).
Proof. intros Hw. unfold Cdiv. by rewrite decide_False. Qed.

Lemma Cdiv_self (w : C) : w <> (0, 0) -> Cdiv w w = Ok (1, 0).
Proof.
  intros Hw. rewrite Cdiv_Ok by done.
  pose proof (C_nonzero_norm w Hw). do 2 f_equal; by field.
Qed.

Lemma Cdiv_one (z : C) : Cdiv z (1, 0) = Ok z.
Proof.
  rewrite Cdiv_Ok by (intros [= ?]; lra).
  destruct z as [a b]; simpl. do 2 f_equal; field.
Qed.

(** A quotient is zero only when its numerator is. *)
Lemma Cdiv_zero_inv (z w : C) : Cdiv z w = Ok (0, 0) -> z = (0, 0).
Proof.
  unfold Cdiv. case_decide as Hw; [done|].
  pose proof (C_nonzero_norm w Hw) as Hd.
  destruct z as [a b], w as [c d]; simpl in *.
  intros [= H1 H2].
  assert (E1 : a * c + b * d = 0).
  { apply (Rmult_eq_compat_r (c * c + d * d)) in H1.
    rewrite Rmult_0_l in H1. rewrite <- H1. by field. }
  assert (E2 : b * c - a * d = 0).
  { apply (Rmult_eq_compat_r (c * c + d * d)) in H2.
    rewrite Rmult_0_l in H2. rewrite <- H2. by field. }
  assert (Ea : a * (c * c + d * d) = 0).
  { replace (a * (c * c + d * d))
      with (c * (a * c + b * d) - d * (b * c - a * d)) by ring.
    rewrite E1, E2. ring. }
  assert (Eb : b * (c * c + d * d) = 0).
  { replace (b * (c * c + d * d))
      with (d * (a * c + b * d) + c * (b * c - a * d)) by ring.
    rewrite E1, E2. ring. }
  apply Rmult_integral in Ea as [Ea|Ea]; [|done].
  apply Rmult_integral in Eb as [Eb|Eb]; [|done].
  by subst.
Qed.

Lemma Cmult_self_nonzero (z : C) : z <> (0, 0) -> Cmult z z <> (0, 0).
Proof.
  destruct z as [n k]; unfold Cmult; simpl. intros Hz [= H1 H2].
  apply Hz. assert (Hnk : n * k = 0) by lra.
  assert (Hsq : n * n = k * k) by lra.
  assert (Hq : (n * n) * (n * n) = 0).
  { transitivity ((n * k) * (n * k)); [rewrite Hsq at 2; ring|].
    rewrite Hnk. ring. }
  assert (Hn : n = 0).
  { apply Rmult_integral in Hq as [Hq|Hq];
      apply Rmult_integral in Hq as [Hq|Hq]; done. }
  assert (Hk : k = 0).
  { rewrite Hn in Hsq. symmetry in Hsq. rewrite Rmult_0_l in Hsq.
    apply Rmult_integral in Hsq as [Hsq|Hsq]; done. }
  by subst.
Qed.

Lemma Cabs_square (n k : R) : Cabs (Cmult (n, k) (n, k)) = n * n + k * k.
Proof.
  unfold Cabs, Cmult; simpl.
  replace ((n * n - k * k) * (n * n - k * k)
           + (n * k + k * n) * (n * k + k * n))
    with ((n * n + k * k) * (n * n + k * k)) by ring.
  apply sqrt_square. nra.
Qed.

(** The principal root of a square gives the number back in the right
    half-plane and its negative in the left one. *)
Lemma Csqrt_square_right (n k : R) :
  0 < n \/ (n = 0 /\ 0 <= k) -> Csqrt (Cmult (n, k) (n, k)) = (n, k).
Proof.
  intros Hn. unfold Csqrt. rewrite Cabs_square. unfold Cmult; simpl.
  replace ((n * n + k * k + (n * n - k * k)) / 2) with (n * n) by field.
  replace ((n * n + k * k - (n * n - k * k)) / 2) with (k * k) by field.
  f_equal.
  - apply sqrt_square. lra.
  - case_decide as Hs.
    + rewrite sqrt_square; [lra|]. destruct Hn as [Hn|[-> Hk]]; nra.
    + replace (k * k) with ((- k) * (- k)) by ring.
      rewrite sqrt_square; [lra|]. destruct Hn as [Hn|[-> Hk]]; nra.
Qed.

Lemma Csqrt_square_left (n k : R) :
  n < 0 -> Csqrt (Cmult (n, k) (n, k)) = (- n, - k).
Proof.
  intros Hn. unfold Csqrt. rewrite Cabs_square. unfold Cmult; simpl.
  replace ((n * n + k * k + (n * n - k * k)) / 2) with ((- n) * (- n))
    by field.
  replace ((n * n + k * k - (n * n - k * k)) / 2) with (k * k) by field.
  f_equal.
  - apply sqrt_square. lra.
  - case_decide as Hs.
    + replace (k * k) with ((- k) * (- k)) by ring.
      rewrite sqrt_square; [lra|]. nra.
    + rewrite sqrt_square; [lra|]. nra.
Qed.

(** ** EffectiveMediumMixer: the two rules *)

Lemma maxwell_garnett_identical (e : C) :
  e <> (0, 0) -> maxwell_garnett [0.5; 0.5] [e; e] = Ok e.
Proof.
  intros He. unfold maxwell_garnett. simpl.
  assert (H3 : Cplus e (Cscale 2 e) = Cscale 3 e).
  { destruct e as [a b]. unfold Cplus, Cscale; simpl. f_equal; ring. }
  assert (H3nz : Cscale 3 e <> (0, 0)).
  { destruct e as [a b]. unfold Cscale; simpl. intros [= Ha Hb].
    apply He. f_equal; lra. }
  rewrite H3, Cdiv_self by done. simpl.
  unfold broadcast. simpl.
  match goal with
  | |- Cdiv ?num ?den = _ =>
      replace den with ((1, 0) : C);
      [replace num with e; [apply Cdiv_one|]|]
  end.
  - destruct e as [a b].
    unfold Cplus, Cscale, Cmult, Csum, np_sum; simpl. f_equal; field.
  - unfold Cplus, Cscale, RtoC, Csum, np_sum; simpl. f_equal; field.
Qed.




#[local] Arguments maxwell_garnett : simpl never.
#[local] Arguments fct : simpl never.

Section MixerRules.

Context {T : Type} `{Dielectric T}.
Variable findroot : (C -> result C) -> C -> result C.
Variable uninit : nat -> R.

(** A scalar query: the one slot of [eps_mean] is the mixed value, and the
    answer its principal root. *)
Lemma nk_mixed_one_wavelength (self : diel_mixed T) (l : R) (e : C) :
  eps_mean_at findroot self l = Ok (Some e) ->
  nk_mixed findroot uninit self [l]
  = Ok (Some ([Re (Csqrt e)], [Im (Csqrt e)])).
Proof.
  intros He. rewrite nk_mixed_cons. unfold first_pass. by rewrite He.
Qed.

Lemma maxwell_garnett_pair_eps (c0 c1 : T) (rule : string) (extrapol : bool)
    (l n k : R) :
  lower rule = "maxwell-garnett" ->
  nk_at c0 l = Ok (n, k) -> nk_at c1 l = Ok (n, k) ->
  (n, k) <> (0, 0) ->
  eps_mean_at findroot
    {| constants := [c0; c1]; abundances := [0.5; 0.5];
       rule := rule; mixed_extrapol := extrapol |} l
  = Ok (Some (Cmult (n, k) (n, k))).
Proof.
  intros Hrule H0 H1 Hnz. unfold eps_mean_at, constituent_eps. simpl.
  rewrite H0, H1, Hrule. simpl.
  rewrite maxwell_garnett_identical; [done|].
  by apply Cmult_self_nonzero.
Qed.


(** C5, as the code has it.  Two constituents with the same index
    [n + i k] (not zero) at a wavelength, mixed half and half under
    Maxwell-Garnett with the first as matrix, have the effective
    permittivity [(n + i k)^2] of the single material.  The returned pair
    is the principal square root of it: [(n, k)] itself when [n] is
    positive (or zero with [k >= 0]), and [(-n, -k)] when [n] is
    negative. *)
Theorem maxwell_garnett_identical_constituents (c0 c1 : T) (rule : string)
    (extrapol : bool) (l n k : R) :
  lower rule = "maxwell-garnett" ->
  nk_at c0 l = Ok (n, k) -> nk_at c1 l = Ok (n, k) ->
  (n, k) <> (0, 0) ->
  let self := {| constants := [c0; c1]; abundances := [0.5; 0.5];
                 rule := rule; mixed_extrapol := extrapol |} in
  eps_mean_at findroot self l = Ok (Some (Cmult (n, k) (n, k)))
  /\ (0 < n \/ (n = 0 /\ 0 <= k) ->
      nk_mixed findroot uninit self [l] = Ok (Some ([n], [k])))
  /\ (n < 0 ->
      nk_mixed findroot uninit self [l] = Ok (Some ([- n], [- k]))).
Proof.
  intros Hrule H0 H1 Hnz self. subst self.
  pose proof (maxwell_garnett_pair_eps c0 c1 rule extrapol l n k
                Hrule H0 H1 Hnz) as Heps.
  split; [exact Heps|]. split.
  - intros Hn. rewrite (nk_mixed_one_wavelength _ _ _ Heps).
    by rewrite Csqrt_square_right.
  - intros Hn. rewrite (nk_mixed_one_wavelength _ _ _ Heps).
    by rewrite Csqrt_square_left.
Qed.


End MixerRules.

Lemma maxwell_garnett_identical_constituents_witness :
  eps_mean_at sample_no_root (sample_pair "Maxwell-Garnett" 2 1) 1
  = Ok (Some (Cmult (2, 1) (2, 1)))
  /\ nk_mixed sample_no_root sample_uninit
       (sample_pair "Maxwell-Garnett" 2 1) [1]
     = Ok (Some ([2], [1])).
Proof.
  destruct (maxwell_garnett_identical_constituents sample_no_root
              sample_uninit (sample_table 2 1) (sample_table 2 1)
              "Maxwell-Garnett" false 1 2 1) as (Heps & Hright & _).
  - reflexivity.
  - apply nk_sample_table; lra.
  - apply nk_sample_table; lra.
  - intros [= ? ?]; lra.
  - split; [exact Heps|]. apply Hright. left. lra.
Defined.

(** The claim as written fails for a table with negative [n]: both
    constituents answer [(-1, 1)] at wavelength 1, and the mixture answers
    [(1, -1)], the principal square root of the same permittivity. *)
Lemma maxwell_garnett_negative_n_flips_sign :
  nk (sample_table (-1) 1) 1 = Ok (-1, 1)
  /\ nk_mixed sample_no_root sample_uninit
       (sample_pair "Maxwell-Garnett" (-1) 1) [1]
     = Ok (Some ([1], [-1]))
  /\ nk_mixed sample_no_root sample_uninit
       (sample_pair "Maxwell-Garnett" (-1) 1) [1]
     <> Ok (Some ([-1], [1])).
Proof.
  assert (Hnk : nk (sample_table (-1) 1) 1 = Ok (-1, 1))
    by (apply nk_sample_table; lra).
  assert (Hmix : nk_mixed sample_no_root sample_uninit
                   (sample_pair "Maxwell-Garnett" (-1) 1) [1]
                 = Ok (Some ([1], [-1]))).
  { erewrite nk_mixed_one_wavelength.
    2: { apply maxwell_garnett_pair_eps;
           [reflexivity | exact Hnk | exact Hnk | intros [= ? ?]; lra]. }
    rewrite Csqrt_square_left by lra. simpl.
    do 3 f_equal; f_equal; lra. }
  split; [exact Hnk|]. split; [exact Hmix|].
  rewrite Hmix. intros [= ? ?]. lra.
Qed.




(** ** OpacitySweep: writes into the arrays *)

Lemma enumerate_from_0 {A : Type} (xs : list A) :
  enumerate xs = enumerate_from 0 xs.
Proof. done. Qed.

Lemma enumerate_from_cons {A : Type} (o : nat) (x : A) (xs : list A) :
  enumerate_from o (x :: xs) = (o, x) :: enumerate_from (S o) xs.
Proof.
  unfold enumerate_from. simpl. rewrite Nat.add_0_r. f_equal.
  apply imap_ext. intros i y _. simpl. f_equal. lia.
Qed.

Lemma has_shape2_replicate {A : Type} (r c : nat) (x : A) :
  has_shape2 r c (replicate r (replicate c x)) = true.
Proof.
  apply has_shape2_spec. split; [by rewrite length_replicate|].
  intros i row [-> _]%lookup_replicate_1. by rewrite length_replicate.
Qed.

Lemma has_shape2_at2 {A : Type} (r c : nat) (M : list (list A)) i j :
  has_shape2 r c M = true -> (is_Some (at2 M i j) <-> (i < r)%nat /\ (j < c)%nat).
Proof.
  intros [Hr Hrows]%has_shape2_spec. unfold at2. split.
  - intros [x Hx]. destruct (M !! i) as [row|] eqn:Hrow; [|done].
    apply lookup_lt_Some in Hrow as Hi. apply Hrows in Hrow.
    apply lookup_lt_Some in Hx. lia.
  - intros [Hi Hj].
    destruct (lookup_lt_is_Some_2 M i) as [row Hrow]; [lia|].
    rewrite Hrow. apply lookup_lt_is_Some_2.
    apply Hrows in Hrow. lia.
Qed.

Lemma has_shape2_set2 {A : Type} (r c : nat) (M : list (list A)) i j v :
  has_shape2 r c M = true -> has_shape2 r c (set2 M i j v) = true.
Proof.
  intros [Hr Hrows]%has_shape2_spec. apply has_shape2_spec.
  unfold set2. split; [by rewrite length_alter|].
  intros i' row Hrow. rewrite list_lookup_alter in Hrow.
  case_decide; [|eauto].
  destruct (M !! i) as [row0|] eqn:Hrow0; simpl in Hrow; [|done].
  inversion Hrow; subst. rewrite length_insert. eauto.
Qed.

Lemma at2_set2_eq {A : Type} (r c : nat) (M : list (list A)) i j v :
  has_shape2 r c M = true -> (i < r)%nat -> (j < c)%nat ->
  at2 (set2 M i j v) i j = Some v.
Proof.
  intros [Hr Hrows]%has_shape2_spec Hi Hj. unfold at2, set2.
  rewrite list_lookup_alter_eq.
  destruct (lookup_lt_is_Some_2 M i) as [row Hrow]; [lia|].
  rewrite Hrow. simpl. apply list_lookup_insert_eq.
  apply Hrows in Hrow. lia.
Qed.

Lemma at2_set2_ne {A : Type} (M : list (list A)) i j v i' j' :
  i <> i' \/ j <> j' -> at2 (set2 M i j v) i' j' = at2 M i' j'.
Proof.
  intros Hne. unfold at2, set2. rewrite list_lookup_alter.
  case_decide as Hi; [|done]. subst i'.
  destruct (M !! i) as [row|]; simpl; [|done].
  destruct Hne as [?|Hj]; [done|]. by apply list_lookup_insert_ne.
Qed.

Lemma has_shape2_set_col_from (r c : nat) (M : matrix) i0 j v :
  has_shape2 r c M = true -> has_shape2 r c (set_col_from M i0 j v) = true.
Proof.
  intros [Hr Hrows]%has_shape2_spec. apply has_shape2_spec.
  unfold set_col_from. split; [by rewrite length_imap|].
  intros i row Hrow. rewrite list_lookup_imap in Hrow.
  destruct (M !! i) as [row0|] eqn:Hrow0; simpl in Hrow; [|done].
  inversion Hrow; subst. apply Hrows in Hrow0.
  case_decide; [|done]. destruct (v i); [|done].
  by rewrite length_insert.
Qed.

Lemma at2_set_col_from_hit (r c : nat) (M : matrix) i0 j v i x :
  has_shape2 r c M = true -> (i < r)%nat -> (j < c)%nat ->
  (i0 <= i)%nat -> v i = Some x ->
  at2 (set_col_from M i0 j v) i j = Some x.
Proof.
  intros [Hr Hrows]%has_shape2_spec Hi Hj Hi0 Hv. unfold at2, set_col_from.
  rewrite list_lookup_imap.
  destruct (lookup_lt_is_Some_2 M i) as [row Hrow]; [lia|].
  rewrite Hrow. simpl. rewrite decide_True by done. rewrite Hv.
  apply list_lookup_insert_eq. apply Hrows in Hrow. lia.
Qed.

Lemma at2_set_col_from_miss (M : matrix) i0 j v i j' :
  j' <> j \/ (i < i0)%nat ->
  at2 (set_col_from M i0 j v) i j' = at2 M i j'.
Proof.
  intros Hmiss. unfold at2, set_col_from. rewrite list_lookup_imap.
  destruct (M !! i) as [row|]; simpl; [|done].
  case_decide; [|done].
  destruct Hmiss as [Hj|Hi]; [|lia].
  destruct (v i); [|done]. by apply list_lookup_insert_ne.
Qed.

Lemma get2_Ok (M : matrix) i j v : get2 M i j = Ok v <-> at2 M i j = Some v.
Proof.
  unfold get2, at2. destruct (M !! i) as [row|]; [|done].
  destruct (row !! j); split; intros [=]; by subst.
Qed.

Section SweepFacts.

Context {T : Type} `{Dielectric T}.
Variable bhmie_function : bhmie_t.
Variable fsolve : (R -> R) -> R -> R.

(** One pass of the size loop stores the three efficiencies of [x] at row
    [ia] of column [ilam] and touches nothing else. *)
Lemma size_body_Ok (r c : nat) (n k : float64) (nang : Z) (ilam ia : nat) (x : R)
    (st st' : mie_arrays) :
  size_body bhmie_function n k nang ilam (ia, x) st = Ok st' ->
  arrays_ok r c st ->
  (ia < r)%nat /\ (ilam < c)%nat /\ arrays_ok r c st'
  /\ (exists res,
        bhmie_function x (n, k) nang = Ok res
        /\ cell3 st' ia ilam
           = (Some (Qabs res), Some (Qsca res), Some (Re (gsca res))))
  /\ (forall i' j', ia <> i' \/ ilam <> j' -> cell3 st' i' j' = cell3 st i' j').
Proof.
  intros Hbody [Hqa Hqs Hg Hs1 Hs2]. unfold size_body in Hbody.
  bind_inv Hbody. rename v into res.
  bind_inv Hbody. bind_inv Hbody. inversion Hbody; subst st'; clear Hbody.
  assert (Hrange : (ia < r)%nat /\ (ilam < c)%nat).
  { apply (has_shape2_at2 r c (s_1 st) ia ilam Hs1). unfold at2.
    destruct (s_1 st !! ia) as [row|]; simpl in Hv0; [|done].
    destruct (row !! ilam); [eauto|done]. }
  destruct Hrange as [Hia Hilam].
  split; [done|]. split; [done|]. split; [|split].
  - split; simpl; by apply has_shape2_set2.
  - exists res. split; [done|]. unfold cell3; simpl.
    by rewrite !(at2_set2_eq r c).
  - intros i' j' Hne. unfold cell3; simpl. by rewrite !at2_set2_ne.
Qed.

(** The size loop over [Xc], counting rows from [o]. *)
Lemma size_loop_spec (r c : nat) (n k : float64) (nang : Z) (ilam : nat)
    (Xc : list R) :
  forall (o : nat) (st st' : mie_arrays),
    for_each (size_body bhmie_function n k nang ilam)
      (enumerate_from o Xc) st = Ok st' ->
    arrays_ok r c st ->
    arrays_ok r c st'
    /\ (forall i x, Xc !! i = Some x ->
          (o + i < r)%nat /\ (ilam < c)%nat
          /\ exists res,
               bhmie_function x (n, k) nang = Ok res
               /\ cell3 st' (o + i) ilam
                  = (Some (Qabs res), Some (Qsca res), Some (Re (gsca res))))
    /\ (forall i' j',
          j' <> ilam \/ (i' < o)%nat \/ (o + length Xc <= i')%nat ->
          cell3 st' i' j' = cell3 st i' j').
Proof.
  induction Xc as [|x Xc IH]; intros o st st' Hloop Hok.
  - simpl in Hloop. inversion Hloop; subst. split; [done|]. split; [|done].
    intros i x Hx. by rewrite lookup_nil in Hx.
  - rewrite enumerate_from_cons in Hloop. simpl in Hloop.
    bind_inv Hloop. rename v into st1.
    destruct (size_body_Ok r c n k nang ilam o x st st1 Hv Hok)
      as (Ho & Hilam & Hok1 & (res & Hres & Hcell) & Hframe1).
    destruct (IH (S o) st1 st' Hloop Hok1) as (Hok' & Hrows & Hframe).
    split; [done|]. split.
    + intros [|i] y Hy; simpl in Hy.
      * inversion Hy; subst y. rewrite Nat.add_0_r.
        split; [done|]. split; [done|]. exists res. split; [done|].
        rewrite Hframe by (right; left; lia). done.
      * destruct (Hrows i y Hy) as (Hi & _ & Hcell').
        replace (o + S i)%nat with (S o + i)%nat by lia. done.
    + intros i' j' Hmiss. simpl in Hmiss.
      rewrite Hframe by (destruct Hmiss as [?|[?|?]]; [left|right; left|right; right]; done || lia).
      apply Hframe1. destruct Hmiss as [?|[?|?]]; [right; done|left; lia|left; lia].
Qed.

Lemma converging_nonempty (ext : bool) (n k : float64) (X : list R) :
  converging fsolve ext n k X <> [].
Proof.
  unfold converging.
  by destruct (select _ X).
Qed.

End SweepFacts.

Section SweepColumns.

Context {T : Type} `{Dielectric T}.
Variable bhmie_function : bhmie_t.
Variable fsolve : (R -> R) -> R -> R.

(** One pass of the wavelength loop fills column [ilam] and no other: the
    sizes handed to [bhmie_function] get its answer, every later row gets
    the efficiencies of the last such size and the large-grain [g]. *)
Lemma wavelength_body_spec (r c : nat) (A : list R) (diel_constants : T)
    (nang : Z) (ext : bool) (ilam : nat) (lam : R) (st st' : mie_arrays) :
  wavelength_body bhmie_function fsolve A diel_constants nang ext
    (ilam, lam) st = Ok st' ->
  arrays_ok r c st -> r = length A ->
  arrays_ok r c st'
  /\ (forall i j', j' <> ilam -> cell3 st' i j' = cell3 st i j')
  /\ exists n k,
       nk_at diel_constants lam = Ok (n, k) /\ lam <> 0
       /\ (forall i x,
             converging fsolve ext n k (size_parameter lam <$> A) !! i
             = Some x ->
             exists res,
               bhmie_function x (n, k) nang = Ok res
               /\ cell3 st' i ilam
                  = (Some (Qabs res), Some (Qsca res), Some (Re (gsca res))))
       /\ (forall i a,
             A !! i = Some a ->
             (length (converging fsolve ext n k (size_parameter lam <$> A))
              <= i)%nat ->
             exists x_last res,
               last (converging fsolve ext n k (size_parameter lam <$> A))
               = Some x_last
               /\ bhmie_function x_last (n, k) nang = Ok res
               /\ cell3 st' i ilam
                  = (Some (Qabs res), Some (Qsca res),
                     Some (g_large (size_parameter lam a)))).
Proof.
  intros Hbody Hok Hr. unfold wavelength_body in Hbody.
  bind_inv Hbody. destruct v as [n k].
  bind_inv Hbody. rename v into cf.
  assert (Hlam : lam <> 0 /\ cf = 2 * PI / lam).
  { unfold fdiv in Hv0. case_decide; [done|]. by inversion Hv0. }
  destruct Hlam as [Hlam ->].
  change ((fun a => 2 * PI / lam * a) <$> A)
    with (size_parameter lam <$> A) in Hbody.
  set (X := size_parameter lam <$> A) in *.
  set (Xc := converging fsolve ext n k X) in *.
  bind_inv Hbody. rename v into st1.
  rewrite enumerate_from_0 in Hv1.
  destruct (size_loop_spec bhmie_function r c n k nang ilam Xc 0 st st1
              Hv1 Hok) as (Hok1 & Hrows & Hframe).
  bind_inv Hbody. rename v into last_abs.
  bind_inv Hbody. rename v into last_sca.
  inversion Hbody; subst st'; clear Hbody.
  apply get2_Ok in Hv2, Hv3.
  pose proof (converging_nonempty fsolve ext n k X) as Hne. fold Xc in Hne.
  assert (Hlen : (length Xc - 1 + 1 = length Xc)%nat).
  { destruct Xc; [done|]. simpl. lia. }
  destruct (lookup_lt_is_Some_2 Xc (length Xc - 1)) as [x_last Hx_last];
    [lia|].
  destruct (Hrows _ _ Hx_last) as (_ & Hilam & res_last & Hres_last & Hcell).
  simpl in Hcell. unfold cell3 in Hcell. rewrite Hv2, Hv3 in Hcell.
  inversion Hcell; subst last_abs last_sca. clear Hcell.
  destruct Hok1 as [Hqa Hqs Hg Hs1 Hs2].
  split; [|split].
  - split; simpl; try done; by apply has_shape2_set_col_from.
  - intros i j' Hj. unfold cell3; simpl.
    rewrite !at2_set_col_from_miss by (by left).
    apply Hframe. by left.
  - exists n, k. fold X. fold Xc. split; [done|]. split; [done|]. split.
    + intros i x Hx. destruct (Hrows _ _ Hx) as (_ & _ & res & Hres & Hcell).
      exists res. split; [done|]. simpl in Hcell. rewrite <- Hcell.
      apply lookup_lt_Some in Hx.
      unfold cell3; simpl.
      by rewrite !at2_set_col_from_miss by (right; lia).
    + intros i a Ha Hi. exists x_last, res_last.
      split; [by rewrite last_lookup; replace (Nat.pred (length Xc))
                with (length Xc - 1)%nat by lia|].
      split; [done|].
      apply lookup_lt_Some in Ha as Hilt.
      unfold cell3; simpl.
      rewrite (at2_set_col_from_hit r c _ _ _ _ i (Qabs res_last))
        by (done || lia).
      rewrite (at2_set_col_from_hit r c _ _ _ _ i (Qsca res_last))
        by (done || lia).
      rewrite (at2_set_col_from_hit r c _ _ _ _ i
                 (g_large (size_parameter lam a))); try done; try lia.
      unfold X. by rewrite list_lookup_fmap, Ha.
Qed.

(** The wavelength loop: column [o + j] of the final arrays is the one
    that the pass for [LAM[j]] wrote. *)
Lemma sweep_loop_spec (r c : nat) (A : list R) (diel_constants : T)
    (nang : Z) (ext : bool) (LAM : list R) :
  forall (o : nat) (st st' : mie_arrays),
    for_each (wavelength_body bhmie_function fsolve A diel_constants nang ext)
      (enumerate_from o LAM) st = Ok st' ->
    arrays_ok r c st -> r = length A ->
    arrays_ok r c st'
    /\ (forall j lam, LAM !! j = Some lam ->
          exists st0 st1,
            arrays_ok r c st0
            /\ wavelength_body bhmie_function fsolve A diel_constants nang
                 ext ((o + j)%nat, lam) st0 = Ok st1
            /\ forall i, cell3 st' i (o + j) = cell3 st1 i (o + j))
    /\ (forall i j', (j' < o)%nat -> cell3 st' i j' = cell3 st i j').
Proof.
  induction LAM as [|lam0 LAM IH]; intros o st st' Hloop Hok Hr.
  - simpl in Hloop. inversion Hloop; subst. split; [done|]. split; [|done].
    intros j lam Hj. by rewrite lookup_nil in Hj.
  - rewrite enumerate_from_cons in Hloop. simpl in Hloop.
    bind_inv Hloop. rename v into st1.
    destruct (wavelength_body_spec r c A diel_constants nang ext o lam0
                st st1 Hv Hok Hr) as (Hok1 & Hframe1 & _).
    destruct (IH (S o) st1 st' Hloop Hok1 Hr) as (Hok' & Hcols & Hframe).
    split; [done|]. split.
    + intros [|j] lam Hj; simpl in Hj.
      * inversion Hj; subst lam. rewrite Nat.add_0_r.
        exists st, st1. split; [done|]. split; [done|].
        intros i. apply Hframe. lia.
      * destruct (Hcols j lam Hj) as (st0 & st2 & Hok0 & Hbody & Hcol).
        replace (o + S j)%nat with (S o + j)%nat by lia. eauto.
    + intros i j' Hj'. rewrite Hframe by lia. apply Hframe1. lia.
Qed.

End SweepColumns.

(** ** OpacitySweep: the recursion order grows with the size *)

Lemma Int_part_mono (x y : R) : x <= y -> (Int_part x <= Int_part y)%Z.
Proof.
  intros Hxy.
  destruct (base_Int_part x) as [Hx _]. destruct (base_Int_part y) as [_ Hy].
  assert (Hlt : IZR (Int_part x) < IZR (Int_part y + 1)).
  { rewrite plus_IZR. lra. }
  apply lt_IZR in Hlt. lia.
Qed.

Lemma Int_part_IZR (z : Z) : Int_part (IZR z) = z.
Proof.
  destruct (base_Int_part (IZR z)) as [Hle Hgt].
  assert (H1 : (Int_part (IZR z) <= z)%Z) by (by apply le_IZR).
  assert (H2 : IZR z < IZR (Int_part (IZR z) + 1)) by (rewrite plus_IZR; lra).
  apply lt_IZR in H2. lia.
Qed.

Lemma astype_int_mono (x y : R) :
  0 <= x -> x <= y -> (astype_int x <= astype_int y)%Z.
Proof.
  intros Hx Hxy. unfold astype_int.
  rewrite !decide_True by lra. by apply Int_part_mono.
Qed.

Lemma Cabs_scale_mono (x x' n k : R) :
  0 <= x -> x <= x' -> Cabs (Cscale x (n, k)) <= Cabs (Cscale x' (n, k)).
Proof.
  intros Hx Hxx'. unfold Cabs, Cscale; simpl.
  apply sqrt_le_1_alt.
  assert (x * x <= x' * x') by nra.
  assert (0 <= n * n) by nra. assert (0 <= k * k) by nra.
  nra.
Qed.

Lemma xstop_mono (x x' : R) :
  0 < x -> x <= x' ->
  x + 4 * fpow x 0.333333 + 2 <= x' + 4 * fpow x' 0.333333 + 2.
Proof.
  intros Hx Hxx'.
  assert (fpow x 0.333333 <= fpow x' 0.333333)
    by (apply Rle_Rpower_l; lra).
  lra.
Qed.

Lemma xstop_lower (x : R) : x + 2 < x + 4 * fpow x 0.333333 + 2.
Proof.
  assert (0 < fpow x 0.333333) by apply exp_pos. lra.
Qed.

(** [nmx] does not decrease along an ascending run of positive size
    parameters. *)
Lemma nmx_of_mono (x x' : R) (n k : float64) :
  0 < x -> x <= x' -> (nmx_of x n k <= nmx_of x' n k)%Z.
Proof.
  intros Hx Hxx'. destruct n as [n| | |], k as [k| | |]; try done.
  unfold nmx_of.
  apply Z.add_le_mono_r, astype_int_mono.
  - pose proof (xstop_lower x). pose proof (Rmax_l
      (x + 4 * fpow x 0.333333 + 2) (Cabs (Cscale x (n, k)))). lra.
  - apply Rmax_lub.
    + etransitivity; [by apply xstop_mono|apply Rmax_l].
    + etransitivity; [apply Cabs_scale_mono; [lra|done]|apply Rmax_r].
Qed.

Lemma ascending_lookup (A : list R) (i i' : nat) (a a' : R) :
  ascending A -> (i <= i')%nat ->
  A !! i = Some a -> A !! i' = Some a' -> a <= a'.
Proof.
  revert i i' a a'; induction A as [|a0 A IH];
    intros i i' a a' Hasc Hii' Hi Hi'.
  - by rewrite lookup_nil in Hi.
  - assert (Htail : ascending A) by (destruct A; [done|]; by destruct Hasc).
    assert (Hhead : forall j x, A !! j = Some x -> a0 <= x).
    { intros j x Hj. destruct A as [|a1 A]; [by rewrite lookup_nil in Hj|].
      destruct Hasc as [H01 _].
      pose proof (IH 0%nat j a1 x Htail ltac:(lia) eq_refl Hj). lra. }
    destruct i as [|i], i' as [|i']; simpl in *; try lia.
    + inversion Hi; inversion Hi'; subst. lra.
    + inversion Hi; subst. eauto.
    + apply (IH i i'); try done. lia.
Qed.

(** ** OpacitySweep: boolean masks *)

Lemma select_cons {A : Type} (b : bool) (mask : list bool) (x : A)
    (X : list A) :
  select (b :: mask) (x :: X)
  = if b then x :: select mask X else select mask X.
Proof.
  unfold select. simpl. rewrite filter_cons. by destruct b.
Qed.

Lemma select_all_true {A B : Type} (f : B -> bool) (Y : list B)
    (X : list A) :
  length Y = length X -> select ((fun _ => true) <$> (f <$> Y)) X = X.
Proof.
  revert Y; induction X as [|x X IH]; intros [|y Y] Hlen; try done.
  simpl. rewrite select_cons. f_equal. apply IH. simpl in Hlen. lia.
Qed.

Lemma select_none {A : Type} (p : A -> bool) (X : list A) :
  (forall x, x ∈ X -> p x = false) -> select (p <$> X) X = [].
Proof.
  induction X as [|x X IH]; intros Hp; [done|].
  rewrite fmap_cons, select_cons, Hp by left.
  apply IH. intros y Hy. apply Hp. by right.
Qed.

(** A mask that never holds after it has failed selects a prefix. *)
Lemma select_prefix {A : Type} (p : A -> bool) (X : list A) :
  (forall i i' x x', (i <= i')%nat -> X !! i = Some x -> X !! i' = Some x' ->
                     p x' = true -> p x = true) ->
  select (p <$> X) X = take (length (select (p <$> X) X)) X
  /\ forall i x, X !! i = Some x ->
       (p x = true <-> (i < length (select (p <$> X) X))%nat).
Proof.
  induction X as [|x0 X IH]; intros Hp.
  - split; [done|]. intros i x Hx. by rewrite lookup_nil in Hx.
  - rewrite fmap_cons, select_cons.
    destruct (p x0) eqn:Hp0.
    + destruct IH as [IHsel IHmask].
      { intros i i' x x' Hii' Hx Hx'.
        apply (Hp (S i) (S i')); simpl; done || lia. }
      split.
      * cbn [length take]. f_equal. exact IHsel.
      * intros [|i] x Hx; simpl in Hx.
        -- inversion Hx; subst. cbn [length]. split; intros; [lia|done].
        -- rewrite (IHmask i x Hx). cbn [length]. lia.
    + assert (Hnone : forall x, x ∈ X -> p x = false).
      { intros x Hx. apply list_elem_of_lookup_1 in Hx as [i Hi].
        destruct (p x) eqn:Hpx; [|done].
        pose proof (Hp 0%nat (S i) x0 x ltac:(lia) eq_refl Hi Hpx).
        congruence. }
      rewrite select_none by done. split; [done|].
      intros [|i] x Hx; simpl in Hx.
      * inversion Hx; subst. rewrite Hp0. cbn [length].
        split; intros; [done|lia].
      * rewrite Hnone by (by eapply list_elem_of_lookup_2).
        cbn [length]. split; intros; [done|lia].
Qed.

Section SweepPolicy.

Context {T : Type} `{Dielectric T}.
Variable bhmie_function : bhmie_t.
Variable fsolve : (R -> R) -> R -> R.

(** With the extrapolation switched off every size is handed to
    [bhmie_function]. *)
Lemma converging_disabled (n k : float64) (X : list R) :
  X <> [] -> converging fsolve false n k X = X.
Proof.
  intros HX. unfold converging.
  rewrite select_all_true by (by rewrite length_fmap).
  by destruct X.
Qed.

(** With the extrapolation switched on, an ascending run of positive size
    parameters of which at least one stays below the threshold is cut
    after the last one that does. *)
Lemma converging_enabled (n k : float64) (X : list R) :
  (forall i i' x x', (i <= i')%nat -> X !! i = Some x -> X !! i' = Some x' ->
                     0 < x /\ x <= x') ->
  (exists i x, X !! i = Some x /\ (nmx_of x n k < NMXX)%Z) ->
  let Xc := converging fsolve true n k X in
  Xc = take (length Xc) X
  /\ (1 <= length Xc <= length X)%nat
  /\ forall i x, X !! i = Some x ->
       ((nmx_of x n k < NMXX)%Z <-> (i < length Xc)%nat).
Proof.
  intros Hasc (i0 & x0 & Hx0 & Hbelow) Xc. subst Xc. unfold converging.
  rewrite <- list_fmap_compose.
  set (p := fun x : R => bool_decide (nmx_of x n k < NMXX)%Z).
  change ((fun v : Z => bool_decide (v < NMXX)%Z) ∘ (fun x => nmx_of x n k))
    with p.
  destruct (select_prefix p X) as [Hsel Hmask].
  { intros i i' x x' Hii' Hx Hx' Hp. unfold p in *.
    apply bool_decide_eq_true in Hp. apply bool_decide_eq_true.
    destruct (Hasc i i' x x' Hii' Hx Hx') as [Hpos Hle].
    pose proof (nmx_of_mono x x' n k Hpos Hle). lia. }
  assert (Hcnt : (0 < length (select (p <$> X) X))%nat).
  { assert (Hp0 : p x0 = true) by (unfold p; by apply bool_decide_eq_true).
    apply (Hmask i0 x0 Hx0) in Hp0. lia. }
  destruct (select (p <$> X) X) as [|y Y] eqn:Hselect;
    [simpl in Hcnt; lia|].
  split; [exact Hsel|]. split.
  - split; [simpl; lia|].
    rewrite Hsel, length_take. lia.
  - intros i x Hx. rewrite <- (Hmask i x Hx). unfold p.
    by rewrite bool_decide_eq_true.
Qed.

(** What a successful sweep returns, column by column. *)
Lemma get_mie_coefficients_columns (A LAM : list R) (diel_constants : T)
    (nang : Z) (return_all ext : bool) (pkg : package) (ws : list warning) :
  get_mie_coefficients bhmie_function fsolve A LAM diel_constants nang
    return_all ext = Ok (pkg, ws) ->
  A <> []
  /\ (exists lam_min a_max,
        np_min LAM = Ok lam_min /\ np_max A = Ok a_max
        /\ ws = if decide (order_estimate lam_min a_max > 2e5)
                then if ext then []
                     else [LargeSizeParameter (order_estimate lam_min a_max)]
                else [])
  /\ forall ilam lam, LAM !! ilam = Some lam ->
       exists st0 st1,
         arrays_ok (length A) (length LAM) st0
         /\ wavelength_body bhmie_function fsolve A diel_constants nang ext
              (ilam, lam) st0 = Ok st1
         /\ forall i,
              (at2 (pkg_q_abs pkg) i ilam, at2 (pkg_q_sca pkg) i ilam,
               at2 (pkg_g pkg) i ilam) = cell3 st1 i ilam.
Proof.
  intros Hget. unfold get_mie_coefficients in Hget.
  case_decide; [done|].
  bind_inv Hget. bind_inv Hget. bind_inv Hget. bind_inv Hget.
  rename v2 into st'. bind_inv Hget.
  inversion Hget; subst pkg ws; clear Hget. simpl.
  split; [by destruct A|]. split.
  - exists v, v0. split; [done|]. split; [done|].
    unfold fdiv in Hv1. case_decide; [done|]. by inversion Hv1.
  - rewrite enumerate_from_0 in Hv2.
    match type of Hv2 with
    | for_each _ _ ?st = _ =>
        assert (Hok : arrays_ok (length A) (length LAM) st)
          by (split; apply has_shape2_replicate)
    end.
    destruct (sweep_loop_spec bhmie_function fsolve _ _ A diel_constants
                nang ext LAM 0 _ st' Hv2 Hok eq_refl)
      as (_ & Hcols & _).
    intros ilam lam Hlam.
    destruct (Hcols ilam lam Hlam) as (st0 & st1 & Hok0 & Hbody & Hcol).
    exists st0, st1. split; [done|]. split; [done|].
    intros i. apply (Hcol i).
Qed.

End SweepPolicy.

Lemma size_parameter_grid (A : list R) (lam : R) :
  ascending A -> Forall (fun a => 0 < a) A -> 0 < lam ->
  forall i i' x x', (i <= i')%nat ->
    (size_parameter lam <$> A) !! i = Some x ->
    (size_parameter lam <$> A) !! i' = Some x' ->
    0 < x /\ x <= x'.
Proof.
  intros Hasc Hpos Hlam i i' x x' Hii' Hx Hx'.
  rewrite list_lookup_fmap in Hx, Hx'.
  destruct (A !! i) as [a|] eqn:Ha; simpl in Hx; [|done].
  destruct (A !! i') as [a'|] eqn:Ha'; simpl in Hx'; [|done].
  inversion Hx; inversion Hx'; subst x x'.
  pose proof (ascending_lookup A i i' a a' Hasc Hii' Ha Ha') as Hle.
  rewrite Forall_forall in Hpos.
  pose proof (Hpos a (list_elem_of_lookup_2 _ _ _ Ha)) as Ha_pos.
  pose proof PI_RGT_0 as Hpi.
  assert (Hc : 0 < 2 * PI / lam) by (apply Rdiv_lt_0_compat; lra).
  unfold size_parameter. split; nra.
Qed.

Section SweepTheorem.

Context {T : Type} `{Dielectric T}.
Variable bhmie_function : bhmie_t.
Variable fsolve : (R -> R) -> R -> R.

(** What a successful sweep stores, in terms of the recursion order
    [nmx_of] of each size parameter. *)
Lemma sweep_extrapolation_spec (A LAM : list R) (diel_constants : T)
    (nang : Z) (return_all : bool) (pkg : package) (ws : list warning) :
  (ascending A -> Forall (fun a => 0 < a) A -> Forall (fun l => 0 < l) LAM ->
   get_mie_coefficients bhmie_function fsolve A LAM diel_constants nang
     return_all true = Ok (pkg, ws) ->
   ws = []
   /\ forall ilam lam n k,
        LAM !! ilam = Some lam -> nk_at diel_constants lam = Ok (n, k) ->
        (exists i0 a0, A !! i0 = Some a0
                       /\ (nmx_of (size_parameter lam a0) n k < NMXX)%Z) ->
        exists ilast alast res,
          A !! ilast = Some alast
          /\ (nmx_of (size_parameter lam alast) n k < NMXX)%Z
          /\ (forall i a, A !! i = Some a -> (ilast < i)%nat ->
                (NMXX <= nmx_of (size_parameter lam a) n k)%Z)
          /\ bhmie_function (size_parameter lam alast) (n, k) nang = Ok res
          /\ forall i a,
               A !! i = Some a ->
               (NMXX <= nmx_of (size_parameter lam a) n k)%Z ->
               at2 (pkg_q_abs pkg) i ilam = Some (Qabs res)
               /\ at2 (pkg_q_sca pkg) i ilam = Some (Qsca res)
               /\ at2 (pkg_g pkg) i ilam
                  = Some (g_large (size_parameter lam a)))
  /\
  (get_mie_coefficients bhmie_function fsolve A LAM diel_constants nang
     return_all false = Ok (pkg, ws) ->
   (exists lam_min a_max,
      np_min LAM = Ok lam_min /\ np_max A = Ok a_max
      /\ ws = if decide (order_estimate lam_min a_max > 2e5)
              then [LargeSizeParameter (order_estimate lam_min a_max)]
              else [])
   /\ forall i ilam a lam,
        A !! i = Some a -> LAM !! ilam = Some lam ->
        exists n k res,
          nk_at diel_constants lam = Ok (n, k)
          /\ bhmie_function (size_parameter lam a) (n, k) nang = Ok res
          /\ at2 (pkg_q_abs pkg) i ilam = Some (Qabs res)
          /\ at2 (pkg_q_sca pkg) i ilam = Some (Qsca res)
          /\ at2 (pkg_g pkg) i ilam = Some (Re (gsca res))).
Proof.
  split.
  - intros Hasc HposA HposL Hget.
    destruct (get_mie_coefficients_columns bhmie_function fsolve _ _ _ _ _ _
                _ _ Hget) as (HA & Hws & Hcols).
    split; [destruct Hws as (? & ? & _ & _ & ->); by case_decide|].
    intros ilam lam n k Hlam Hnk (i0 & a0 & Ha0 & Hbelow).
    destruct (Hcols ilam lam Hlam) as (st0 & st1 & Hok0 & Hbody & Hcol).
    destruct (wavelength_body_spec bhmie_function fsolve _ _ A diel_constants
                nang true ilam lam st0 st1 Hbody Hok0 eq_refl)
      as (_ & _ & n' & k' & Hnk' & _ & Hdirect & Hlater).
    rewrite Hnk in Hnk'. inversion Hnk'; subst n' k'; clear Hnk'.
    assert (Hlam_pos : 0 < lam).
    { rewrite Forall_forall in HposL. apply HposL.
      by eapply list_elem_of_lookup_2. }
    set (X := size_parameter lam <$> A) in *.
    destruct (converging_enabled fsolve n k X) as (Htake & [Hc1 Hc2] & Hmask).
    { by apply size_parameter_grid. }
    { exists i0, (size_parameter lam a0). split; [|done].
      unfold X. by rewrite list_lookup_fmap, Ha0. }
    set (Xc := converging fsolve true n k X) in *.
    assert (HlenX : length X = length A) by (unfold X; by rewrite length_fmap).
    destruct (lookup_lt_is_Some_2 A (length Xc - 1)) as [alast Halast]; [lia|].
    assert (HXlast : X !! (length Xc - 1)%nat = Some (size_parameter lam alast))
      by (unfold X; by rewrite list_lookup_fmap, Halast).
    assert (HXclast : Xc !! (length Xc - 1)%nat
                      = Some (size_parameter lam alast)).
    { pose proof (lookup_take X (length Xc - 1) (length Xc)) as Ht.
      rewrite <- Htake in Ht. rewrite Ht, decide_True by lia. done. }
    destruct (Hdirect _ _ HXclast) as (res & Hres & _).
    exists (length Xc - 1)%nat, alast, res.
    split; [done|]. split; [apply (Hmask _ _ HXlast); lia|]. split.
    { intros i a Ha Hi.
      assert (HXi : X !! i = Some (size_parameter lam a))
        by (unfold X; by rewrite list_lookup_fmap, Ha).
      pose proof (Hmask _ _ HXi) as Hiff.
      destruct (Z_lt_le_dec (nmx_of (size_parameter lam a) n k) NMXX)
        as [Hlt|Hge]; [|done].
      apply Hiff in Hlt. lia. }
    split; [done|].
    intros i a Ha Hge.
    assert (HXi : X !! i = Some (size_parameter lam a))
      by (unfold X; by rewrite list_lookup_fmap, Ha).
    assert (Hi : (length Xc <= i)%nat).
    { destruct (le_lt_dec (length Xc) i) as [?|Hlt]; [done|].
      apply (Hmask _ _ HXi) in Hlt. lia. }
    destruct (Hlater i a Ha Hi) as (x_last & res' & Hlast & Hres' & Hcell).
    assert (x_last = size_parameter lam alast).
    { rewrite last_lookup in Hlast.
      replace (Nat.pred (length Xc)) with (length Xc - 1)%nat in Hlast by lia.
      rewrite HXclast in Hlast. by inversion Hlast. }
    subst x_last. rewrite Hres in Hres'. inversion Hres'; subst res'.
    rewrite <- Hcol in Hcell. by inversion Hcell.
  - intros Hget.
    destruct (get_mie_coefficients_columns bhmie_function fsolve _ _ _ _ _ _
                _ _ Hget) as (HA & Hws & Hcols).
    split; [exact Hws|].
    intros i ilam a lam Ha Hlam.
    destruct (Hcols ilam lam Hlam) as (st0 & st1 & Hok0 & Hbody & Hcol).
    destruct (wavelength_body_spec bhmie_function fsolve _ _ A diel_constants
                nang false ilam lam st0 st1 Hbody Hok0 eq_refl)
      as (_ & _ & n & k & Hnk & _ & Hdirect & _).
    rewrite converging_disabled in Hdirect
      by (intros Hnil; apply fmap_nil_inv in Hnil; done).
    destruct (Hdirect i (size_parameter lam a)) as (res & Hres & Hcell).
    { by rewrite list_lookup_fmap, Ha. }
    exists n, k, res. split; [done|]. split; [done|].
    rewrite <- Hcol in Hcell. by inversion Hcell.
Qed.

(** The recursion order of a positive size parameter for a finite index,
    written out. *)
Lemma nmx_of_formula (x n k : R) :
  0 < x ->
  nmx_of x n k
  = (Int_part (Rmax (x + 4 * Rpower x 0.333333 + 2)
                 (sqrt ((x * n) ^ 2 + (x * k) ^ 2))) + 15)%Z.
Proof.
  intros Hx. unfold nmx_of, astype_int, fpow, Cabs, Cscale, Re, Im.
  cbn [fst snd].
  replace (x * n * (x * n) + x * k * (x * k))
    with ((x * n) ^ 2 + (x * k) ^ 2) by ring.
  rewrite decide_True; [done|].
  pose proof (xstop_lower x) as Hstop. unfold fpow in Hstop.
  pose proof (Rmax_l (x + 4 * Rpower x 0.333333 + 2)
                (sqrt ((x * n) ^ 2 + (x * k) ^ 2))).
  lra.
Qed.

Lemma size_parameter_pos (lam a : R) :
  0 < lam -> 0 < a -> 0 < size_parameter lam a.
Proof.
  intros Hlam Ha. unfold size_parameter. pose proof PI_RGT_0.
  apply Rmult_lt_0_compat; [|done]. apply Rdiv_lt_0_compat; lra.
Qed.

(** C1.  A successful sweep with the large-grain extrapolation enabled,
    over an ascending grid of positive sizes and positive wavelengths:
    at every wavelength where the index is finite and some size has a
    recursion order [int(max(x + 4 x^0.333333 + 2, |x m|)) + 15] below
    [200000], there is a last such size, it is solved directly, and every
    size whose order reaches the threshold gets that size's [Q_abs] and
    [Q_sca] and the asymptote [0.3 x^2 / (1 + 0.3 x^2)] for [g]; no
    warning is issued.  With the extrapolation disabled every entry is the
    answer of [bhmie_function] at its own size parameter, and one warning
    is issued exactly when the order estimated before the loops from the
    largest size and the shortest wavelength alone,
    [x + 4 x^0.333333 + 2 + 15], exceeds [2e5]. *)
Theorem large_grain_extrapolation (A LAM : list R) (diel_constants : T)
    (nang : Z) (return_all : bool) (pkg : package) (ws : list warning) :
  let x_of (lam a : R) : R := 2 * PI / lam * a in
  let order (x n k : R) : Z :=
    (Int_part (Rmax (x + 4 * Rpower x 0.333333 + 2)
                 (sqrt ((x * n) ^ 2 + (x * k) ^ 2))) + 15)%Z in
  (ascending A -> Forall (fun a => 0 < a) A -> Forall (fun l => 0 < l) LAM ->
   get_mie_coefficients bhmie_function fsolve A LAM diel_constants nang
     return_all true = Ok (pkg, ws) ->
   ws = []
   /\ forall ilam lam (n k : R),
        LAM !! ilam = Some lam -> nk_at diel_constants lam = Ok (n, k) ->
        (exists i0 a0, A !! i0 = Some a0
                       /\ (order (x_of lam a0) n k < 200000)%Z) ->
        exists ilast alast res,
          A !! ilast = Some alast
          /\ (order (x_of lam alast) n k < 200000)%Z
          /\ (forall i a, A !! i = Some a -> (ilast < i)%nat ->
                (200000 <= order (x_of lam a) n k)%Z)
          /\ bhmie_function (x_of lam alast) (n, k) nang = Ok res
          /\ forall i a,
               A !! i = Some a ->
               (200000 <= order (x_of lam a) n k)%Z ->
               at2 (pkg_q_abs pkg) i ilam = Some (Qabs res)
               /\ at2 (pkg_q_sca pkg) i ilam = Some (Qsca res)
               /\ at2 (pkg_g pkg) i ilam
                  = Some (0.3 * x_of lam a ^ 2
                          / (1 + 0.3 * x_of lam a ^ 2)))
  /\
  (get_mie_coefficients bhmie_function fsolve A LAM diel_constants nang
     return_all false = Ok (pkg, ws) ->
   (exists lam_min a_max,
      np_min LAM = Ok lam_min /\ np_max A = Ok a_max
      /\ let estimate :=
           x_of lam_min a_max + 4 * Rpower (x_of lam_min a_max) 0.333333
           + 2 + 15 in
         ws = if decide (estimate > 2e5)
              then [LargeSizeParameter estimate]
              else [])
   /\ forall i ilam a lam,
        A !! i = Some a -> LAM !! ilam = Some lam ->
        exists n k res,
          nk_at diel_constants lam = Ok (n, k)
          /\ bhmie_function (x_of lam a) (n, k) nang = Ok res
          /\ at2 (pkg_q_abs pkg) i ilam = Some (Qabs res)
          /\ at2 (pkg_q_sca pkg) i ilam = Some (Qsca res)
          /\ at2 (pkg_g pkg) i ilam = Some (Re (gsca res))).
Proof.
  intros x_of order.
  destruct (sweep_extrapolation_spec A LAM diel_constants nang return_all
              pkg ws) as [Henabled Hdisabled].
  split.
  - intros Hasc HposA HposL Hget.
    destruct (Henabled Hasc HposA HposL Hget) as [Hws Hcols].
    split; [exact Hws|].
    intros ilam lam n k Hlam Hnk (i0 & a0 & Ha0 & Hbelow).
    assert (Hlam_pos : 0 < lam).
    { rewrite Forall_forall in HposL. apply HposL.
      by eapply list_elem_of_lookup_2. }
    assert (Horder : forall i a, A !! i = Some a ->
              nmx_of (size_parameter lam a) n k = order (x_of lam a) n k).
    { intros i a Ha. apply nmx_of_formula, size_parameter_pos; [done|].
      rewrite Forall_forall in HposA. apply HposA.
      by eapply list_elem_of_lookup_2. }
    destruct (Hcols ilam lam n k Hlam Hnk)
      as (ilast & alast & res & Hlast & Hlt & Hafter & Hres & Hlater).
    { exists i0, a0. split; [done|].
      rewrite (Horder _ _ Ha0). exact Hbelow. }
    exists ilast, alast, res. split; [done|].
    split; [by rewrite <- (Horder _ _ Hlast)|]. split.
    { intros i a Ha Hi. rewrite <- (Horder _ _ Ha). by apply (Hafter i). }
    split; [exact Hres|].
    intros i a Ha Hge. apply (Hlater i a Ha).
    by rewrite (Horder _ _ Ha).
  - intros Hget. exact (Hdisabled Hget).
Qed.

End SweepTheorem.

(** ** OpacitySweep: the sweep runs to completion *)

Lemma has_shape3_set2 {A : Type} (r c d : nat) (M : cube A) i j v :
  has_shape3 r c d M = true -> length v = d ->
  has_shape3 r c d (set2 M i j v) = true.
Proof.
  intros [Hr Hplanes]%has_shape3_spec Hv. apply has_shape3_spec.
  unfold set2. split; [by rewrite length_alter|].
  intros i' plane Hplane. rewrite list_lookup_alter in Hplane.
  case_decide; [|eauto].
  destruct (M !! i) as [plane0|] eqn:Hplane0; simpl in Hplane; [|done].
  inversion Hplane; subst.
  apply Hplanes in Hplane0 as [Hc Hcells]%has_shape2_spec.
  apply has_shape2_spec. split; [by rewrite length_insert|].
  intros j' cell Hcell.
  destruct (decide (j = j')) as [->|Hne].
  - apply lookup_lt_Some in Hcell as Hlt. rewrite length_insert in Hlt.
    rewrite list_lookup_insert_eq in Hcell by done. by inversion Hcell.
  - rewrite list_lookup_insert_ne in Hcell by done. eauto.
Qed.

Lemma has_shape3_cell {A : Type} (r c d : nat) (M : cube A) i j :
  has_shape3 r c d M = true -> (i < r)%nat -> (j < c)%nat ->
  exists cell, M !! i ≫= (.!! j) = Some cell /\ length cell = d.
Proof.
  intros [Hr Hplanes]%has_shape3_spec Hi Hj.
  destruct (lookup_lt_is_Some_2 M i) as [plane Hplane]; [lia|].
  apply Hplanes in Hplane as Hshape.
  apply has_shape2_spec in Hshape as [Hc Hcells].
  destruct (lookup_lt_is_Some_2 plane j) as [cell Hcell]; [lia|].
  exists cell. rewrite Hplane. simpl. split; [done|]. eauto.
Qed.

Lemma has_shape3_has_shape2 {A : Type} (r c d : nat) (M : cube A) :
  has_shape3 r c d M = true -> has_shape2 r c M = true.
Proof.
  intros [Hr Hplanes]%has_shape3_spec. apply has_shape2_spec.
  split; [done|]. intros i plane Hplane.
  by apply Hplanes in Hplane as [Hc _]%has_shape2_spec.
Qed.

Lemma select_length {A : Type} (mask : list bool) (X : list A) :
  (length (select mask X) <= length X)%nat.
Proof.
  revert mask; induction X as [|x X IH]; intros [|b mask]; simpl; try done.
  - unfold select. simpl. lia.
  - rewrite select_cons. specialize (IH mask). destruct b; simpl; lia.
Qed.

Section SweepTotal.

Context {T : Type} `{Dielectric T}.
Variable bhmie_function : bhmie_t.
Variable fsolve : (R -> R) -> R -> R.
Variable nang : Z.

(** The Mie routine answers on every input, with [2 nang - 1] angles. *)
Hypothesis bhmie_total : forall x m,
  exists res,
    bhmie_function x m nang = Ok res
    /\ length (S1 res) = Z.to_nat (2 * nang - 1)
    /\ length (S2 res) = Z.to_nat (2 * nang - 1).

Lemma size_body_total (r c : nat) (n k : float64) (ilam ia : nat) (x : R)
    (st : mie_arrays) :
  arrays_full r c (Z.to_nat (2 * nang - 1)) st ->
  (ia < r)%nat -> (ilam < c)%nat ->
  exists st',
    size_body bhmie_function n k nang ilam (ia, x) st = Ok st'
    /\ arrays_full r c (Z.to_nat (2 * nang - 1)) st'.
Proof.
  intros [[Hqa Hqs Hg Hs1 Hs2] Hf1 Hf2] Hia Hilam.
  destruct (bhmie_total x (n, k)) as (res & Hres & HS1 & HS2).
  destruct (has_shape3_cell _ _ _ _ ia ilam Hf1 Hia Hilam)
    as (cell1 & Hcell1 & Hlen1).
  destruct (has_shape3_cell _ _ _ _ ia ilam Hf2 Hia Hilam)
    as (cell2 & Hcell2 & Hlen2).
  unfold size_body. rewrite Hres. simpl. rewrite Hcell1, Hcell2.
  unfold assign_cell. rewrite !decide_True by congruence. simpl.
  eexists. split; [reflexivity|].
  split; [split|..]; simpl;
    try (by apply has_shape2_set2);
    try (by apply has_shape3_set2).
Qed.

Lemma size_loop_total (r c : nat) (n k : float64) (ilam : nat) (Xc : list R) :
  forall (o : nat) (st : mie_arrays),
    arrays_full r c (Z.to_nat (2 * nang - 1)) st ->
    (o + length Xc <= r)%nat -> (ilam < c)%nat ->
    exists st',
      for_each (size_body bhmie_function n k nang ilam)
        (enumerate_from o Xc) st = Ok st'
      /\ arrays_full r c (Z.to_nat (2 * nang - 1)) st'.
Proof.
  induction Xc as [|x Xc IH]; intros o st Hfull Hlen Hilam.
  - exists st. done.
  - simpl in Hlen. rewrite enumerate_from_cons. cbn [for_each].
    destruct (size_body_total r c n k ilam o x st Hfull ltac:(lia) Hilam)
      as (st1 & Hst1 & Hfull1).
    rewrite Hst1. simpl. apply IH; try done. lia.
Qed.

Lemma converging_length (ext : bool) (n k : float64) (X : list R) :
  X <> [] -> (1 <= length (converging fsolve ext n k X) <= length X)%nat.
Proof.
  intros HX. unfold converging.
  match goal with |- context [select ?m X] =>
    pose proof (select_length m X) as Hsel;
    destruct (select m X) as [|y Y] eqn:Hs
  end.
  - destruct X; [done|]. simpl. lia.
  - simpl in *. lia.
Qed.

Lemma wavelength_body_total (r c : nat) (A : list R) (diel_constants : T)
    (ext : bool) (ilam : nat) (lam : R) (st : mie_arrays) :
  arrays_full r c (Z.to_nat (2 * nang - 1)) st ->
  r = length A -> A <> [] -> (ilam < c)%nat -> lam <> 0 ->
  (exists n k, nk_at diel_constants lam = Ok (n, k)) ->
  exists st',
    wavelength_body bhmie_function fsolve A diel_constants nang ext
      (ilam, lam) st = Ok st'
    /\ arrays_full r c (Z.to_nat (2 * nang - 1)) st'.
Proof.
  intros Hfull Hr HA Hilam Hlam (n & k & Hnk).
  unfold wavelength_body. rewrite Hnk. simpl.
  unfold fdiv. rewrite decide_False by done. simpl.
  set (X := (fun a => 2 * PI / lam * a) <$> A).
  assert (HX : X <> []).
  { unfold X. intros Hnil. by apply fmap_nil_inv in Hnil. }
  pose proof (converging_length ext n k X HX) as [Hc1 Hc2].
  set (Xc := converging fsolve ext n k X) in *.
  assert (HlenX : length X = length A) by (unfold X; by rewrite length_fmap).
  destruct (size_loop_total r c n k ilam Xc 0 st Hfull ltac:(lia) Hilam)
    as (st1 & Hst1 & [[Hqa Hqs Hg Hs1 Hs2] Hf1 Hf2]).
  rewrite enumerate_from_0, Hst1. simpl.
  destruct (proj2 (has_shape2_at2 r c (q_abs st1) (length Xc - 1) ilam Hqa))
    as [va Hva]; [lia|].
  destruct (proj2 (has_shape2_at2 r c (q_sca st1) (length Xc - 1) ilam Hqs))
    as [vs Hvs]; [lia|].
  apply get2_Ok in Hva, Hvs. rewrite Hva, Hvs. simpl.
  eexists. split; [reflexivity|].
  split; [split|..]; simpl; try done; by apply has_shape2_set_col_from.
Qed.

Lemma sweep_loop_total (r c : nat) (A : list R) (diel_constants : T)
    (ext : bool) (LAM : list R) :
  r = length A -> A <> [] ->
  Forall (fun lam => lam <> 0
                     /\ exists n k, nk_at diel_constants lam = Ok (n, k))
    LAM ->
  forall (o : nat) (st : mie_arrays),
    arrays_full r c (Z.to_nat (2 * nang - 1)) st ->
    (o + length LAM <= c)%nat ->
    exists st',
      for_each (wavelength_body bhmie_function fsolve A diel_constants nang
                  ext) (enumerate_from o LAM) st = Ok st'.
Proof.
  intros Hr HA HLAM.
  induction HLAM as [|lam LAM [Hlam Hnk] _ IH]; intros o st Hfull Hlen.
  - by exists st.
  - simpl in Hlen. rewrite enumerate_from_cons. cbn [for_each].
    destruct (wavelength_body_total r c A diel_constants ext o lam st
                Hfull Hr HA ltac:(lia) Hlam Hnk) as (st1 & Hst1 & Hfull1).
    rewrite Hst1. simpl. apply IH; [done|lia].
Qed.

(** On non-empty grids of non-zero wavelengths that the dielectric model
    covers, and with at least one angle, the sweep returns a package. *)
Lemma get_mie_coefficients_total (A LAM : list R) (diel_constants : T)
    (return_all ext : bool) :
  A <> [] -> LAM <> [] -> (1 <= nang)%Z ->
  Forall (fun lam => lam <> 0
                     /\ exists n k, nk_at diel_constants lam = Ok (n, k))
    LAM ->
  exists pkg ws,
    get_mie_coefficients bhmie_function fsolve A LAM diel_constants nang
      return_all ext = Ok (pkg, ws).
Proof.
  intros HA HL Hnang HLAM. unfold get_mie_coefficients.
  rewrite decide_False by lia. cbv zeta.
  destruct (np_min_Ok LAM HL) as (lmin & Hmin).
  destruct (np_max_Ok A HA) as (amax & Hmax).
  rewrite Hmin, Hmax, !Ok_bind.
  assert (Hlmin : lmin <> 0).
  { apply np_min_spec in Hmin as [Hin _].
    rewrite Forall_forall in HLAM. by destruct (HLAM _ Hin). }
  unfold fdiv. rewrite (decide_False (P := lmin = 0)) by done.
  rewrite Ok_bind.
  destruct (sweep_loop_total (length A) (length LAM) A diel_constants ext
              LAM eq_refl HA HLAM 0
              {| q_abs := np_zeros2 (length A) (length LAM);
                 q_sca := np_zeros2 (length A) (length LAM);
                 g_sca := np_zeros2 (length A) (length LAM);
                 s_1 := np_zeros3 (length A) (length LAM)
                          (Z.to_nat (2 * nang - 1));
                 s_2 := np_zeros3 (length A) (length LAM)
                          (Z.to_nat (2 * nang - 1)) |})
    as (st' & Hst').
  { split; [split|..]; simpl;
      try apply has_shape2_replicate; apply has_shape3_replicate. }
  { lia. }
  rewrite enumerate_from_0, Hst', Ok_bind.
  unfold np_linspace.
  rewrite (decide_False (P := (2 * nang - 1 < 0)%Z)) by lia.
  rewrite Ok_bind. eauto.
Qed.

End SweepTotal.

(** ** OpacitySweep: a sample sweep *)

Lemma size_parameter_unit (a : R) : size_parameter (2 * PI) a = a.
Proof. unfold size_parameter. field. apply PI_neq0. Qed.

Lemma fpow_1 (y : R) : fpow 1 y = 1.
Proof. unfold fpow, Rpower. rewrite ln_1, Rmult_0_r. apply exp_0. Qed.

(** Size parameter 1 in vacuum needs 22 terms. *)
Lemma nmx_of_unit : nmx_of 1 1 0 = 22%Z.
Proof.
  unfold nmx_of. rewrite fpow_1.
  assert (HY : Cabs (Cscale 1 (1, 0)) = 1).
  { unfold Cabs, Cscale; simpl.
    replace (1 * 1 * (1 * 1) + 1 * 0 * (1 * 0)) with 1 by ring.
    apply sqrt_1. }
  rewrite HY.
  replace (1 + 4 * 1 + 2) with 7 by ring.
  rewrite Rmax_left by lra.
  unfold astype_int. rewrite decide_True by lra.
  by rewrite Int_part_IZR.
Qed.

(** The recursion order is at least the size parameter plus 17. *)
Lemma nmx_of_lower (z : Z) (n k : R) :
  (0 <= z)%Z -> (z + 17 <= nmx_of (IZR z) n k)%Z.
Proof.
  intros Hz. unfold nmx_of.
  assert (Hle : IZR (z + 2) <= Rmax (IZR z + 4 * fpow (IZR z) 0.333333 + 2)
                                 (Cabs (Cscale (IZR z) (n, k)))).
  { rewrite plus_IZR. pose proof (xstop_lower (IZR z)).
    etransitivity; [|apply Rmax_l]. lra. }
  apply astype_int_mono in Hle; [|apply IZR_le; lia].
  unfold astype_int at 1 in Hle.
  rewrite decide_True in Hle by (apply IZR_le; lia).
  rewrite Int_part_IZR in Hle. lia.
Qed.

Lemma sample_bhmie_total (nang : Z) :
  forall x m,
  exists res,
    sample_bhmie x m nang = Ok res
    /\ length (S1 res) = Z.to_nat (2 * nang - 1)
    /\ length (S2 res) = Z.to_nat (2 * nang - 1).
Proof.
  intros x m. eexists. split; [reflexivity|].
  simpl. by rewrite !length_replicate.
Qed.

Lemma large_grain_extrapolation_witness :
  (exists pkg ws,
     get_mie_coefficients sample_bhmie sample_fsolve [1; 200000] [2 * PI]
       Vacuum 3 false true = Ok (pkg, ws)
     /\ ws = []
     /\ at2 (pkg_q_abs pkg) 1 0 = Some 1
     /\ at2 (pkg_q_sca pkg) 1 0 = Some 2
     /\ at2 (pkg_g pkg) 1 0
        = Some (0.3 * 200000 ^ 2 / (1 + 0.3 * 200000 ^ 2)))
  /\
  (exists pkg ws,
     get_mie_coefficients sample_bhmie sample_fsolve [1; 200000] [2 * PI]
       Vacuum 3 false false = Ok (pkg, ws)
     /\ at2 (pkg_q_abs pkg) 1 0 = Some 1
     /\ at2 (pkg_q_sca pkg) 1 0 = Some 2
     /\ at2 (pkg_g pkg) 1 0 = Some 0.5).
Proof.
  assert (Hcover : Forall (fun lam => lam <> 0
                     /\ exists n k, nk_at Vacuum lam = Ok (n, k)) [2 * PI]).
  { repeat constructor; [apply Rmult_integral_contrapositive_currified;
                           [lra|apply PI_neq0]|].
    by exists 1, 0. }
  split.
  - destruct (get_mie_coefficients_total sample_bhmie sample_fsolve 3
                (sample_bhmie_total 3) [1; 200000] [2 * PI] Vacuum false true)
      as (pkg & ws & Hget); try done.
    exists pkg, ws. split; [exact Hget|].
    destruct (large_grain_extrapolation sample_bhmie sample_fsolve
                [1; 200000] [2 * PI] Vacuum 3 false pkg ws) as [Henabled _].
    destruct Henabled as [Hws Hcols]; try done.
    { simpl. lra. }
    { repeat constructor; lra. }
    { repeat constructor. pose proof PI_RGT_0. lra. }
    split; [exact Hws|].
    destruct (Hcols 0%nat (2 * PI) 1 0 eq_refl eq_refl)
      as (ilast & alast & res & _ & _ & _ & Hres & Hlater).
    { exists 0%nat, 1. split; [done|].
      change (2 * PI / (2 * PI) * 1) with (size_parameter (2 * PI) 1).
      rewrite <- (nmx_of_formula (size_parameter (2 * PI) 1) 1 0)
        by (rewrite size_parameter_unit; lra).
      rewrite size_parameter_unit, nmx_of_unit. done. }
    inversion Hres; subst res; clear Hres.
    destruct (Hlater 1%nat 200000 eq_refl) as (Habs & Hsca & Hg).
    { change (2 * PI / (2 * PI) * 200000)
        with (size_parameter (2 * PI) 200000).
      rewrite <- (nmx_of_formula (size_parameter (2 * PI) 200000) 1 0)
        by (rewrite size_parameter_unit; lra).
      rewrite size_parameter_unit.
      pose proof (nmx_of_lower 200000 1 0 ltac:(done)). lia. }
    change (2 * PI / (2 * PI) * 200000)
      with (size_parameter (2 * PI) 200000) in Hg.
    rewrite size_parameter_unit in Hg. done.
  - destruct (get_mie_coefficients_total sample_bhmie sample_fsolve 3
                (sample_bhmie_total 3) [1; 200000] [2 * PI] Vacuum false
                false) as (pkg & ws & Hget); try done.
    exists pkg, ws. split; [exact Hget|].
    destruct (large_grain_extrapolation sample_bhmie sample_fsolve
                [1; 200000] [2 * PI] Vacuum 3 false pkg ws) as [_ Hdisabled].
    destruct (Hdisabled Hget) as [_ Hall].
    destruct (Hall 1%nat 0%nat 200000 (2 * PI) eq_refl eq_refl)
      as (n & k & res & _ & Hres & Habs & Hsca & Hg).
    inversion Hres; subst res; clear Hres. done.
Defined.

Lemma two_pi_bounds : 1 <= 2 * PI <= 10.
Proof. pose proof PI_4. pose proof PI2_3_2. lra. Qed.

(** Below its square root, the power that the order estimate takes. *)
Lemma fpow_third_le_sqrt (x : R) : 1 < x -> fpow x 0.333333 <= sqrt x.
Proof.
  intros Hx. rewrite <- Rpower_sqrt by lra. unfold fpow.
  apply Rle_Rpower; lra.
Qed.

(** A size whose own recursion order reaches the threshold, because of
    its refractive index [2 + i], swept with the extrapolation disabled
    and without any warning: the order estimated before the loops looks at
    the size parameter alone. *)
Lemma large_order_without_warning :
  let x := 2 * PI / (2 * PI) * 100000 in
  nk_at (sample_table 2 1) (2 * PI) = Ok (2, 1)
  /\ (200000
      <= Int_part (Rmax (x + 4 * Rpower x 0.333333 + 2)
                     (sqrt ((x * 2) ^ 2 + (x * 1) ^ 2))) + 15)%Z
  /\ exists pkg,
       get_mie_coefficients sample_bhmie sample_fsolve [100000] [2 * PI]
         (sample_table 2 1) 3 false false = Ok (pkg, []).
Proof.
  intros x. pose proof two_pi_bounds as Hpi.
  assert (Hx : x = 100000) by (unfold x; field; lra).
  assert (Hnk : nk_at (sample_table 2 1) (2 * PI) = Ok (2, 1)).
  { unfold nk_at, diel_const_dielectric. apply nk_sample_table; lra. }
  split; [exact Hnk|]. split.
  - rewrite Hx.
    assert (Hle : IZR 200000
                  <= Rmax (100000 + 4 * Rpower 100000 0.333333 + 2)
                       (sqrt ((100000 * 2) ^ 2 + (100000 * 1) ^ 2))).
    { etransitivity; [|apply Rmax_r].
      rewrite <- (sqrt_square 200000) at 1 by lra.
      apply sqrt_le_1_alt. lra. }
    apply Int_part_mono in Hle. rewrite Int_part_IZR in Hle. lia.
  - destruct (get_mie_coefficients_total sample_bhmie sample_fsolve 3
                (sample_bhmie_total 3) [100000] [2 * PI] (sample_table 2 1)
                false false) as (pkg & ws & Hget); try done.
    { repeat constructor; [lra|]. eauto. }
    exists pkg.
    destruct (get_mie_coefficients_columns sample_bhmie sample_fsolve _ _ _ _
                _ _ _ _ Hget) as (_ & (lam_min & a_max & Hmin & Hmax & Hws) & _).
    simpl in Hmin, Hmax. inversion Hmin; inversion Hmax; subst lam_min a_max.
    rewrite decide_False in Hws; [by rewrite Hget, Hws|].
    unfold order_estimate. rewrite size_parameter_unit.
    pose proof (fpow_third_le_sqrt 100000 ltac:(lra)) as Hpow.
    assert (Hsqrt : sqrt 100000 <= 1000).
    { rewrite <- (sqrt_square 1000) by lra. apply sqrt_le_1_alt. lra. }
    lra.
Qed.

(** ** Further consequences *)

Lemma Csqrt_zero : Csqrt (RtoC 0) = (0, 0).
Proof.
  unfold Csqrt, RtoC, Cabs; simpl.
  replace (0 * 0 + 0 * 0) with 0 by ring. rewrite sqrt_0.
  replace ((0 + 0) / 2) with 0 by field.
  replace ((0 - 0) / 2) with 0 by field.
  rewrite sqrt_0, decide_True by lra. f_equal. ring.
Qed.

(** What the early [return] means for a caller: the second wavelength lies
    outside both tables, where [diel_const.nk] raises, yet the mixture
    answers, with the root of the unwritten slot in second place. *)
Lemma nk_mixed_skips_later_wavelengths :
  nk (sample_table 2 1) 1000 = Raise OutOfRange
  /\ nk_mixed sample_no_root sample_uninit
       (sample_pair "Maxwell-Garnett" 2 1) [5; 1000]
     = Ok (Some ([2; 0], [1; 0])).
Proof.
  split.
  - unfold nk. rewrite decide_True; [done|]. right. simpl. lra.
  - rewrite nk_mixed_cons. unfold first_pass.
    rewrite (maxwell_garnett_pair_eps sample_no_root (sample_table 2 1)
               (sample_table 2 1) "Maxwell-Garnett" false 5 2 1);
      [|reflexivity|apply nk_sample_table; lra|apply nk_sample_table; lra
       |intros [= ? ?]; lra].
    rewrite Ok_bind. unfold sample_uninit.
    cbn [default length seq Nat.sub fmap list_fmap]. unfold Datatypes.id.
    rewrite Csqrt_square_right by (left; lra). by rewrite Csqrt_zero.
Qed.

Lemma any_nonpositive_app (xs ys : list R) :
  any_nonpositive (xs ++ ys) = any_nonpositive xs || any_nonpositive ys.
Proof. unfold any_nonpositive. apply existsb_app. Qed.

Lemma any_nonpositive_true (xs : list R) :
  any_nonpositive xs = true <-> exists x, x ∈ xs /\ x <= 0.
Proof.
  unfold any_nonpositive. rewrite existsb_exists. split.
  - intros (x & Hin & Hx). exists x. split; [by apply list_elem_of_In|].
    by apply bool_decide_eq_true in Hx.
  - intros (x & Hin & Hx). exists x. split; [by apply list_elem_of_In|].
    by apply bool_decide_eq_true.
Qed.

(** New samples that are positive, or copies of an old sample, do not
    change whether the table holds some [n <= 0]. *)
Lemma any_nonpositive_extend (n n_ext : list R) :
  Forall (fun v => 0 < v \/ exists x, x ∈ n /\ v = x * 1) n_ext ->
  any_nonpositive (n ++ n_ext) = any_nonpositive n
  /\ any_nonpositive (n_ext ++ n) = any_nonpositive n.
Proof.
  intros Hext.
  assert (Himp : any_nonpositive n_ext = true -> any_nonpositive n = true).
  { intros (v & Hv & Hle)%any_nonpositive_true.
    rewrite Forall_forall in Hext.
    destruct (Hext v Hv) as [Hpos|(x & Hx & ->)]; [lra|].
    apply any_nonpositive_true. exists x. split; [done|lra]. }
  rewrite !any_nonpositive_app.
  destruct (any_nonpositive n_ext), (any_nonpositive n); simpl; try done;
    by specialize (Himp eq_refl).
Qed.

Lemma last_item_elem (xs : list R) (x : R) : last_item xs = Ok x -> x ∈ xs.
Proof.
  unfold last_item. destruct (last xs) as [y|] eqn:Hlast; [|done].
  intros [= <-]. rewrite last_lookup in Hlast.
  by eapply list_elem_of_lookup_2.
Qed.

Lemma first_item_elem (xs : list R) (x : R) : first_item xs = Ok x -> x ∈ xs.
Proof. destruct xs; [done|]. intros [= <-]. left. Qed.

Section ExtensionKeepsInvariant.

Variable curve_fit : curve_fit_t.

Lemma fit_and_extend_pos f l_fit y_fit p0 l_ext y :
  fit_and_extend curve_fit f l_fit y_fit p0 l_ext = Ok y ->
  Forall (fun v => 0 < v) y.
Proof.
  intros Hy. unfold fit_and_extend in Hy.
  bind_inv Hy. bind_inv Hy. inversion Hy; subst y.
  apply Forall_fmap, Forall_forall. intros x _. apply pow10_pos.
Qed.

Lemma samples_up_sign self lmin lmax n kind l_ext n_ext k_ext :
  samples_up curve_fit self lmin lmax n kind = Ok (l_ext, n_ext, k_ext) ->
  Forall (fun v => 0 < v \/ exists x, x ∈ _n self /\ v = x * 1) n_ext.
Proof.
  intros Hs. unfold samples_up in Hs.
  bind_inv Hs. bind_inv Hs. case_decide.
  - bind_inv Hs. bind_inv Hs. inversion Hs; subst; clear Hs.
    apply Forall_fmap, Forall_forall. intros x _. right.
    exists v1. split; [by apply last_item_elem|done].
  - bind_inv Hs. destruct v1 as [[f p0_n] p0_k].
    bind_inv Hs. bind_inv Hs. bind_inv Hs. inversion Hs; subst; clear Hs.
    apply fit_and_extend_pos in Hv3.
    eapply Forall_impl; [exact Hv3|]. intros x Hx. by left.
Qed.

Lemma samples_down_sign self lmin lmax n kind l_ext n_ext k_ext :
  samples_down curve_fit self lmin lmax n kind = Ok (l_ext, n_ext, k_ext) ->
  Forall (fun v => 0 < v \/ exists x, x ∈ _n self /\ v = x * 1) n_ext.
Proof.
  intros Hs. unfold samples_down in Hs.
  bind_inv Hs. bind_inv Hs. case_decide.
  - bind_inv Hs. bind_inv Hs. inversion Hs; subst; clear Hs.
    apply Forall_fmap, Forall_forall. intros x _. right.
    exists v1. split; [by apply first_item_elem|done].
  - bind_inv Hs. destruct v1 as [[f p0_n] p0_k].
    bind_inv Hs. bind_inv Hs. bind_inv Hs. inversion Hs; subst; clear Hs.
    apply fit_and_extend_pos in Hv3.
    eapply Forall_impl; [exact Hv3|]. intros x Hx. by left.
Qed.

Lemma update_attributes_table_ok self l' n' k' self' :
  update_attributes self l' n' k' = (self', Ok ()) ->
  length n' = length l' -> length k' = length l' ->
  _has_negative_n self = any_nonpositive n' ->
  table_ok self'.
Proof.
  unfold update_attributes.
  destruct (np_min l') as [lo|] eqn:Hlo; [|by intros [=]].
  destruct (np_max l') as [hi|]; [|by intros [=]].
  destruct (material_str self); intros [= <-] Hn Hk Hflag;
    split; simpl; try done.
  intros ->. discriminate.
Qed.

(** Both extrapolation methods keep the class invariant, so [nk] reads an
    extended table the way it reads a freshly built one. *)
Lemma extrapolation_keeps_table_ok self lmin lmax n kind self' :
  table_ok self ->
  extrapolate_constants_up curve_fit self lmin lmax n kind = (self', Ok ())
  \/ extrapolate_constants_down curve_fit self lmin lmax n kind
     = (self', Ok ()) ->
  table_ok self'.
Proof.
  intros [Hne Hn Hk Hll Hln Hlk Hflag] [Hup|Hdown].
  - unfold extrapolate_constants_up in Hup.
    destruct (samples_up _ _ _ _ _ _) as [[[l_ext n_ext] k_ext]|e] eqn:Hs;
      [|by inversion Hup].
    pose proof (samples_up_spec _ _ _ _ _ _ _ _ _ Hs) as (_ & Hln' & Hlk' & _).
    pose proof (samples_up_sign _ _ _ _ _ _ _ _ Hs) as Hsign.
    apply any_nonpositive_extend in Hsign as [Hany _].
    eapply update_attributes_table_ok; [exact Hup|..]; simpl in *.
    + rewrite !length_app. lia.
    + rewrite !length_app. lia.
    + by rewrite Hany.
  - unfold extrapolate_constants_down in Hdown.
    destruct (samples_down _ _ _ _ _ _) as [[[l_ext n_ext] k_ext]|e] eqn:Hs;
      [|by inversion Hdown].
    pose proof (samples_down_spec _ _ _ _ _ _ _ _ _ Hs)
      as (_ & Hln' & Hlk' & _).
    pose proof (samples_down_sign _ _ _ _ _ _ _ _ Hs) as Hsign.
    apply any_nonpositive_extend in Hsign as [_ Hany].
    eapply update_attributes_table_ok; [exact Hdown|..]; simpl in *.
    + rewrite !length_app. lia.
    + rewrite !length_app. lia.
    + by rewrite Hany.
Qed.

End ExtensionKeepsInvariant.

(** * Further properties of the code *)

(** ** [diel_const.nk]: what the interpolation returns *)

Lemma increasing_lookup (xs : list R) (i j : nat) (x y : R) :
  increasing xs -> (i < j)%nat ->
  xs !! i = Some x -> xs !! j = Some y -> x < y.
Proof.
  revert i j x y; induction xs as [|x0 xs IH]; intros i j x y Hinc Hij Hi Hj.
  - by rewrite lookup_nil in Hi.
  - assert (Htail : increasing xs) by (destruct xs; [done|]; by destruct Hinc).
    assert (Hhead : forall m z, xs !! m = Some z -> x0 < z).
    { intros m z Hm. destruct xs as [|x1 xs]; [by rewrite lookup_nil in Hm|].
      destruct Hinc as [H01 _]. destruct m as [|m].
      - inversion Hm; by subst.
      - pose proof (IH 0%nat (S m) x1 z Htail ltac:(lia) eq_refl Hm). lra. }
    destruct i as [|i], j as [|j]; simpl in *; try lia.
    + inversion Hi; subst. eauto.
    + apply (IH i j); try done. lia.
Qed.

Lemma increasing_fmap (f : R -> R) (xs : list R) :
  (forall x y, x ∈ xs -> y ∈ xs -> x < y -> f x < f y) ->
  increasing xs -> increasing (f <$> xs).
Proof.
  induction xs as [|x0 xs IH]; intros Hf Hinc; [done|].
  destruct xs as [|x1 xs]; [done|].
  destruct Hinc as [H01 Hinc]. split.
  - apply Hf; [left|right; left|done].
  - apply IH; [|done]. intros x y Hx Hy. apply Hf; by right.
Qed.

Lemma pow10_increasing (x y : R) : x <= y -> pow10 x <= pow10 y.
Proof. intros Hxy. unfold pow10. apply Rle_Rpower; lra. Qed.

(** At a sample point of an increasing grid the interpolation returns the
    sample. *)
Lemma piecewise_linear_node (xp fp : list R) (i : nat) (x f : R) :
  increasing xp -> xp !! i = Some x -> fp !! i = Some f ->
  piecewise_linear x xp fp = f.
Proof.
  intros Hinc Hx Hf.
  assert (Hfrom : forall xp fp i, increasing xp ->
            xp !! i = Some x -> fp !! i = Some f -> interp_from x xp fp = f).
  { clear. intros xp. induction xp as [|x0 xp IH]; intros fp i Hinc Hx Hf.
    - by rewrite lookup_nil in Hx.
    - destruct fp as [|f0 fp]; [by rewrite lookup_nil in Hf|].
      destruct i as [|i]; simpl in Hx, Hf.
      + inversion Hx; inversion Hf; subst. simpl.
        destruct xp as [|x1 xp]; [done|]. destruct fp as [|f1 fp]; [done|].
        destruct Hinc as [H01 _]. rewrite decide_True by done.
        unfold Rdiv. ring.
      + destruct xp as [|x1 xp]; [by rewrite lookup_nil in Hx|].
        destruct fp as [|f1 fp]; [by rewrite lookup_nil in Hf|].
        destruct Hinc as [H01 Hinc].
        assert (Hge : x1 <= x).
        { destruct i as [|i]; simpl in Hx; [inversion Hx; lra|].
          pose proof (increasing_lookup (x1 :: xp) 0 (S i) x1 x Hinc
                        ltac:(lia) eq_refl Hx). lra. }
        change (interp_from x (x0 :: x1 :: xp) (f0 :: f1 :: fp))
          with (if decide (x < x1)
                then (f1 - f0) / (x1 - x0) * (x - x0) + f0
                else interp_from x (x1 :: xp) (f1 :: fp)).
        rewrite decide_False by lra. by apply (IH _ i). }
  unfold piecewise_linear.
  destruct xp as [|x0 xp]; [by rewrite lookup_nil in Hx|].
  destruct fp as [|f0 fp]; [by rewrite lookup_nil in Hf|].
  case_decide as Hlt; [|by apply (Hfrom _ _ i)].
  destruct i as [|i]; simpl in Hx; [inversion Hx; lra|].
  pose proof (increasing_lookup (x0 :: xp) 0 (S i) x0 x Hinc
                ltac:(lia) eq_refl Hx). lra.
Qed.

(** The interpolation never leaves the range of the samples. *)
Lemma piecewise_linear_bounds (lo hi x : R) (xp fp : list R) :
  xp <> [] -> length fp = length xp ->
  Forall (fun f => lo <= f <= hi) fp ->
  lo <= piecewise_linear x xp fp <= hi.
Proof.
  intros Hne Hlen Hfp.
  assert (Hfrom : forall xp fp, length fp = length xp ->
            Forall (fun f => lo <= f <= hi) fp ->
            (forall x0, head xp = Some x0 -> x0 <= x) -> xp <> [] ->
            lo <= interp_from x xp fp <= hi).
  { clear. intros xp. induction xp as [|x0 xp IH];
      intros fp Hlen Hfp Hx Hne; [done|].
    destruct fp as [|f0 fp]; [done|].
    inversion Hfp as [|? ? Hf0 Hfp']; subst.
    destruct xp as [|x1 xp]; [by simpl|].
    destruct fp as [|f1 fp]; [done|].
    inversion Hfp' as [|? ? Hf1 _]; subst.
    change (interp_from x (x0 :: x1 :: xp) (f0 :: f1 :: fp))
      with (if decide (x < x1)
            then (f1 - f0) / (x1 - x0) * (x - x0) + f0
            else interp_from x (x1 :: xp) (f1 :: fp)).
    case_decide as Hlt.
    - pose proof (Hx x0 eq_refl) as Hx0.
      set (t := (x - x0) / (x1 - x0)).
      assert (Ht : 0 <= t <= 1).
      { unfold t. split.
        - apply Rmult_le_pos; [lra|]. left. apply Rinv_0_lt_compat. lra.
        - apply (Rmult_le_reg_r (x1 - x0)); [lra|].
          unfold Rdiv. rewrite Rmult_assoc, Rinv_l by lra. lra. }
      replace ((f1 - f0) / (x1 - x0) * (x - x0) + f0)
        with (f1 * t + f0 * (1 - t)) by (unfold t; field; lra).
      assert (0 <= t * (f1 - lo)) by (apply Rmult_le_pos; lra).
      assert (0 <= (1 - t) * (f0 - lo)) by (apply Rmult_le_pos; lra).
      assert (0 <= t * (hi - f1)) by (apply Rmult_le_pos; lra).
      assert (0 <= (1 - t) * (hi - f0)) by (apply Rmult_le_pos; lra).
      lra.
    - apply IH; try done.
      + simpl in Hlen. simpl. lia.
      + intros y [= <-]. lra. }
  unfold piecewise_linear.
  destruct xp as [|x0 xp]; [done|]. destruct fp as [|f0 fp]; [done|].
  case_decide as Hlt.
  - by inversion Hfp.
  - apply Hfrom; try done. intros y [= <-]. lra.
Qed.

Lemma log10_le (x y : R) : 0 < x -> x <= y -> log10 x <= log10 y.
Proof.
  intros Hx [Hlt| ->]; [|lra]. left. by apply log10_increasing.
Qed.

(** [nk] on a well-formed table and a wavelength in range, spelled out. *)
Lemma nk_in_range_value (self : diel_const) (l : R) :
  table_ok self -> _lmin self <= l <= _lmax self ->
  nk self l
  = Ok (if any_nonpositive (_n self) &&
           bool_decide (piecewise_linear l (_l self) (_n self) < 0)
        then Fin (piecewise_linear l (_l self) (_n self))
        else float_pow10 (interp_float (np_log10 l) (np_log10 <$> _l self)
                            (np_log10 <$> _n self)),
        float_pow10 (interp_float (np_log10 l) (np_log10 <$> _l self)
                       (np_log10 <$> _k self))).
Proof.
  intros [Hne Hn Hk Hll Hln Hlk Hflag] [Hlo Hhi].
  unfold nk.
  rewrite decide_False by (intros [?|?]; lra).
  rewrite Hll, Hln, Hlk, Hflag.
  assert (Hne' : np_log10 <$> _l self <> [])
    by (intros Heq; by apply fmap_nil_inv in Heq).
  rewrite (np_interp_Ok l) by done.
  rewrite !(np_interp_float_Ok (np_log10 l))
    by (done || by rewrite !length_fmap).
  destruct (any_nonpositive (_n self)); simpl; [|done].
  by case_decide; [rewrite bool_decide_eq_true_2|rewrite bool_decide_eq_false_2].
Qed.

(** The logarithms of positive wavelengths are finite and keep their
    order. *)
Lemma np_log10_fmap (xs : list R) :
  Forall (fun x => 0 < x) xs -> np_log10 <$> xs = Fin <$> (log10 <$> xs).
Proof.
  induction 1 as [|x xs Hx _ IH]; [done|].
  rewrite !fmap_cons, IH. by rewrite np_log10_pos.
Qed.

Lemma log10_grid_increasing (xs : list R) :
  increasing xs -> Forall (fun x => 0 < x) xs -> increasing (log10 <$> xs).
Proof.
  intros Hinc Hpos. apply increasing_fmap; [|done]. intros x y Hx _ Hxy.
  rewrite Forall_forall in Hpos. apply log10_increasing; auto.
Qed.

(** *** The bracket search on an increasing grid *)

Lemma interp_scan_cons (x x0 x1 : float64) (xp : list float64)
    (f0 f1 : float64) (fp : list float64) :
  interp_scan x (x0 :: x1 :: xp) (f0 :: f1 :: fp)
  = if float_le x1 x then interp_scan x (x1 :: xp) (f1 :: fp)
    else if float_eq x0 x then f0 else interp_segment x x0 x1 f0 f1.
Proof. reflexivity. Qed.

Lemma increasing_tail (x0 : R) (xs : list R) :
  increasing (x0 :: xs) -> increasing xs.
Proof. destruct xs; [done|]. by intros [_ ?]. Qed.

Lemma increasing_head_le (x0 : R) (xs : list R) (i : nat) (x : R) :
  increasing (x0 :: xs) -> (x0 :: xs) !! i = Some x -> x0 <= x.
Proof.
  intros Hinc Hx. destruct i as [|i]; [inversion Hx; lra|].
  pose proof (increasing_lookup (x0 :: xs) 0 (S i) x0 x Hinc
                ltac:(lia) eq_refl Hx). lra.
Qed.

Lemma increasing_le_last (xs : list R) (i : nat) (x xl : R) :
  increasing xs -> xs !! i = Some x -> last xs = Some xl -> x <= xl.
Proof.
  intros Hinc Hx Hl. rewrite last_lookup in Hl.
  apply lookup_lt_Some in Hx as Hlt.
  destruct (decide (i = Nat.pred (length xs))) as [->|Hne].
  - rewrite Hx in Hl. inversion Hl. lra.
  - pose proof (increasing_lookup xs i (Nat.pred (length xs)) x xl Hinc
                  ltac:(lia) Hx Hl). lra.
Qed.

(** At a sample point the scan returns the sample, whatever its
    neighbours hold. *)
Lemma interp_scan_node (xs : list R) (fp : list float64) (i : nat) (x : R)
    (f : float64) :
  increasing xs -> xs !! i = Some x -> fp !! i = Some f ->
  interp_scan (Fin x) (Fin <$> xs) fp = f.
Proof.
  revert fp i. induction xs as [|x0 xs IH]; intros fp i Hinc Hx Hf.
  - by rewrite lookup_nil in Hx.
  - destruct fp as [|f0 fp]; [by rewrite lookup_nil in Hf|].
    destruct i as [|i]; simpl in Hx, Hf.
    + inversion Hx; inversion Hf; subst.
      destruct xs as [|x1 xs]; [done|]. destruct fp as [|f1 fp]; [done|].
      destruct Hinc as [H01 _]. rewrite !fmap_cons, interp_scan_cons.
      cbn [float_le float_eq].
      rewrite bool_decide_eq_false_2 by lra.
      by rewrite bool_decide_eq_true_2.
    + destruct xs as [|x1 xs]; [by rewrite lookup_nil in Hx|].
      destruct fp as [|f1 fp]; [by rewrite lookup_nil in Hf|].
      pose proof (increasing_tail _ _ Hinc) as Htail.
      pose proof (increasing_head_le _ _ _ _ Htail Hx) as Hge.
      rewrite !fmap_cons, interp_scan_cons. cbn [float_le].
      rewrite bool_decide_eq_true_2 by done.
      rewrite <- (fmap_cons Fin). by apply (IH _ i).
Qed.

(** Strictly inside a bracket the scan returns the segment of that
    bracket. *)
Lemma interp_scan_bracket (xs : list R) (fp : list float64) (j : nat)
    (x x0 x1 : R) (f0 f1 : float64) :
  increasing xs ->
  xs !! j = Some x0 -> xs !! S j = Some x1 ->
  fp !! j = Some f0 -> fp !! S j = Some f1 ->
  x0 < x < x1 ->
  interp_scan (Fin x) (Fin <$> xs) fp = interp_segment x x0 x1 f0 f1.
Proof.
  revert fp j. induction xs as [|a xs IH]; intros fp j Hinc Hx0 Hx1 Hf0 Hf1 Hx.
  - by rewrite lookup_nil in Hx0.
  - destruct fp as [|fa fp]; [by rewrite lookup_nil in Hf0|].
    destruct xs as [|b xs]; [by rewrite lookup_cons, lookup_nil in Hx1|].
    destruct fp as [|fb fp]; [by rewrite lookup_cons, lookup_nil in Hf1|].
    rewrite !fmap_cons, interp_scan_cons. cbn [float_le float_eq].
    pose proof (increasing_tail _ _ Hinc) as Htail.
    destruct j as [|j]; simpl in Hx0, Hx1, Hf0, Hf1.
    + inversion Hx0; inversion Hx1; inversion Hf0; inversion Hf1; subst.
      rewrite !bool_decide_eq_false_2 by lra. done.
    + pose proof (increasing_head_le _ _ _ _ Htail Hx0) as Hge.
      rewrite bool_decide_eq_true_2 by lra.
      rewrite <- (fmap_cons Fin). by apply (IH _ j).
Qed.

(** A query between the first and the last sample goes to the scan. *)
Lemma interp_float_inside (xs : list R) (fp : list float64) (x x0 xl : R) :
  head xs = Some x0 -> last xs = Some xl -> x0 <= x <= xl ->
  fp <> [] ->
  interp_float (Fin x) (Fin <$> xs) fp = interp_scan (Fin x) (Fin <$> xs) fp.
Proof.
  intros Hhead Hlast Hx Hfp.
  destruct xs as [|a xs]; [done|]. destruct fp as [|fa fp]; [done|].
  inversion Hhead; subst a.
  destruct xs as [|b xs]; [done|].
  rewrite !fmap_cons. unfold interp_float. rewrite <- !(fmap_cons Fin).
  rewrite fmap_last, Hlast. simpl.
  rewrite !bool_decide_eq_false_2 by lra. done.
Qed.

Lemma interp_float_node (xs : list R) (fp : list float64) (i : nat) (x : R)
    (f : float64) :
  increasing xs -> xs !! i = Some x -> fp !! i = Some f ->
  interp_float (Fin x) (Fin <$> xs) fp = f.
Proof.
  intros Hinc Hx Hf.
  destruct xs as [|x0 xs]; [by rewrite lookup_nil in Hx|].
  destruct (last (x0 :: xs)) as [xl|] eqn:Hlast;
    [|by apply last_None in Hlast].
  rewrite (interp_float_inside _ _ x x0 xl); try done.
  - by apply (interp_scan_node _ _ i).
  - split; [by eapply increasing_head_le|by eapply increasing_le_last].
  - intros ->. by rewrite lookup_nil in Hf.
Qed.

Lemma interp_float_bracket (xs : list R) (fp : list float64) (j : nat)
    (x x0 x1 : R) (f0 f1 : float64) :
  increasing xs ->
  xs !! j = Some x0 -> xs !! S j = Some x1 ->
  fp !! j = Some f0 -> fp !! S j = Some f1 ->
  x0 < x < x1 ->
  interp_float (Fin x) (Fin <$> xs) fp = interp_segment x x0 x1 f0 f1.
Proof.
  intros Hinc Hx0 Hx1 Hf0 Hf1 Hx.
  destruct xs as [|a xs]; [by rewrite lookup_nil in Hx0|].
  destruct (last (a :: xs)) as [xl|] eqn:Hlast;
    [|by apply last_None in Hlast].
  rewrite (interp_float_inside _ _ x a xl); try done.
  - by apply (interp_scan_bracket _ _ j).
  - pose proof (increasing_head_le _ _ _ _ Hinc Hx0).
    pose proof (increasing_le_last _ _ _ _ Hinc Hx1 Hlast). lra.
  - intros ->. by rewrite lookup_nil in Hf0.
Qed.

(** On finite samples over an increasing grid [np_interp_float] is
    [np_interp]. *)
Lemma interp_scan_finite (x : R) (xs fs : list R) :
  (forall x0, head xs = Some x0 -> x0 <= x) ->
  xs <> [] -> length fs = length xs ->
  interp_scan (Fin x) (Fin <$> xs) (Fin <$> fs) = Fin (interp_from x xs fs).
Proof.
  revert fs. induction xs as [|x0 xs IH]; intros fs Hhead Hne Hlen; [done|].
  destruct fs as [|f0 fs]; [done|].
  destruct xs as [|x1 xs]; [done|]. destruct fs as [|f1 fs]; [done|].
  pose proof (Hhead x0 eq_refl) as Hx0.
  rewrite !fmap_cons, interp_scan_cons. cbn [float_le float_eq].
  change (interp_from x (x0 :: x1 :: xs) (f0 :: f1 :: fs))
    with (if decide (x < x1)
          then (f1 - f0) / (x1 - x0) * (x - x0) + f0
          else interp_from x (x1 :: xs) (f1 :: fs)).
  case_decide as Hlt.
  - rewrite bool_decide_eq_false_2 by lra. case_bool_decide as Heq.
    + subst. f_equal. unfold Rdiv. ring.
    + rewrite interp_segment_finite by lra. done.
  - rewrite bool_decide_eq_true_2 by lra. rewrite <- !(fmap_cons Fin).
    apply IH; [|done|simpl in *; lia]. intros y [= <-]. lra.
Qed.

Lemma interp_from_beyond (x : R) (xs fs : list R) (fl : R) :
  Forall (fun y => y <= x) xs -> length fs = length xs ->
  last fs = Some fl -> interp_from x xs fs = fl.
Proof.
  revert fs. induction xs as [|x0 xs IH]; intros fs Hall Hlen Hlast.
  - destruct fs; [done|simpl in Hlen; lia].
  - destruct fs as [|f0 fs]; [done|].
    destruct xs as [|x1 xs].
    + destruct fs; [|simpl in Hlen; lia]. simpl in *. by inversion Hlast.
    + destruct fs as [|f1 fs]; [simpl in Hlen; lia|].
      inversion Hall as [|? ? _ Hall']; subst.
      inversion Hall' as [|? ? Hx1 _]; subst.
      change (interp_from x (x0 :: x1 :: xs) (f0 :: f1 :: fs))
        with (if decide (x < x1)
              then (f1 - f0) / (x1 - x0) * (x - x0) + f0
              else interp_from x (x1 :: xs) (f1 :: fs)).
      rewrite decide_False by lra.
      apply IH; [done|simpl in *; lia|done].
Qed.

Lemma interp_float_finite (x : R) (xs fs : list R) :
  increasing xs -> xs <> [] -> length fs = length xs ->
  interp_float (Fin x) (Fin <$> xs) (Fin <$> fs)
  = Fin (piecewise_linear x xs fs).
Proof.
  intros Hinc Hne Hlen.
  destruct xs as [|x0 xs]; [done|].
  destruct fs as [|f0 fs]; [done|].
  destruct (last (x0 :: xs)) as [xl|] eqn:Hlast;
    [|by apply last_None in Hlast].
  destruct (last (f0 :: fs)) as [fl|] eqn:Hflast;
    [|by apply last_None in Hflast].
  destruct xs as [|x1 xs].
  { unfold interp_float, piecewise_linear. simpl. by case_decide. }
  rewrite !(fmap_cons Fin _ (x1 :: xs)), (fmap_cons Fin x1).
  rewrite (fmap_cons Fin f0).
  unfold interp_float, piecewise_linear.
  rewrite <- !(fmap_cons Fin), !fmap_last, Hlast, Hflast.
  change (default (Fin x0) (Fin <$> Some xl)) with (Fin xl).
  change (default (Fin f0) (Fin <$> Some fl)) with (Fin fl).
  cbn [is_nan float_lt].
  case_bool_decide as Hright.
  - rewrite decide_False.
    + f_equal. symmetry. apply interp_from_beyond; try done.
      apply Forall_forall. intros y Hy.
      apply list_elem_of_lookup_1 in Hy as [i Hi].
      pose proof (increasing_le_last _ _ _ _ Hinc Hi Hlast). lra.
    + pose proof (increasing_le_last _ 0 x0 _ Hinc eq_refl Hlast). lra.
  - case_bool_decide as Hleft; [by rewrite decide_True|].
    rewrite decide_False by done.
    apply interp_scan_finite; try done. intros y [= <-]. lra.
Qed.

(** *** What a segment of the logarithm columns holds *)

Lemma ln_quot (x y : R) : 0 < x -> 0 < y -> ln (x / y) = ln x - ln y.
Proof.
  intros Hx Hy. unfold Rdiv.
  rewrite ln_mult by (done || by apply Rinv_0_lt_compat).
  rewrite ln_Rinv by done. ring.
Qed.

Lemma Rpower_loglog (l l0 l1 y0 y1 : R) :
  0 < l0 -> l0 < l -> l0 < l1 -> 0 < y0 -> 0 < y1 ->
  pow10 ((log10 y1 - log10 y0) / (log10 l1 - log10 l0)
         * (log10 l - log10 l0) + log10 y0)
  = y0 * Rpower (y1 / y0) (ln (l / l0) / ln (l1 / l0)).
Proof.
  intros Hl0 Hl Hl1 Hy0 Hy1. pose proof ln_10_pos as H10.
  assert (Hd : ln l0 < ln l1) by (apply ln_increasing; lra).
  unfold pow10, log10, Rpower.
  rewrite !ln_quot by lra.
  rewrite <- (exp_ln y0) at 3 by done. rewrite <- exp_plus.
  f_equal. field. lra.
Qed.

(** Decide the comparisons of reals that [lra] settles. *)
Ltac settle_decide :=
  repeat match goal with
    | |- context [decide ?P] =>
        first [ rewrite (decide_True (P := P))
                  by (solve [lra | left; lra | right; lra])
              | rewrite (decide_False (P := P))
                  by (solve [lra | intros [?|?]; lra]) ]
    | |- context [bool_decide ?P] =>
        first [ rewrite (bool_decide_eq_true_2 P) by lra
              | rewrite (bool_decide_eq_false_2 P) by lra ]
    end.

(** The power of ten of a segment between two logarithms, strictly inside
    the bracket. *)
Lemma float_pow10_segment (l l0 l1 y0 y1 : R) :
  0 < l0 -> l0 < l < l1 ->
  float_pow10 (interp_segment (Fin (log10 l)) (Fin (log10 l0))
                 (Fin (log10 l1)) (np_log10 y0) (np_log10 y1))
  = power_law l0 l1 y0 y1 l.
Proof.
  intros Hl0 [Hl Hl1].
  assert (H0 : log10 l0 < log10 l) by (apply log10_increasing; lra).
  assert (H1 : log10 l < log10 l1) by (apply log10_increasing; lra).
  unfold power_law, np_log10.
  destruct (Rtotal_order y0 0) as [Hy0|[Hy0|Hy0]],
    (Rtotal_order y1 0) as [Hy1|[Hy1|Hy1]];
    settle_decide;
    try (rewrite interp_segment_finite by lra; cbn [float_pow10];
         f_equal; apply Rpower_loglog; lra);
    unfold interp_segment; repeat (progress (simpl; settle_decide)); done.
Qed.

(** *** [nk] at a sample and between two samples *)

(** The flag for [n <= 0] in words. *)
Lemma any_nonpositive_Exists (n : list R) :
  any_nonpositive n = true <-> Exists (fun v => v <= 0) n.
Proof.
  rewrite any_nonpositive_true, Exists_exists. done.
Qed.

(** At a tabulated wavelength [nk] returns the tabulated [n], and the
    tabulated [k] unless it is negative. *)
Lemma nk_at_node (self : diel_const) (i : nat) (l n k : R) :
  table_ok self -> increasing (_l self) ->
  Forall (fun x => 0 < x) (_l self) ->
  _lmin self <= l <= _lmax self ->
  _l self !! i = Some l -> _n self !! i = Some n -> _k self !! i = Some k ->
  nk self l = Ok (Fin n, if decide (k < 0) then NaN else Fin k).
Proof.
  intros Hok Hinc Hpos Hrange Hl Hn Hk.
  rewrite nk_in_range_value by done.
  assert (Hl0 : 0 < l).
  { rewrite Forall_forall in Hpos. apply Hpos.
    by eapply list_elem_of_lookup_2. }
  pose proof (log10_grid_increasing _ Hinc Hpos) as Hlog.
  rewrite (np_log10_fmap _ Hpos), (np_log10_pos l) by done.
  assert (Hnode : forall (y : list R) v, y !! i = Some v ->
            float_pow10 (interp_float (Fin (log10 l))
                           (Fin <$> (log10 <$> _l self)) (np_log10 <$> y))
            = float_pow10 (np_log10 v)).
  { intros y v Hv. f_equal.
    apply (interp_float_node _ _ i); [done|..];
      by rewrite list_lookup_fmap, ?Hl, ?Hv. }
  rewrite (piecewise_linear_node _ _ i l n Hinc Hl Hn).
  rewrite (Hnode _ k Hk), (Hnode _ n Hn).
  assert (Hpow : forall v, float_pow10 (np_log10 v)
                           = if decide (v < 0) then NaN else Fin v).
  { intros v. unfold np_log10. repeat case_decide; try lra; simpl.
    - by rewrite pow10_log10.
    - by subst.
    - done. }
  rewrite !Hpow. f_equal. f_equal.
  destruct (any_nonpositive (_n self)) eqn:Hany; simpl.
  - case_bool_decide; [done|]. by rewrite decide_False.
  - case_decide as Hneg; [|done].
    assert (Htrue : any_nonpositive (_n self) = true).
    { apply any_nonpositive_true. exists n.
      split; [by eapply list_elem_of_lookup_2|lra]. }
    congruence.
Qed.

Lemma nk_at_sample (self : diel_const) (i : nat) (l n k : R) :
  table_ok self -> increasing (_l self) ->
  Forall (fun x => 0 < x) (_l self) ->
  _lmin self <= l <= _lmax self ->
  _l self !! i = Some l -> _n self !! i = Some n -> _k self !! i = Some k ->
  n <> 0 -> 0 < k ->
  nk self l = Ok (n, k).
Proof.
  intros Hok Hinc Hpos Hrange Hl Hn Hk Hn0 Hk0.
  rewrite (nk_at_node self i l n k) by done.
  by rewrite decide_False by lra.
Qed.

(** Strictly between two neighbouring samples [nk] returns the power law
    through them, or the straight line for [n] where the table holds some
    [n <= 0] and the line is negative at the query. *)
Lemma nk_in_bracket (self : diel_const) (j : nat)
    (l l0 l1 n0 n1 k0 k1 : R) :
  table_ok self -> increasing (_l self) ->
  Forall (fun x => 0 < x) (_l self) ->
  _lmin self <= l <= _lmax self ->
  _l self !! j = Some l0 -> _l self !! S j = Some l1 ->
  _n self !! j = Some n0 -> _n self !! S j = Some n1 ->
  _k self !! j = Some k0 -> _k self !! S j = Some k1 ->
  l0 < l < l1 ->
  let n_lin := n0 + (n1 - n0) / (l1 - l0) * (l - l0) in
  nk self l
  = Ok (if decide (Exists (fun v => v <= 0) (_n self) /\ n_lin < 0)
        then Fin n_lin
        else power_law l0 l1 n0 n1 l,
        power_law l0 l1 k0 k1 l).
Proof.
  intros Hok Hinc Hpos Hrange Hl0 Hl1 Hn0 Hn1 Hk0 Hk1 Hl n_lin.
  rewrite nk_in_range_value by done.
  assert (Hp0 : 0 < l0).
  { rewrite Forall_forall in Hpos. apply Hpos.
    by eapply list_elem_of_lookup_2. }
  pose proof (log10_grid_increasing _ Hinc Hpos) as Hlog.
  rewrite (np_log10_fmap _ Hpos), (np_log10_pos l) by lra.
  assert (Hseg : forall (y : list R) y0 y1,
            y !! j = Some y0 -> y !! S j = Some y1 ->
            float_pow10 (interp_float (Fin (log10 l))
                           (Fin <$> (log10 <$> _l self)) (np_log10 <$> y))
            = power_law l0 l1 y0 y1 l).
  { intros y y0 y1 Hy0 Hy1.
    rewrite (interp_float_bracket _ _ j (log10 l) (log10 l0) (log10 l1)
               (np_log10 y0) (np_log10 y1));
      try (by rewrite list_lookup_fmap, ?Hl0, ?Hl1, ?Hy0, ?Hy1).
    - by apply float_pow10_segment.
    - done.
    - split; apply log10_increasing; lra. }
  rewrite (Hseg _ _ _ Hk0 Hk1), (Hseg _ _ _ Hn0 Hn1).
  assert (Hlin : piecewise_linear l (_l self) (_n self) = n_lin).
  { destruct Hok as [Hne Hlen_n _ _ _ _ _].
    assert (Hfin : interp_float (Fin l) (Fin <$> _l self) (Fin <$> _n self)
                   = Fin n_lin).
    { rewrite (interp_float_bracket _ _ j l l0 l1 (Fin n0) (Fin n1));
        try done; try (by rewrite list_lookup_fmap, ?Hn0, ?Hn1).
      rewrite interp_segment_finite by lra.
      f_equal. unfold n_lin, Rdiv. ring. }
    rewrite interp_float_finite in Hfin by done. by inversion Hfin. }
  rewrite Hlin. f_equal. f_equal.
  destruct (any_nonpositive (_n self)) eqn:Hany; simpl.
  - apply any_nonpositive_Exists in Hany.
    case_bool_decide; [by rewrite decide_True|].
    rewrite decide_False; [done|]. intros [_ ?]. done.
  - rewrite decide_False; [done|]. intros [Hex _].
    apply any_nonpositive_Exists in Hex. congruence.
Qed.

(** C3.  On a well-formed table with increasing positive wavelengths and a
    query [l] within the stored bounds, [diel_const.nk] returns the
    log-log interpolation of [n] and [k]: strictly between two
    neighbouring samples it is the power law through them, that is, the
    straight line through the two samples in log-log space, except that
    on a table holding some [n <= 0] the straight line through the two
    samples of [n] in the wavelength itself is evaluated first and
    returned for [n] when it is negative there; [k] follows the power law
    in either case.  A negative sample has no logarithm and makes the
    power law [nan], a zero sample makes it zero.  At a tabulated
    wavelength the answer is the tabulated [n] and the tabulated [k]
    unless that [k] is negative. *)
Theorem nk_in_range_interpolates (self : diel_const) (l : R) :
  table_ok self -> increasing (_l self) ->
  Forall (fun x => 0 < x) (_l self) ->
  _lmin self <= l <= _lmax self ->
  (forall j l0 l1 n0 n1 k0 k1,
     _l self !! j = Some l0 -> _l self !! S j = Some l1 ->
     _n self !! j = Some n0 -> _n self !! S j = Some n1 ->
     _k self !! j = Some k0 -> _k self !! S j = Some k1 ->
     l0 < l < l1 ->
     let n_lin := n0 + (n1 - n0) / (l1 - l0) * (l - l0) in
     nk self l
     = Ok (if decide (Exists (fun v => v <= 0) (_n self) /\ n_lin < 0)
           then Fin n_lin
           else power_law l0 l1 n0 n1 l,
           power_law l0 l1 k0 k1 l))
  /\ (forall i n k,
        _l self !! i = Some l -> _n self !! i = Some n ->
        _k self !! i = Some k ->
        nk self l = Ok (Fin n, if decide (k < 0) then NaN else Fin k)).
Proof.
  intros Hok Hinc Hpos Hrange. split.
  - intros j l0 l1 n0 n1 k0 k1. by apply nk_in_bracket.
  - intros i n k. by apply nk_at_node.
Qed.

Lemma ln_100 : ln (100 / 1) = 2 * ln (10 / 1).
Proof.
  replace (100 / 1) with (10 * 10) by lra. replace (10 / 1) with 10 by lra.
  rewrite ln_mult by lra. ring.
Qed.

Lemma Rpower_half_square (x : R) :
  0 < x -> Rpower (x * x) (ln (10 / 1) / ln (100 / 1)) = x.
Proof.
  intros Hx. rewrite ln_100.
  assert (H10 : 0 < ln (10 / 1)).
  { replace (10 / 1) with 10 by lra. apply ln_10_pos. }
  replace (ln (10 / 1) / (2 * ln (10 / 1))) with (/ 2) by (field; lra).
  rewrite Rpower_sqrt by nra. apply sqrt_square. lra.
Qed.

Lemma sample_rising_ok :
  table_ok sample_rising /\ increasing (_l sample_rising)
  /\ Forall (fun x => 0 < x) (_l sample_rising).
Proof.
  split; [split; simpl; done|]. split; [simpl; lra|].
  repeat constructor; lra.
Qed.

Lemma nk_in_range_interpolates_witness : nk sample_rising 10 = Ok (4, 10).
Proof.
  destruct sample_rising_ok as (Hok & Hinc & Hpos).
  destruct (nk_in_range_interpolates sample_rising 10 Hok Hinc Hpos)
    as [Hin _]; [simpl; lra|].
  rewrite (Hin 0%nat 1 100 2 8 1 100) by (reflexivity || lra).
  rewrite decide_False.
  - unfold power_law. rewrite !decide_False by (intros [?|?]; lra).
    replace (Rpower (8 / 2) (ln (10 / 1) / ln (100 / 1)))
      with (Rpower (2 * 2) (ln (10 / 1) / ln (100 / 1))) by (f_equal; lra).
    replace (Rpower (100 / 1) (ln (10 / 1) / ln (100 / 1)))
      with (Rpower (10 * 10) (ln (10 / 1) / ln (100 / 1)))
      by (f_equal; lra).
    rewrite !Rpower_half_square by lra.
    do 2 f_equal; f_equal; lra.
  - intros [Hex _]. simpl in Hex.
    apply Exists_cons in Hex as [?|Hex]; [lra|].
    apply Exists_cons in Hex as [?|Hex]; [lra|].
    by apply Exists_nil in Hex.
Defined.

(** Between a negative and a positive sample of [n] whose straight line is
    not negative at the query, the logarithms are interpolated and the
    answer for [n] is [nan]. *)
Lemma nk_across_negative_sample :
  nk {| _l := [1; 3]; _n := [-1; 3]; _k := [1; 1];
        _ll := np_log10 <$> [1; 3]; _ln := np_log10 <$> [-1; 3];
        _lk := np_log10 <$> [1; 1];
        material_str := None; _lmin := 1; _lmax := 3; extrapol := false;
        _has_negative_n := any_nonpositive [-1; 3] |} 2
  = Ok (NaN, Fin 1).
Proof.
  match goal with |- nk ?t _ = _ => set (tab := t) end.
  assert (Hok : table_ok tab) by (split; simpl; done).
  rewrite (nk_in_bracket tab 0 2 1 3 (-1) 3 1 1);
    try done; try (simpl; lra); try (repeat constructor; lra).
  rewrite decide_False by (intros [_ ?]; lra).
  unfold power_law. rewrite decide_True by (left; lra).
  rewrite !decide_False by (intros [?|?]; lra).
  replace (1 / 1) with 1 by lra.
  rewrite (fpow_1 _ : Rpower 1 _ = 1). by rewrite Rmult_1_r.
Qed.

(** On a well-formed table with increasing positive wavelengths, a query
    at a tabulated wavelength returns the tabulated pair, provided its [n]
    is not zero and its [k] is positive. *)
Theorem nk_reproduces_samples (self : diel_const) (i : nat) (l n k : R) :
  table_ok self -> increasing (_l self) ->
  Forall (fun x => 0 < x) (_l self) ->
  _lmin self <= l <= _lmax self ->
  _l self !! i = Some l -> _n self !! i = Some n -> _k self !! i = Some k ->
  n <> 0 -> 0 < k ->
  nk self l = Ok (n, k).
Proof. apply nk_at_sample. Qed.

Lemma nk_reproduces_samples_witness : nk (sample_table 2 1) 10 = Ok (2, 1).
Proof.
  apply (nk_reproduces_samples (sample_table 2 1) 1 10 2 1).
  - split; simpl; done.
  - simpl. lra.
  - repeat constructor; lra.
  - simpl. lra.
  - reflexivity.
  - reflexivity.
  - reflexivity.
  - lra.
  - lra.
Defined.

(** Whatever the table, a finite [k] that [nk] returns is not negative:
    [k] is the power of ten of an interpolated logarithm, which is
    positive, zero where the logarithm is [-inf] (a tabulated [k] of
    zero), or not finite. *)
Theorem nk_returns_nonnegative_k (self : diel_const) (l : R)
    (n : float64) (k : R) :
  nk self l = Ok (n, Fin k) -> 0 <= k.
Proof.
  assert (Hpow : forall v, float_pow10 v = Fin k -> 0 <= k).
  { intros [v| | |] Hv; simpl in Hv; try done; inversion Hv; subst.
    - left. apply pow10_pos.
    - lra. }
  unfold nk. case_decide; [done|]. intros Hnk.
  bind_inv Hnk. destruct v as [|].
  - bind_inv Hnk. bind_inv Hnk. inversion Hnk; subst. eauto.
  - bind_inv Hnk. bind_inv Hnk. inversion Hnk; subst. eauto.
Qed.

(** A table whose [k] is zero answers zero. *)
Lemma nk_sample_table_zero_k : nk (sample_table 2 0) 5 = Ok (Fin 2, Fin 0).
Proof.
  assert (Hok : table_ok (sample_table 2 0)) by (split; simpl; done).
  rewrite (nk_in_bracket (sample_table 2 0) 0 5 1 10 2 2 0 0);
    try done; try (simpl; lra); try (repeat constructor; lra).
  rewrite decide_False by (intros [_ ?]; lra).
  unfold power_law. rewrite !decide_False by (intros [?|?]; lra).
  rewrite decide_True by (by left).
  replace (2 / 2) with 1 by lra.
  rewrite (fpow_1 _ : Rpower 1 _ = 1). by rewrite Rmult_1_r.
Qed.

Lemma nk_returns_nonnegative_k_witness :
  nk (sample_table 2 0) 5 = Ok (Fin 2, Fin 0) /\ 0 <= 0.
Proof.
  split; [exact nk_sample_table_zero_k|].
  exact (nk_returns_nonnegative_k (sample_table 2 0) 5 2 0
           nk_sample_table_zero_k).
Defined.

(** On a well-formed table with increasing positive wavelengths whose [n]
    and [k] are positive, a query at a positive wavelength in range
    returns values within the range of the tabulated ones: the
    interpolation does not overshoot. *)
Theorem nk_within_sample_range (self : diel_const)
    (l n_lo n_hi k_lo k_hi : R) :
  table_ok self -> increasing (_l self) ->
  Forall (fun x => 0 < x) (_l self) ->
  0 < l -> _lmin self <= l <= _lmax self ->
  0 < n_lo -> Forall (fun v => n_lo <= v <= n_hi) (_n self) ->
  0 < k_lo -> Forall (fun v => k_lo <= v <= k_hi) (_k self) ->
  exists n k : R,
    nk self l = Ok (n, k) /\ n_lo <= n <= n_hi /\ k_lo <= k <= k_hi.
Proof.
  intros Hok Hinc Hpos Hl Hrange Hn_lo Hn Hk_lo Hk.
  rewrite nk_in_range_value by done.
  assert (Hflag : any_nonpositive (_n self) = false).
  { destruct (any_nonpositive (_n self)) eqn:Hany; [|done].
    apply any_nonpositive_true in Hany as (v & Hv & Hle).
    rewrite Forall_forall in Hn. specialize (Hn v Hv). lra. }
  rewrite Hflag. cbn [andb].
  destruct Hok as [Hne Hlen_n Hlen_k _ _ _ _].
  pose proof (log10_grid_increasing _ Hinc Hpos) as Hlog.
  rewrite (np_log10_fmap _ Hpos), (np_log10_pos l) by done.
  assert (Hcol : forall lo hi y, 0 < lo -> length y = length (_l self) ->
            Forall (fun v => lo <= v <= hi) y ->
            exists v : R,
              float_pow10 (interp_float (Fin (log10 l))
                             (Fin <$> (log10 <$> _l self)) (np_log10 <$> y))
              = Fin v /\ lo <= v <= hi).
  { intros lo hi y Hlo Hlen Hy.
    assert (Hypos : Forall (fun v => 0 < v) y).
    { eapply Forall_impl; [exact Hy|]. simpl. intros v ?. lra. }
    rewrite (np_log10_fmap _ Hypos).
    rewrite interp_float_finite;
      [|done|by intros Hnil; apply fmap_nil_inv in Hnil
       |by rewrite !length_fmap].
    eexists. split; [reflexivity|].
    assert (Hhi : 0 < hi).
    { destruct y as [|v y]; [destruct (_l self); done|].
      inversion Hy; subst. lra. }
    assert (log10 lo <= piecewise_linear (log10 l) (log10 <$> _l self)
                          (log10 <$> y) <= log10 hi).
    { apply piecewise_linear_bounds.
      - intros Hnil. by apply fmap_nil_inv in Hnil.
      - by rewrite !length_fmap.
      - apply Forall_fmap. eapply Forall_impl; [exact Hy|].
        intros v [Hv1 Hv2]. simpl. split; apply log10_le; lra. }
    split.
    - rewrite <- (pow10_log10 lo) at 1 by done. apply pow10_increasing. lra.
    - rewrite <- (pow10_log10 hi) at 1 by done. apply pow10_increasing. lra. }
  destruct (Hcol n_lo n_hi (_n self)) as (n & -> & Hnb); try done.
  destruct (Hcol k_lo k_hi (_k self)) as (k & -> & Hkb); try done.
  by exists n, k.
Qed.

Lemma nk_within_sample_range_witness :
  exists n k : R,
    nk sample_rising 10 = Ok (n, k) /\ 2 <= n <= 8 /\ 1 <= k <= 100.
Proof.
  destruct sample_rising_ok as (Hok & Hinc & Hpos).
  apply (nk_within_sample_range sample_rising 10 2 8 1 100 Hok Hinc Hpos).
  - lra.
  - simpl. lra.
  - lra.
  - repeat constructor; simpl; lra.
  - lra.
  - repeat constructor; simpl; lra.
Defined.

(** ** [diel_const.__init__] *)

Lemma diel_const_init_inv (lam n k : list R) (self : diel_const) :
  diel_const_init lam n k = Ok self ->
  lam <> [] /\ _l self = lam /\ _n self = n /\ _k self = k
  /\ material_str self = None.
Proof.
  unfold diel_const_init. intros Hinit.
  destruct lam as [|l0 lam]; [done|].
  destruct (last (l0 :: lam)) as [l1|] eqn:Hlast;
    [|by apply last_None in Hlast].
  unfold last_item in Hinit. rewrite Hlast in Hinit. simpl in Hinit.
  by inversion Hinit.
Qed.

(** [__init__] succeeds exactly on a non-empty wavelength array; on three
    columns of one length it builds a well-formed table, and for ascending
    wavelengths the stored bounds enclose every sample. *)
Theorem diel_const_init_builds_table (lam n k : list R) :
  (lam = [] -> diel_const_init lam n k = Raise IndexError)
  /\ (lam <> [] ->
      exists self,
        diel_const_init lam n k = Ok self
        /\ _l self = lam /\ _n self = n /\ _k self = k
        /\ material_str self = None
        /\ (length n = length lam -> length k = length lam -> table_ok self)
        /\ (ascending lam ->
            Forall (fun x => _lmin self <= x <= _lmax self) lam)).
Proof.
  split; [by intros ->|]. intros Hne.
  destruct lam as [|l0 lam]; [done|].
  destruct (last (l0 :: lam)) as [l1|] eqn:Hlast;
    [|by apply last_None in Hlast].
  unfold diel_const_init, last_item. rewrite Hlast. simpl.
  eexists. split; [reflexivity|]. simpl. repeat split; try done.
  - intros Hasc. apply Forall_forall. intros x Hx.
    apply list_elem_of_lookup_1 in Hx as [i Hi].
    rewrite last_lookup in Hlast.
    apply lookup_lt_Some in Hi as Hlt. split.
    + apply (ascending_lookup (l0 :: lam) 0 i); try done. lia.
    + apply (ascending_lookup (l0 :: lam) i (Nat.pred (length (l0 :: lam))));
        try done. lia.
Qed.

Lemma diel_const_init_builds_table_witness :
  exists self,
    diel_const_init [1; 10] [2; 2] [1; 1] = Ok self
    /\ table_ok self
    /\ Forall (fun x => _lmin self <= x <= _lmax self) [1; 10].
Proof.
  destruct (diel_const_init_builds_table [1; 10] [2; 2] [1; 1])
    as [_ Hinit].
  destruct Hinit as (self & Hself & _ & _ & _ & _ & Hok & Hbounds); [done|].
  exists self. split; [exact Hself|]. split.
  - by apply Hok.
  - apply Hbounds. simpl. lra.
Defined.

(** The scalar form of [__init__], [diel_const(lam, n, k)] for a positive
    wavelength, builds a table that answers [(n, k)] at [lam]. *)
Theorem diel_const_init_scalar_answers (lam n k : R) :
  0 < lam -> n <> 0 -> 0 < k ->
  exists self,
    diel_const_init_scalar lam n k = Ok self /\ nk self lam = Ok (n, k).
Proof.
  intros Hlam Hn Hk. unfold diel_const_init_scalar, diel_const_init.
  cbn [first_item last_item last]. rewrite !Ok_bind.
  eexists. split; [reflexivity|].
  unfold nk. cbn [_l _n _k _ll _ln _lk _lmin _lmax _has_negative_n].
  rewrite decide_False by (intros [?|?]; lra).
  rewrite !np_interp_Ok by done.
  rewrite !np_interp_float_Ok by done.
  rewrite !fmap_cons, !fmap_nil.
  rewrite !piecewise_linear_flat, any_nonpositive_pair.
  rewrite !Rmult_1_l.
  rewrite (np_log10_pos (lam - _)), (np_log10_pos (lam + _)),
    (np_log10_pos lam), (np_log10_pos k) by lra.
  assert (Hgrid : log10 (lam - 1e-10 * lam) < log10 (lam + 1e-10 * lam))
    by (apply log10_increasing; lra).
  rewrite (interp_float_flat _ _ _ (log10 k)) by done.
  case_bool_decide.
  - rewrite !Ok_bind, decide_True by lra.
    cbn [float_pow10]. by rewrite pow10_log10.
  - rewrite (np_log10_pos n), interp_float_flat by (done || lra).
    rewrite !Ok_bind. cbn [float_pow10]. by rewrite !pow10_log10 by lra.
Qed.

Lemma diel_const_init_scalar_answers_witness :
  exists self,
    diel_const_init_scalar 0.1 2 1 = Ok self /\ nk self 0.1 = Ok (2, 1).
Proof. apply diel_const_init_scalar_answers; lra. Defined.

(** ** The extrapolation methods: errors *)

Section ExtrapolationErrors.

Variable curve_fit : curve_fit_t.

(** An unknown [kind] ends both methods in [ValueError] on any non-empty
    table: the columns and bounds stay as they were, only the [extrapol]
    flag has been set. *)
Theorem extrapolation_unknown_kind (self : diel_const) (lmin lmax : R)
    (n : Z) (kind : string) :
  _l self <> [] ->
  kind <> "constant" -> kind <> "second" -> kind <> "first" ->
  kind <> "linear" ->
  extrapolate_constants_up curve_fit self lmin lmax n kind
  = (set_extrapol self, Raise ValueError)
  /\ extrapolate_constants_down curve_fit self lmin lmax n kind
     = (set_extrapol self, Raise ValueError).
Proof.
  intros Hne Hc Hs Hf Hl.
  assert (Hlast : exists x, last_item (_l self) = Ok x).
  { unfold last_item. destruct (last (_l self)) eqn:Hlast; [eauto|].
    by apply last_None in Hlast. }
  assert (Hfirst : exists x, first_item (_l self) = Ok x)
    by (destruct (_l self); [done|]; simpl; eauto).
  destruct Hlast as [xl Hxl]. destruct Hfirst as [xf Hxf].
  assert (Hgrid : forall a b,
            np_logspace a b n = Raise ValueError
            \/ exists g, np_logspace a b n = Ok g).
  { intros a b. unfold np_logspace, np_linspace.
    case_decide; [by left|right; simpl; eauto]. }
  split.
  - unfold extrapolate_constants_up, samples_up.
    cbn [set_extrapol _l _n _k]. rewrite Hxl, Ok_bind.
    destruct (Hgrid (log10 xl) (log10 lmax)) as [->|[g ->]]; [done|].
    rewrite Ok_bind, !decide_False by (done || by intros [?|?]). done.
  - unfold extrapolate_constants_down, samples_down.
    cbn [set_extrapol _l _n _k]. rewrite Hxf, Ok_bind.
    destruct (Hgrid (log10 lmin) (log10 xf)) as [->|[g ->]]; [done|].
    rewrite Ok_bind, !decide_False by (done || by intros [?|?]). done.
Qed.

(** A table as [diel_const.__init__] builds it carries no label, and the
    last statement of the method appends to the label: a constant
    extension of such a table ends in [TypeError] after the columns have
    already been extended by [num - 1] samples. *)
Theorem extrapolation_of_unlabelled_table (lam n k : list R)
    (self : diel_const) (lmin lmax : R) (num : Z) :
  diel_const_init lam n k = Ok self ->
  n <> [] -> k <> [] -> (0 <= num)%Z ->
  exists self',
    extrapolate_constants_up curve_fit self lmin lmax num "constant"
    = (self', Raise TypeError)
    /\ extrapol self' = true
    /\ exists l_ext,
         _l self' = lam ++ l_ext /\ length l_ext = (Z.to_nat num - 1)%nat.
Proof.
  intros Hinit Hn Hk Hnum.
  destruct (diel_const_init_inv _ _ _ _ Hinit)
    as (Hlam & Hl & Hn' & Hk' & Hms).
  assert (Hitem : forall xs : list R, xs <> [] -> exists x, last_item xs = Ok x).
  { intros xs Hxs. unfold last_item. destruct (last xs) eqn:Hlast; [eauto|].
    by apply last_None in Hlast. }
  destruct (Hitem lam Hlam) as [xl Hxl]. destruct (Hitem n Hn) as [xn Hxn].
  destruct (Hitem k Hk) as [xk Hxk].
  unfold extrapolate_constants_up, samples_up.
  cbn [set_extrapol _l _n _k]. rewrite Hl, Hn', Hk', Hxl, Ok_bind.
  unfold np_logspace, np_linspace.
  rewrite (decide_False (P := (num < 0)%Z)) by lia.
  rewrite !Ok_bind, decide_True by done. rewrite Hxn, Hxk, !Ok_bind.
  unfold update_attributes. cbn [material_str set_extrapol _l _lmin _lmax].
  rewrite Hms.
  match goal with
  | |- context [np_min (lam ++ ?e)] => set (l_ext := e)
  end.
  destruct (np_min_Ok (lam ++ l_ext)) as [lo ->]; [by destruct lam|].
  destruct (np_max_Ok (lam ++ l_ext)) as [hi ->]; [by destruct lam|].
  eexists. split; [reflexivity|]. simpl. split; [done|].
  exists l_ext. split; [done|]. unfold l_ext.
  rewrite length_drop, length_fmap.
  case_decide; rewrite ?length_insert, length_fmap, length_seq; done.
Qed.

End ExtrapolationErrors.

Lemma extrapolation_unknown_kind_witness :
  extrapolate_constants_up sample_curve_fit (sample_table 2 1)
    1 1000 3 "cubic"
  = (set_extrapol (sample_table 2 1), Raise ValueError)
  /\ extrapolate_constants_down sample_curve_fit (sample_table 2 1)
       0.01 10 3 "cubic"
     = (set_extrapol (sample_table 2 1), Raise ValueError).
Proof.
  split.
  - by apply (extrapolation_unknown_kind sample_curve_fit
                (sample_table 2 1) 1 1000 3 "cubic").
  - by apply (extrapolation_unknown_kind sample_curve_fit
                (sample_table 2 1) 0.01 10 3 "cubic").
Defined.

Lemma extrapolation_of_unlabelled_table_witness :
  exists self self',
    diel_const_init [1; 10] [2; 2] [1; 1] = Ok self
    /\ extrapolate_constants_up sample_curve_fit self 1 1000 3 "constant"
       = (self', Raise TypeError)
    /\ length (_l self') = 4%nat.
Proof.
  eexists.
  destruct (extrapolation_of_unlabelled_table sample_curve_fit
              [1; 10] [2; 2] [1; 1] _ 1 1000 3 eq_refl)
    as (self' & Hup & _ & l_ext & Hl & Hlen); [done|done|lia|].
  exists self'. split; [reflexivity|]. split; [exact Hup|].
  rewrite Hl, length_app, Hlen. reflexivity.
Defined.

(** ** The extrapolation methods: what an extension keeps *)

Lemma increasing_intro (xs : list R) :
  (forall i x y, xs !! i = Some x -> xs !! S i = Some y -> x < y) ->
  increasing xs.
Proof.
  induction xs as [|x0 xs IH]; intros Hstep; [done|].
  destruct xs as [|x1 xs]; [done|]. split.
  - by apply (Hstep 0%nat).
  - apply IH. intros i x y Hi Hj. by apply (Hstep (S i)).
Qed.

Lemma increasing_app (xs ys : list R) :
  increasing xs -> increasing ys ->
  (forall a b, last xs = Some a -> head ys = Some b -> a < b) ->
  increasing (xs ++ ys).
Proof.
  induction xs as [|x0 xs IH]; intros Hxs Hys Hjoin; [done|].
  destruct xs as [|x1 xs].
  - destruct ys as [|y0 ys]; [done|]. split; [by apply Hjoin|done].
  - destruct Hxs as [H01 Hxs]. split; [done|].
    apply IH; [done|done|]. intros a b Ha Hb. by apply Hjoin.
Qed.

Lemma pow10_lt (x y : R) : x < y -> pow10 x < pow10 y.
Proof. intros Hxy. unfold pow10. apply Rpower_lt; lra. Qed.

(** The samples of [np.linspace] from a lower to a higher end increase. *)
Lemma np_linspace_increasing (start stop : R) (num : Z) (y : list R) :
  start < stop -> np_linspace start stop num = Ok y -> increasing y.
Proof.
  intros Hlt. unfold np_linspace. case_decide; [done|]. intros [= <-].
  set (n := Z.to_nat num).
  set (step := (stop - start) / INR (n - 1)).
  apply increasing_intro. intros i a b Hi Hj.
  case_decide as Hn.
  - assert (Hsj : (S i < n)%nat).
    { apply lookup_lt_Some in Hj.
      by rewrite length_insert, length_fmap, length_seq in Hj. }
    assert (Hpos : 0 < INR (n - 1)) by (apply lt_0_INR; lia).
    assert (Hstep : 0 < step).
    { unfold step. apply Rdiv_lt_0_compat; lra. }
    assert (Hstop : stop = INR (n - 1) * step + start).
    { unfold step. field. lra. }
    rewrite list_lookup_insert_ne in Hi by lia.
    rewrite list_lookup_fmap, lookup_seq_lt in Hi by lia.
    simpl in Hi. inversion Hi; subst a; clear Hi.
    destruct (decide (S i = (n - 1)%nat)) as [Heq|Hne].
    + rewrite Heq, list_lookup_insert_eq in Hj
        by (rewrite length_fmap, length_seq; lia).
      inversion Hj; subst b; clear Hj.
      apply Rlt_le_trans with (INR (S i) * step + start);
        [rewrite S_INR; lra|]. rewrite Heq. lra.
    + rewrite list_lookup_insert_ne in Hj by lia.
      rewrite list_lookup_fmap, lookup_seq_lt in Hj by lia.
      simpl in Hj. inversion Hj; subst b; clear Hj.
      change (INR i * step + start < INR (S i) * step + start).
      rewrite S_INR. lra.
  - apply lookup_lt_Some in Hj. rewrite length_fmap, length_seq in Hj. lia.
Qed.

Lemma np_logspace_increasing (start stop : R) (num : Z) (grid : list R) :
  start < stop -> np_logspace start stop num = Ok grid ->
  increasing grid /\ Forall (fun x => 0 < x) grid.
Proof.
  intros Hlt Hg. apply np_logspace_inv in Hg as (y & Hy & ->). split.
  - apply increasing_fmap; [|by eapply np_linspace_increasing].
    intros a b _ _. apply pow10_lt.
  - apply Forall_fmap, Forall_forall. intros x _. apply pow10_pos.
Qed.

Lemma increasing_drop (n : nat) (xs : list R) :
  increasing xs -> increasing (drop n xs).
Proof.
  intros Hinc. apply increasing_intro. intros i x y Hi Hj.
  rewrite lookup_drop in Hi, Hj.
  apply (increasing_lookup xs (n + i) (n + S i)); try done. lia.
Qed.

Lemma increasing_take (n : nat) (xs : list R) :
  increasing xs -> increasing (take n xs).
Proof.
  intros Hinc. apply increasing_intro. intros i x y Hi Hj.
  apply lookup_take_Some in Hi as [Hi _].
  apply lookup_take_Some in Hj as [Hj _].
  apply (increasing_lookup xs i (S i)); try done. lia.
Qed.

Section ExtensionKeepsGrid.

Variable curve_fit : curve_fit_t.

Lemma samples_up_grid self lmin lmax n kind l_ext n_ext k_ext :
  samples_up curve_fit self lmin lmax n kind = Ok (l_ext, n_ext, k_ext) ->
  exists l_last grid,
    last (_l self) = Some l_last
    /\ np_logspace (log10 l_last) (log10 lmax) n = Ok grid
    /\ l_ext = drop 1 grid.
Proof.
  intros Hs. unfold samples_up in Hs.
  bind_inv Hs. bind_inv Hs. rename v into l_last, v0 into grid.
  exists l_last, grid. split.
  { unfold last_item in Hv. destruct (last (_l self)); by inversion Hv. }
  split; [done|].
  case_decide.
  - bind_inv Hs. bind_inv Hs. by inversion Hs.
  - bind_inv Hs. destruct v as [[f p0_n] p0_k].
    bind_inv Hs. bind_inv Hs. bind_inv Hs. by inversion Hs.
Qed.

Lemma samples_down_grid self lmin lmax n kind l_ext n_ext k_ext :
  samples_down curve_fit self lmin lmax n kind = Ok (l_ext, n_ext, k_ext) ->
  exists l_first grid,
    head (_l self) = Some l_first
    /\ np_logspace (log10 lmin) (log10 l_first) n = Ok grid
    /\ l_ext = take (length grid - 1) grid.
Proof.
  intros Hs. unfold samples_down in Hs.
  bind_inv Hs. bind_inv Hs. rename v into l_first, v0 into grid.
  exists l_first, grid. split.
  { destruct (_l self); by inversion Hv. }
  split; [done|].
  case_decide.
  - bind_inv Hs. bind_inv Hs. by inversion Hs.
  - bind_inv Hs. destruct v as [[f p0_n] p0_k].
    bind_inv Hs. bind_inv Hs. bind_inv Hs. by inversion Hs.
Qed.

Lemma extension_up_grid (self : diel_const) (lmin lmax : R) (n : Z)
    (kind : string) (self' : diel_const) :
  increasing (_l self) -> Forall (fun x => 0 < x) (_l self) ->
  extrapolate_constants_up curve_fit self lmin lmax n kind = (self', Ok ()) ->
  Forall (fun x => x < lmax) (_l self) ->
  increasing (_l self') /\ Forall (fun x => 0 < x) (_l self').
Proof.
  intros Hinc Hpos Hup Hbelow. unfold extrapolate_constants_up in Hup.
  destruct (samples_up _ _ _ _ _ _) as [[[l_ext n_ext] k_ext]|e] eqn:Hs;
    [|by inversion Hup].
  apply update_attributes_Ok in Hup as (-> & _).
  apply samples_up_grid in Hs as (l_last & grid & Hlast & Hgrid & ->).
  cbn [set_extrapol _l] in *.
  assert (Hin : l_last ∈ _l self).
  { rewrite last_lookup in Hlast. by eapply list_elem_of_lookup_2. }
  assert (Hl0 : 0 < l_last) by (by eapply Forall_forall in Hpos).
  assert (Hl1 : l_last < lmax) by (by eapply Forall_forall in Hbelow).
  pose proof (log10_increasing _ _ Hl0 Hl1) as Hlog.
  destruct (np_logspace_increasing _ _ _ _ Hlog Hgrid) as [Hg Hgpos].
  split.
  + apply increasing_app; [done|by apply increasing_drop|].
    intros a b Ha Hb. rewrite Hlast in Ha. inversion Ha; subst a.
    rewrite head_lookup, lookup_drop in Hb. simpl in Hb.
    assert (Hhead : grid !! 0%nat = Some l_last).
    { apply np_logspace_inv in Hgrid as (y & Hy & ->).
      assert (Hnum : (2 <= n)%Z).
      { apply lookup_lt_Some in Hb.
        rewrite length_fmap, (np_linspace_length _ _ _ _ Hy) in Hb. lia. }
      rewrite <- head_lookup, head_lookup, list_lookup_fmap, <- head_lookup.
      rewrite (np_linspace_head _ _ _ _ Hnum Hy). simpl.
      by rewrite pow10_log10. }
    eapply (increasing_lookup grid 0 1); [done|lia|exact Hhead|exact Hb].
  + apply Forall_app. split; [done|]. by apply Forall_drop.
Qed.

Lemma extension_down_grid (self : diel_const) (lmin lmax : R) (n : Z)
    (kind : string) (self' : diel_const) :
  increasing (_l self) -> Forall (fun x => 0 < x) (_l self) ->
  extrapolate_constants_down curve_fit self lmin lmax n kind
  = (self', Ok ()) ->
  0 < lmin -> Forall (fun x => lmin < x) (_l self) ->
  increasing (_l self') /\ Forall (fun x => 0 < x) (_l self').
Proof.
  intros Hinc Hpos Hdown Hlmin Habove. unfold extrapolate_constants_down in Hdown.
  destruct (samples_down _ _ _ _ _ _) as [[[l_ext n_ext] k_ext]|e] eqn:Hs;
    [|by inversion Hdown].
  apply update_attributes_Ok in Hdown as (-> & _).
  apply samples_down_grid in Hs as (l_first & grid & Hfirst & Hgrid & ->).
  cbn [set_extrapol _l] in *.
  assert (Hin : l_first ∈ _l self).
  { rewrite head_lookup in Hfirst. by eapply list_elem_of_lookup_2. }
  assert (Hl1 : lmin < l_first) by (by eapply Forall_forall in Habove).
  pose proof (log10_increasing _ _ Hlmin Hl1) as Hlog.
  destruct (np_logspace_increasing _ _ _ _ Hlog Hgrid) as [Hg Hgpos].
  split.
  + apply increasing_app; [by apply increasing_take|done|].
    intros a b Ha Hb. rewrite Hfirst in Hb. inversion Hb; subst b.
    rewrite last_lookup, length_take in Ha.
    apply lookup_take_Some in Ha as [Ha Hlt].
    assert (Hlast : grid !! (length grid - 1)%nat = Some l_first).
    { apply np_logspace_inv in Hgrid as (y & Hy & ->).
      assert (Hnum : (2 <= n)%Z).
      { rewrite length_fmap, (np_linspace_length _ _ _ _ Hy) in Hlt. lia. }
      replace (length (pow10 <$> y) - 1)%nat
        with (Nat.pred (length (pow10 <$> y))) by lia.
      rewrite <- last_lookup, fmap_last.
      rewrite (np_linspace_last _ _ _ _ Hnum Hy). simpl.
      rewrite pow10_log10; [done|lra]. }
    eapply (increasing_lookup grid); [done| |exact Ha|exact Hlast]. lia.
  + apply Forall_app. split; [|done]. by apply Forall_take.
Qed.

(** A successful extension keeps the wavelength column strictly increasing
    and positive: upwards when the target [lmax] lies beyond the last
    wavelength, downwards when the positive target [lmin] lies before the
    first. *)
Theorem extension_keeps_grid_increasing (self : diel_const)
    (lmin lmax : R) (n : Z) (kind : string) (self' : diel_const) :
  increasing (_l self) -> Forall (fun x => 0 < x) (_l self) ->
  (extrapolate_constants_up curve_fit self lmin lmax n kind = (self', Ok ())
   -> Forall (fun x => x < lmax) (_l self)
   -> increasing (_l self') /\ Forall (fun x => 0 < x) (_l self'))
  /\ (extrapolate_constants_down curve_fit self lmin lmax n kind
      = (self', Ok ())
      -> 0 < lmin -> Forall (fun x => lmin < x) (_l self)
      -> increasing (_l self') /\ Forall (fun x => 0 < x) (_l self')).
Proof.
  intros Hinc Hpos. split.
  - by apply extension_up_grid.
  - by apply extension_down_grid.
Qed.


(** An extension does not change what the table answers at its old
    samples: on an increasing positive grid, a wavelength tabulated before
    a successful extension is answered afterwards with the pair tabulated
    for it, as long as that [n] is not zero and that [k] is positive. *)
Theorem extension_keeps_old_answers (self : diel_const) (lmin lmax : R)
    (num : Z) (kind : string) (self' : diel_const) (i : nat) (l n k : R) :
  table_ok self -> increasing (_l self) ->
  Forall (fun x => 0 < x) (_l self) ->
  (extrapolate_constants_up curve_fit self lmin lmax num kind
   = (self', Ok ())
   /\ Forall (fun x => x < lmax) (_l self))
  \/ (extrapolate_constants_down curve_fit self lmin lmax num kind
      = (self', Ok ())
      /\ 0 < lmin /\ Forall (fun x => lmin < x) (_l self)) ->
  _l self !! i = Some l -> _n self !! i = Some n -> _k self !! i = Some k ->
  n <> 0 -> 0 < k ->
  nk self' l = Ok (n, k).
Proof.
  intros Hok Hinc Hpos Hext Hl Hn Hk Hn0 Hk0.
  assert (Hok' : table_ok self').
  { eapply extrapolation_keeps_table_ok; [exact Hok|].
    destruct Hext as [[Hup _]|[Hdown _]]; eauto. }
  assert (Hgrid : increasing (_l self') /\ Forall (fun x => 0 < x) (_l self')).
  { destruct Hext as [[Hup Hbelow]|(Hdown & Hlmin & Habove)].
    - by eapply extension_up_grid.
    - by eapply extension_down_grid. }
  destruct Hgrid as [Hinc' Hpos'].
  assert (Hat : exists j, _l self' !! j = Some l /\ _n self' !! j = Some n
                          /\ _k self' !! j = Some k
                          /\ _lmin self' <= l <= _lmax self').
  { destruct Hext as [[Hup _]|[Hdown _]].
    - unfold extrapolate_constants_up in Hup.
      destruct (samples_up _ _ _ _ _ _) as [[[l_ext n_ext] k_ext]|e] eqn:Hs;
        [|by inversion Hup].
      apply update_attributes_Ok in Hup as (Hl' & Hn' & Hk' & Hmin & Hmax).
      cbn [set_extrapol _l _n _k] in *.
      exists i. rewrite Hl', Hn', Hk'.
      rewrite !lookup_app_l by (by eapply lookup_lt_Some).
      repeat split; try done.
      + apply np_min_spec in Hmin as [_ Hmin]. apply Hmin.
        apply elem_of_app. left. by eapply list_elem_of_lookup_2.
      + apply np_max_spec in Hmax as [_ Hmax]. apply Hmax.
        apply elem_of_app. left. by eapply list_elem_of_lookup_2.
    - unfold extrapolate_constants_down in Hdown.
      destruct (samples_down _ _ _ _ _ _) as [[[l_ext n_ext] k_ext]|e]
        eqn:Hs; [|by inversion Hdown].
      apply samples_down_spec in Hs as (_ & Hln & Hlk & _).
      apply update_attributes_Ok in Hdown as (Hl' & Hn' & Hk' & Hmin & Hmax).
      cbn [set_extrapol _l _n _k] in *.
      exists (length l_ext + i)%nat. rewrite Hl', Hn', Hk'.
      rewrite lookup_app_r by lia. rewrite <- Hln at 1.
      rewrite lookup_app_r by lia. rewrite <- Hlk at 1.
      rewrite lookup_app_r by lia.
      rewrite Hln, Hlk.
      replace (length l_ext + i - length l_ext)%nat with i by lia.
      repeat split; try done.
      + apply np_min_spec in Hmin as [_ Hmin]. apply Hmin.
        apply elem_of_app. right. by eapply list_elem_of_lookup_2.
      + apply np_max_spec in Hmax as [_ Hmax]. apply Hmax.
        apply elem_of_app. right. by eapply list_elem_of_lookup_2. }
  destruct Hat as (j & Hl' & Hn' & Hk' & Hrange).
  by apply (nk_at_sample self' j).
Qed.

End ExtensionKeepsGrid.

Lemma extension_keeps_grid_increasing_witness :
  exists self',
    extrapolate_constants_up sample_curve_fit (sample_table 2 1)
      1 1000 3 "constant" = (self', Ok ())
    /\ increasing (_l self') /\ Forall (fun x => 0 < x) (_l self').
Proof.
  eexists. split; [reflexivity|].
  destruct (extension_keeps_grid_increasing sample_curve_fit
              (sample_table 2 1) 1 1000 3 "constant"
              (extrapolate_constants_up sample_curve_fit (sample_table 2 1)
                 1 1000 3 "constant").1) as [Hup _].
  - simpl. lra.
  - repeat constructor; lra.
  - apply Hup; [reflexivity|]. repeat constructor; lra.
Defined.


Lemma extension_keeps_old_answers_witness :
  exists self',
    extrapolate_constants_up sample_curve_fit (sample_table 2 1)
      1 1000 3 "constant" = (self', Ok ())
    /\ nk self' 10 = Ok (2, 1).
Proof.
  eexists. split; [reflexivity|].
  apply (extension_keeps_old_answers sample_curve_fit (sample_table 2 1)
           1 1000 3 "constant" _ 1 10 2 1).
  - split; simpl; done.
  - simpl. lra.
  - repeat constructor; lra.
  - left. split; [reflexivity|]. repeat constructor; lra.
  - reflexivity.
  - reflexivity.
  - reflexivity.
  - lra.
  - lra.
Defined.

(** ** [get_mie_coefficients]: the returned package *)

Lemma assign_cell_length (cell v w : list C) :
  assign_cell cell v = Ok w -> length w = length cell.
Proof.
  unfold assign_cell. case_decide as Hlen; [by intros [= <-]|].
  destruct v as [|z [|z' v]]; intros [=]. subst w.
  by rewrite length_replicate.
Qed.

Section SweepShapes.

Context {T : Type} `{Dielectric T}.
Variable bhmie_function : bhmie_t.
Variable fsolve : (R -> R) -> R -> R.

Lemma size_body_full (r c d : nat) (n k : float64) (nang : Z) (ilam : nat)
    (item : nat * R) (st st' : mie_arrays) :
  size_body bhmie_function n k nang ilam item st = Ok st' ->
  arrays_full r c d st -> arrays_full r c d st'.
Proof.
  destruct item as [ia x].
  intros Hbody [Hok Hf1 Hf2].
  destruct (size_body_Ok bhmie_function r c n k nang ilam ia x st st'
              Hbody Hok) as (Hia & Hilam & Hok' & _).
  unfold size_body in Hbody.
  bind_inv Hbody. bind_inv Hbody. bind_inv Hbody.
  inversion Hbody; subst st'; clear Hbody.
  destruct (has_shape3_cell _ _ _ _ ia ilam Hf1 Hia Hilam)
    as (cell1 & Hcell1 & Hlen1).
  destruct (has_shape3_cell _ _ _ _ ia ilam Hf2 Hia Hilam)
    as (cell2 & Hcell2 & Hlen2).
  rewrite Hcell1 in Hv0. rewrite Hcell2 in Hv1.
  apply assign_cell_length in Hv0, Hv1.
  split; [done|..]; simpl; apply has_shape3_set2; congruence.
Qed.

Lemma for_each_invariant {I S : Type} (P : S -> Prop)
    (body : I -> S -> result S) (items : list I) :
  (forall x s s', body x s = Ok s' -> P s -> P s') ->
  forall s s', for_each body items s = Ok s' -> P s -> P s'.
Proof.
  intros Hbody. induction items as [|x items IH]; intros s s' Hloop HP.
  - simpl in Hloop. by inversion Hloop; subst.
  - simpl in Hloop. bind_inv Hloop. eauto.
Qed.

Lemma wavelength_body_full (r c d : nat) (A : list R) (diel_constants : T)
    (nang : Z) (ext : bool) (item : nat * R) (st st' : mie_arrays) :
  wavelength_body bhmie_function fsolve A diel_constants nang ext item st
  = Ok st' ->
  arrays_full r c d st -> arrays_full r c d st'.
Proof.
  destruct item as [ilam lam]. intros Hbody Hfull.
  unfold wavelength_body in Hbody.
  bind_inv Hbody. destruct v as [n k]. bind_inv Hbody. bind_inv Hbody.
  rename v0 into st1.
  assert (Hfull1 : arrays_full r c d st1).
  { eapply (for_each_invariant (arrays_full r c d)); [|exact Hv1|exact Hfull].
    intros x s s'. apply size_body_full. }
  bind_inv Hbody. bind_inv Hbody. inversion Hbody; subst st'; clear Hbody.
  destruct Hfull1 as [[Hqa Hqs Hg Hs1 Hs2] Hf1 Hf2].
  split; [split|..]; simpl; try done; by apply has_shape2_set_col_from.
Qed.

Lemma get_mie_coefficients_package_shape (A LAM : list R) (diel_constants : T)
    (nang : Z) (return_all ext : bool) (pkg : package) (ws : list warning) :
  get_mie_coefficients bhmie_function fsolve A LAM diel_constants nang
    return_all ext = Ok (pkg, ws) ->
  let r := length A in
  let c := length LAM in
  let d := Z.to_nat (2 * nang - 1) in
  A <> [] /\ LAM <> [] /\ (1 <= nang)%Z
  /\ has_shape2 r c (pkg_q_abs pkg) = true
  /\ has_shape2 r c (pkg_q_sca pkg) = true
  /\ has_shape2 r c (pkg_g pkg) = true
  /\ has_shape3 r c d (pkg_S1 pkg) = true
  /\ has_shape3 r c d (pkg_S2 pkg) = true
  /\ length (pkg_theta pkg) = d.
Proof.
  intros Hget r c d. unfold get_mie_coefficients in Hget.
  case_decide as Hnang; [done|].
  bind_inv Hget. bind_inv Hget. bind_inv Hget. bind_inv Hget.
  rename v2 into st'. bind_inv Hget. rename v2 into theta.
  inversion Hget; subst pkg ws; clear Hget. simpl.
  assert (Hfull : arrays_full r c d st').
  { eapply (for_each_invariant (arrays_full r c d)); [|exact Hv2|].
    - intros x s s'. apply wavelength_body_full.
    - split; [split|..]; simpl;
        (apply has_shape2_replicate || apply has_shape3_replicate). }
  destruct Hfull as [[Hqa Hqs Hg _ _] Hf1 Hf2].
  split; [by destruct A|]. split; [by destruct LAM|]. split; [lia|].
  repeat (split; [done|]).
  by apply np_linspace_length in Hv3.
Qed.

(** The package of a sweep that returns has the shapes that the source
    allocates: the three efficiencies are [len(A)] by [len(LAM)], the two
    amplitudes carry [2 nang - 1] angles on top, and [theta] has as many
    entries.  Both grids are then non-empty and [nang] is at least one. *)
Theorem get_mie_coefficients_shapes (A LAM : list R) (diel_constants : T)
    (nang : Z) (return_all ext : bool) (pkg : package) (ws : list warning) :
  get_mie_coefficients bhmie_function fsolve A LAM diel_constants nang
    return_all ext = Ok (pkg, ws) ->
  let r := length A in
  let c := length LAM in
  let d := Z.to_nat (2 * nang - 1) in
  A <> [] /\ LAM <> [] /\ (1 <= nang)%Z
  /\ has_shape2 r c (pkg_q_abs pkg) = true
  /\ has_shape2 r c (pkg_q_sca pkg) = true
  /\ has_shape2 r c (pkg_g pkg) = true
  /\ has_shape3 r c d (pkg_S1 pkg) = true
  /\ has_shape3 r c d (pkg_S2 pkg) = true
  /\ length (pkg_theta pkg) = d.
Proof. apply get_mie_coefficients_package_shape. Qed.

(** An empty size grid, an empty wavelength grid or an angle count below
    one ends the sweep in [ValueError] before any Mie call. *)
Theorem get_mie_coefficients_rejects (A LAM : list R) (diel_constants : T)
    (nang : Z) (return_all ext : bool) :
  A = [] \/ LAM = [] \/ (nang <= 0)%Z ->
  get_mie_coefficients bhmie_function fsolve A LAM diel_constants nang
    return_all ext = Raise ValueError.
Proof.
  intros Hbad. unfold get_mie_coefficients.
  case_decide as Hnang; [done|].
  destruct LAM as [|lam LAM]; [done|].
  destruct A as [|a A]; [done|].
  destruct Hbad as [?|[?|?]]; try done. lia.
Qed.

End SweepShapes.

Lemma get_mie_coefficients_shapes_witness :
  exists pkg ws,
    get_mie_coefficients sample_bhmie sample_fsolve [1; 2] [2 * PI]
      Vacuum 3 false false = Ok (pkg, ws)
    /\ has_shape2 2 1 (pkg_q_abs pkg) = true
    /\ has_shape3 2 1 5 (pkg_S1 pkg) = true
    /\ length (pkg_theta pkg) = 5%nat.
Proof.
  destruct (get_mie_coefficients_total sample_bhmie sample_fsolve 3
              (sample_bhmie_total 3) [1; 2] [2 * PI] Vacuum false false)
    as (pkg & ws & Hget); try done.
  { repeat constructor; [|by exists 1, 0].
    apply Rmult_integral_contrapositive_currified; [lra|apply PI_neq0]. }
  exists pkg, ws. split; [exact Hget|].
  destruct (get_mie_coefficients_shapes sample_bhmie sample_fsolve
              [1; 2] [2 * PI] Vacuum 3 false false pkg ws Hget)
    as (_ & _ & _ & Hqa & _ & _ & Hs1 & _ & Htheta).
  split; [exact Hqa|]. split; [exact Hs1|exact Htheta].
Defined.

Lemma get_mie_coefficients_rejects_witness :
  get_mie_coefficients sample_bhmie sample_fsolve [] [1] Vacuum 3 false false
  = Raise ValueError.
Proof. apply get_mie_coefficients_rejects. by left. Defined.

(** ** [get_mie_coefficients] on a tabulated material *)

Lemma nk_Ok_in_range (self : diel_const) (l : R) (n k : float64) :
  nk self l = Ok (n, k) -> _lmin self <= l <= _lmax self.
Proof.
  unfold nk. case_decide as Hout; [done|]. intros _.
  split; apply Rnot_lt_le; intros Hlt; apply Hout; [by left|by right].
Qed.

Section SweepOnTable.

Variable bhmie_function : bhmie_t.
Variable fsolve : (R -> R) -> R -> R.
Variable nang : Z.

Hypothesis bhmie_total : forall x m,
  exists res,
    bhmie_function x m nang = Ok res
    /\ length (S1 res) = Z.to_nat (2 * nang - 1)
    /\ length (S2 res) = Z.to_nat (2 * nang - 1).

(** With a Mie routine that answers every call, the sweep over a
    well-formed table of positive wavelengths returns a package exactly
    when every requested wavelength lies within the table's bounds: one
    wavelength outside makes the whole call fail, whatever the sizes. *)
Theorem get_mie_coefficients_returns_iff_covered (self : diel_const)
    (A LAM : list R) (return_all ext : bool) :
  table_ok self -> 0 < _lmin self ->
  A <> [] -> LAM <> [] -> (1 <= nang)%Z ->
  (exists pkg ws,
     get_mie_coefficients bhmie_function fsolve A LAM self nang
       return_all ext = Ok (pkg, ws))
  <-> Forall (fun lam => _lmin self <= lam <= _lmax self) LAM.
Proof.
  intros Hok Hlmin HA HLAM Hnang. split.
  - intros (pkg & ws & Hget).
    destruct (get_mie_coefficients_columns bhmie_function fsolve _ _ _ _ _ _
                _ _ Hget) as (_ & _ & Hcols).
    apply Forall_forall. intros lam Hlam.
    apply list_elem_of_lookup_1 in Hlam as [ilam Hilam].
    destruct (Hcols ilam lam Hilam) as (st0 & st1 & Hok0 & Hbody & _).
    destruct (wavelength_body_spec bhmie_function fsolve _ _ _ _ _ _ _ _ _ _
                Hbody Hok0 eq_refl) as (_ & _ & n & k & Hnk & _).
    by eapply nk_Ok_in_range.
  - intros Hcov.
    apply (get_mie_coefficients_total bhmie_function fsolve nang bhmie_total);
      try done.
    eapply Forall_impl; [exact Hcov|]. intros lam Hlam. simpl in Hlam.
    split; [lra|]. unfold nk_at, diel_const_dielectric.
    rewrite nk_in_range_value by done. eauto.
Qed.

End SweepOnTable.

Lemma get_mie_coefficients_returns_iff_covered_witness :
  (exists pkg ws,
     get_mie_coefficients sample_bhmie sample_fsolve [1] [5]
       (sample_table 2 1) 3 false false = Ok (pkg, ws))
  /\ ~ (exists pkg ws,
          get_mie_coefficients sample_bhmie sample_fsolve [1] [5; 1000]
            (sample_table 2 1) 3 false false = Ok (pkg, ws)).
Proof.
  assert (Hok : table_ok (sample_table 2 1)) by (split; simpl; done).
  split.
  - apply (get_mie_coefficients_returns_iff_covered sample_bhmie
             sample_fsolve 3 (sample_bhmie_total 3) (sample_table 2 1)
             [1] [5] false false); try done.
    + simpl. lra.
    + repeat constructor; simpl; lra.
  - intros Hret.
    apply (get_mie_coefficients_returns_iff_covered sample_bhmie
             sample_fsolve 3 (sample_bhmie_total 3) (sample_table 2 1)
             [1] [5; 1000] false false) in Hret; try done.
    + apply Forall_cons in Hret as [_ Hret].
      apply Forall_cons in Hret as [[_ Hhi] _]. simpl in Hhi. lra.
    + simpl. lra.
Defined.

(** ** [get_mie_coefficients]: when no size converges *)

Section SweepBoundary.

Context {T : Type} `{Dielectric T}.
Variable bhmie_function : bhmie_t.
Variable fsolve : (R -> R) -> R -> R.

Lemma converging_none (n k : float64) (X : list R) :
  Forall (fun x => (NMXX <= nmx_of x n k)%Z) X ->
  converging fsolve true n k X
  = [fsolve (fun x => x + 4 * fpow x 0.33333 + 2 - IZR NMXX) (IZR NMXX)].
Proof.
  intros Hall. unfold converging. rewrite <- list_fmap_compose.
  rewrite (select_none
             ((fun v : Z => bool_decide (v < NMXX)%Z)
              ∘ (fun x => nmx_of x n k))); [done|].
  intros x Hx. rewrite Forall_forall in Hall. specialize (Hall x Hx).
  simpl. apply bool_decide_eq_false_2. lia.
Qed.

(** With the large-grain extrapolation switched on and a wavelength at
    which no size stays below the threshold, the Mie routine is called
    once, at the size parameter that [fsolve] returns for the threshold.
    Its efficiencies fill the whole column; its asymmetry factor lands in
    row 0, which thereby does not get the large-grain formula that every
    later row gets. *)
Theorem no_size_converges_uses_boundary (A LAM : list R)
    (diel_constants : T) (nang : Z) (return_all : bool) (pkg : package)
    (ws : list warning) (ilam : nat) (lam n k : R) :
  get_mie_coefficients bhmie_function fsolve A LAM diel_constants nang
    return_all true = Ok (pkg, ws) ->
  LAM !! ilam = Some lam ->
  nk_at diel_constants lam = Ok (n, k) ->
  Forall (fun a => (NMXX <= nmx_of (size_parameter lam a) n k)%Z) A ->
  exists res,
    bhmie_function
      (fsolve (fun x => x + 4 * fpow x 0.33333 + 2 - IZR NMXX) (IZR NMXX))
      (n, k) nang = Ok res
    /\ at2 (pkg_q_abs pkg) 0 ilam = Some (Qabs res)
    /\ at2 (pkg_q_sca pkg) 0 ilam = Some (Qsca res)
    /\ at2 (pkg_g pkg) 0 ilam = Some (Re (gsca res))
    /\ forall i a, A !! i = Some a -> (1 <= i)%nat ->
         at2 (pkg_q_abs pkg) i ilam = Some (Qabs res)
         /\ at2 (pkg_q_sca pkg) i ilam = Some (Qsca res)
         /\ at2 (pkg_g pkg) i ilam = Some (g_large (size_parameter lam a)).
Proof.
  intros Hget Hlam Hnk Hall.
  destruct (get_mie_coefficients_columns bhmie_function fsolve _ _ _ _ _ _
              _ _ Hget) as (_ & _ & Hcols).
  destruct (Hcols ilam lam Hlam) as (st0 & st1 & Hok0 & Hbody & Hcell).
  destruct (wavelength_body_spec bhmie_function fsolve _ _ _ _ _ _ _ _ _ _
              Hbody Hok0 eq_refl)
    as (_ & _ & n' & k' & Hnk' & _ & Hrows & Hlater).
  rewrite Hnk in Hnk'. inversion Hnk'; subst n' k'; clear Hnk'.
  rewrite converging_none in Hrows, Hlater
    by (by apply Forall_fmap).
  destruct (Hrows 0%nat _ eq_refl) as (res & Hres & Hcell0).
  exists res. split; [exact Hres|].
  pose proof (Hcell 0%nat) as Hc0. rewrite Hcell0 in Hc0.
  injection Hc0 as Ha Hs Hg. repeat (split; [done|]).
  intros i a Ha' Hi.
  destruct (Hlater i a Ha' Hi) as (x_last & res' & Hlast & Hres' & Hcelli).
  inversion Hlast; subst x_last. rewrite Hres in Hres'.
  inversion Hres'; subst res'.
  pose proof (Hcell i) as Hci. rewrite Hcelli in Hci.
  by injection Hci as Ha'' Hs'' Hg''.
Qed.

End SweepBoundary.

Lemma no_size_converges_uses_boundary_witness :
  exists pkg ws,
    get_mie_coefficients sample_bhmie sample_fsolve [200000; 300000]
      [2 * PI] Vacuum 3 false true = Ok (pkg, ws)
    /\ at2 (pkg_g pkg) 0 0 = Some 0.5
    /\ at2 (pkg_g pkg) 1 0 = Some (g_large 300000).
Proof.
  destruct (get_mie_coefficients_total sample_bhmie sample_fsolve 3
              (sample_bhmie_total 3) [200000; 300000] [2 * PI] Vacuum
              false true) as (pkg & ws & Hget); try done.
  { repeat constructor; [|by exists 1, 0].
    apply Rmult_integral_contrapositive_currified; [lra|apply PI_neq0]. }
  exists pkg, ws. split; [exact Hget|].
  destruct (no_size_converges_uses_boundary sample_bhmie sample_fsolve
              [200000; 300000] [2 * PI] Vacuum 3 false pkg ws 0 (2 * PI)
              1 0 Hget eq_refl eq_refl)
    as (res & Hres & _ & _ & Hg0 & Hlater).
  { repeat constructor; rewrite size_parameter_unit.
    - pose proof (nmx_of_lower 200000 1 0 ltac:(done)). unfold NMXX. lia.
    - pose proof (nmx_of_lower 300000 1 0 ltac:(done)). unfold NMXX. lia. }
  inversion Hres; subst res; clear Hres.
  split; [exact Hg0|].
  destruct (Hlater 1%nat 300000 eq_refl ltac:(lia)) as (_ & _ & Hg1).
  by rewrite size_parameter_unit in Hg1.
Defined.

(** ** [get_kappa_from_q] *)

Lemma broadcast_same_length {A B D : Type} (op : A -> B -> D) xs ys :
  length xs = length ys -> broadcast op xs ys = Ok (zip_with op xs ys).
Proof. intros Hlen. unfold broadcast. by rewrite decide_True. Qed.

Lemma scale_rows_at2 (fac : list R) (n_lam : nat) (q kappa : matrix)
    (i j : nat) (f v : R) :
  scale_rows fac n_lam q = Ok kappa ->
  fac !! i = Some f -> at2 q i j = Some v ->
  at2 kappa i j = Some (v * f).
Proof.
  unfold scale_rows. destruct (has_shape2 _ _ q); [|done].
  intros [= <-] Hf Hv. unfold at2 in *.
  rewrite lookup_zip_with, Hf. simpl.
  destruct (q !! i) as [row|]; simpl in *; [|done].
  by rewrite list_lookup_fmap, Hv.
Qed.

Lemma kappa_of_spheres (a : list R) (rho_s : R)
    (q_abs q_sca kappa_abs kappa_sca : matrix) (i j : nat) (ai qa qs : R) :
  get_kappa_from_q a (grain_mass rho_s a) q_abs q_sca
  = Ok (kappa_abs, kappa_sca) ->
  a !! i = Some ai ->
  at2 q_abs i j = Some qa -> at2 q_sca i j = Some qs ->
  at2 kappa_abs i j = Some (3 * qa / (4 * rho_s * ai))
  /\ at2 kappa_sca i j = Some (3 * qs / (4 * rho_s * ai)).
Proof.
  intros Hget Ha Hqa Hqs. unfold get_kappa_from_q in Hget.
  rewrite broadcast_same_length in Hget
    by (unfold grain_mass; by rewrite length_fmap).
  rewrite Ok_bind in Hget.
  bind_inv Hget. rename v into fac. bind_inv Hget. bind_inv Hget.
  inversion Hget; subst; clear Hget.
  destruct (traverse_lookup _ _ _ i (fdiv (PI * ai ^ 2)
              (4 * PI / 3 * rho_s * ai ^ 3)) Hv) as (f & Hf & Hdiv).
  { unfold grain_mass. by rewrite lookup_zip_with, list_lookup_fmap, Ha. }
  unfold fdiv in Hdiv. case_decide as Hm; [done|].
  inversion Hdiv; subst f; clear Hdiv.
  assert (Hrho : rho_s <> 0) by (intros ->; apply Hm; ring).
  assert (Hai : ai <> 0) by (intros ->; apply Hm; ring).
  pose proof PI_neq0 as Hpi.
  rewrite (scale_rows_at2 _ _ _ _ i j _ qa Hv0 Hf Hqa).
  rewrite (scale_rows_at2 _ _ _ _ i j _ qs Hv1 Hf Hqs).
  split; f_equal; by field.
Qed.

(** With the masses of compact spheres, [m = 4 pi / 3 rho_s a**3], the
    conversion returns [kappa = 3 Q / (4 rho_s a)] entry by entry. *)
Theorem get_kappa_from_q_of_spheres (a : list R) (rho_s : R)
    (q_abs q_sca kappa_abs kappa_sca : matrix) (i j : nat) (ai qa qs : R) :
  get_kappa_from_q a (grain_mass rho_s a) q_abs q_sca
  = Ok (kappa_abs, kappa_sca) ->
  a !! i = Some ai ->
  at2 q_abs i j = Some qa -> at2 q_sca i j = Some qs ->
  at2 kappa_abs i j = Some (3 * qa / (4 * rho_s * ai))
  /\ at2 kappa_sca i j = Some (3 * qs / (4 * rho_s * ai)).
Proof. apply kappa_of_spheres. Qed.

Lemma get_kappa_from_q_of_spheres_witness :
  exists kappa_abs kappa_sca,
    get_kappa_from_q [2] (grain_mass 1 [2]) [[3]] [[5]]
    = Ok (kappa_abs, kappa_sca)
    /\ at2 kappa_abs 0 0 = Some (3 * 3 / (4 * 1 * 2))
    /\ at2 kappa_sca 0 0 = Some (3 * 5 / (4 * 1 * 2)).
Proof.
  assert (Hm : 4 * PI / 3 * 1 * 2 ^ 3 <> 0).
  { pose proof PI_RGT_0. lra. }
  assert (Hget : exists kappa_abs kappa_sca,
            get_kappa_from_q [2] (grain_mass 1 [2]) [[3]] [[5]]
            = Ok (kappa_abs, kappa_sca)).
  { unfold get_kappa_from_q, grain_mass, broadcast, fdiv. simpl.
    rewrite decide_False by done. simpl. eauto. }
  destruct Hget as (kappa_abs & kappa_sca & Hget).
  exists kappa_abs, kappa_sca. split; [exact Hget|].
  by apply (get_kappa_from_q_of_spheres [2] 1 [[3]] [[5]] kappa_abs
              kappa_sca 0 0 2 3 5).
Defined.

(** ** [get_size_averaged_opacity] *)

Lemma np_sum_cons (x : R) (xs : list R) : np_sum (x :: xs) = x + np_sum xs.
Proof.
  unfold np_sum. simpl.
  assert (Hshift : forall ys acc, foldl Rplus acc ys = acc + foldl Rplus 0 ys).
  { induction ys as [|y ys IH]; intros acc; simpl; [ring|].
    rewrite (IH (acc + y)), (IH (0 + y)). ring. }
  rewrite (Hshift xs (0 + x)). ring.
Qed.

Lemma np_sum_nonneg (xs : list R) :
  Forall (fun v => 0 <= v) xs -> 0 <= np_sum xs.
Proof.
  induction 1 as [|x xs Hx _ IH]; [unfold np_sum; simpl; lra|].
  rewrite np_sum_cons. lra.
Qed.

(** A sum weighted by non-negative weights lies between the least and the
    greatest term times the total weight. *)
Lemma np_sum_weighted (lo hi : R) (cs ws : list R) :
  length cs = length ws ->
  Forall (fun c => lo <= c <= hi) cs -> Forall (fun w => 0 <= w) ws ->
  lo * np_sum ws <= np_sum (zip_with Rmult cs ws) <= hi * np_sum ws.
Proof.
  revert ws; induction cs as [|c cs IH]; intros [|w ws] Hlen Hcs Hws;
    simpl in Hlen; try lia.
  - unfold np_sum; simpl. lra.
  - inversion Hcs as [|? ? Hc Hcs']; inversion Hws as [|? ? Hw Hws']; subst.
    cbn [zip_with]. rewrite !np_sum_cons.
    specialize (IH ws ltac:(lia) Hcs' Hws'). nra.
Qed.

Lemma np_sum_scale (c : R) (xs : list R) :
  np_sum ((fun v => v * c) <$> xs) = np_sum xs * c.
Proof.
  induction xs as [|x xs IH]; [unfold np_sum; simpl; ring|].
  rewrite fmap_cons, !np_sum_cons, IH. ring.
Qed.

Lemma zip_with_scale_r (c : R) (cs ws : list R) :
  zip_with Rmult cs ((fun s => s / c) <$> ws)
  = (fun v => v * / c) <$> zip_with Rmult cs ws.
Proof.
  revert ws; induction cs as [|x cs IH]; intros [|w ws]; simpl; try done.
  rewrite IH. f_equal. unfold Rdiv. ring.
Qed.

Lemma traverse_fdiv (S : R) (xs ys : list R) :
  traverse (fun s => fdiv s S) xs = Ok ys ->
  ys = (fun s => s / S) <$> xs /\ (xs <> [] -> S <> 0).
Proof.
  revert ys; induction xs as [|x xs IH]; intros ys Hys; simpl in Hys.
  - by inversion Hys.
  - bind_inv Hys. bind_inv Hys. inversion Hys; subst ys; clear Hys.
    unfold fdiv in Hv. case_decide; [done|]. inversion Hv; subst v.
    destruct (IH _ Hv0) as [-> _]. done.
Qed.

Lemma column_spec (M : matrix) (i : nat) (col : list R) :
  column M i = Ok col ->
  length col = length M
  /\ forall j v, col !! j = Some v -> at2 M j i = Some v.
Proof.
  intros Hcol. unfold column in Hcol. split.
  - by eapply traverse_length.
  - intros j v Hv.
    destruct (lookup_lt_is_Some_2 M j) as [row Hrow].
    { apply traverse_length in Hcol. apply lookup_lt_Some in Hv. lia. }
    destruct (traverse_lookup _ _ _ j row Hcol Hrow) as (y & Hy & Hrowi).
    unfold at2. rewrite Hrow. rewrite Hv in Hy. inversion Hy; subst y.
    by destruct (row !! i); inversion Hrowi.
Qed.

Section AggregatorFacts.

Context {T : Type} `{Dielectric T}.
Variable bhmie_function : bhmie_t.
Variable fsolve : (R -> R) -> R -> R.

(** The averaging loop writes slot [i] in pass [i] and leaves it alone
    afterwards. *)
Lemma average_loop_spec (kappa_abs kappa_sca : matrix) (sig : list R)
    (len : nat) :
  forall (o : nat) (acc acc' : list R * list R),
    for_each (average_at (Some (kappa_abs, kappa_sca)) sig) (seq o len) acc
    = Ok acc' ->
    length acc'.1 = length acc.1 /\ length acc'.2 = length acc.2
    /\ (forall i, (i < o)%nat ->
          acc'.1 !! i = acc.1 !! i /\ acc'.2 !! i = acc.2 !! i)
    /\ (forall i, (o <= i < o + len)%nat ->
          exists col_abs col_sca p_abs p_sca,
            column kappa_abs i = Ok col_abs
            /\ column kappa_sca i = Ok col_sca
            /\ broadcast Rmult col_abs sig = Ok p_abs
            /\ broadcast Rmult col_sca sig = Ok p_sca
            /\ ((i < length acc.1)%nat -> acc'.1 !! i = Some (np_sum p_abs))
            /\ ((i < length acc.2)%nat -> acc'.2 !! i = Some (np_sum p_sca))).
Proof.
  induction len as [|len IH]; intros o acc acc' Hloop.
  - simpl in Hloop. inversion Hloop; subst. repeat split; try done.
    intros i Hi. lia.
  - cbn [seq for_each] in Hloop. bind_inv Hloop. rename v into acc1.
    unfold average_at in Hv.
    bind_inv Hv. rename v into col_abs. bind_inv Hv. rename v into col_sca.
    bind_inv Hv. rename v into p_abs. bind_inv Hv. rename v into p_sca.
    inversion Hv; subst acc1; clear Hv.
    destruct (IH (S o) _ _ Hloop) as (Hl1 & Hl2 & Hbefore & Hrange).
    cbn [fst snd] in *. rewrite length_insert in Hl1, Hl2.
    split; [done|]. split; [done|]. split.
    + intros i Hi. destruct (Hbefore i ltac:(lia)) as [-> ->].
      by rewrite !list_lookup_insert_ne by lia.
    + intros i Hi. destruct (decide (i = o)) as [->|Hne].
      * exists col_abs, col_sca, p_abs, p_sca. repeat (split; [done|]).
        destruct (Hbefore o ltac:(lia)) as [-> ->].
        split; intros Hlt; by rewrite list_lookup_insert_eq.
      * destruct (Hrange i ltac:(lia))
          as (ca & cs & pa & ps & Hca & Hcs & Hpa & Hps & Ha & Hs).
        exists ca, cs, pa, ps. repeat (split; [done|]).
        rewrite !length_insert in Ha, Hs. done.
Qed.

Lemma average_loop_unbound (sig : list R) (len : nat) (o : nat)
    (acc : list R * list R) :
  for_each (average_at None sig) (seq o (S len)) acc
  = Raise UnboundLocalError.
Proof. reflexivity. Qed.

(** The call returns a value for a non-empty wavelength grid only along
    one path: [q_abs] and [q_sca] both supplied and [k_abs] or [k_sca]
    missing.  Opacities handed in as [k_abs], [k_sca] are never read, and
    the efficiencies computed from [diel_const] alone are never converted:
    both paths reach the averaging loop with [kappa_abs] unbound. *)
Theorem get_size_averaged_opacity_returns_only_from_q (a lam n : list R)
    (rho_s : R) (diel_const : option T)
    (q_abs q_sca k_abs k_sca : option matrix) (res : list R * list R) :
  get_size_averaged_opacity bhmie_function fsolve a lam n rho_s diel_const
    q_abs q_sca k_abs k_sca = Ok res ->
  lam <> [] ->
  (exists d, diel_const = Some d)
  /\ (exists qa qs, q_abs = Some qa /\ q_sca = Some qs)
  /\ (k_abs = None \/ k_sca = None).
Proof.
  intros Hget Hlam. unfold get_size_averaged_opacity in Hget.
  destruct diel_const as [d|]; [|done]. split; [eauto|].
  cbn [py_assert is_none negb] in Hget. rewrite Ok_bind in Hget.
  rewrite andb_false_r, Ok_bind in Hget.
  bind_inv Hget. bind_inv Hget. bind_inv Hget. rename v1 into sig.
  bind_inv Hget. rename v1 into kappa.
  assert (Hkappa : exists ka ks, kappa = Some (ka, ks)).
  { destruct kappa as [[ka ks]|]; [eauto|].
    destruct lam as [|l0 lam]; [done|]. cbn [length] in Hget.
    by rewrite average_loop_unbound in Hget. }
  destruct Hkappa as (ka & ks & ->).
  destruct q_abs as [qa|], q_sca as [qs|], k_abs as [kabs|], k_sca as [ksca|];
    cbn [is_none orb andb] in Hv2;
    try (bind_inv Hv2; by inversion Hv2);
    try (by inversion Hv2);
    split; eauto.
Qed.

Lemma weighted_column_bounds (M : matrix) (i : nat) (col p sig2 : list R)
    (lo hi : R) :
  column M i = Ok col ->
  broadcast Rmult col ((fun s => s / np_sum sig2) <$> sig2) = Ok p ->
  length sig2 = length M -> Forall (fun w => 0 <= w) sig2 ->
  np_sum sig2 <> 0 ->
  (forall j v, at2 M j i = Some v -> lo <= v <= hi) ->
  lo <= np_sum p <= hi.
Proof.
  intros Hcol Hp Hlen Hpos Hnz Hbounds.
  apply column_spec in Hcol as [Hlen_col Hcol].
  rewrite broadcast_same_length in Hp by (rewrite length_fmap; lia).
  inversion Hp; subst p; clear Hp.
  rewrite zip_with_scale_r, np_sum_scale.
  assert (HS : 0 < np_sum sig2).
  { pose proof (np_sum_nonneg sig2 Hpos). lra. }
  destruct (np_sum_weighted lo hi col sig2) as [Hlo Hhi]; [lia| |done|].
  { apply Forall_forall. intros v Hv.
    apply list_elem_of_lookup_1 in Hv as [j Hj]. eauto. }
  assert (Hinv : 0 < / np_sum sig2) by (by apply Rinv_0_lt_compat).
  split.
  - apply Rmult_le_reg_r with (np_sum sig2); [done|].
    rewrite Rmult_assoc, Rinv_l by done. lra.
  - apply Rmult_le_reg_r with (np_sum sig2); [done|].
    rewrite Rmult_assoc, Rinv_l by done. lra.
Qed.

(** Along the path that returns, the result is a weighted mean over the
    sizes: for a distribution [n >= 0] on a non-empty grid of positive
    sizes and a positive density, the averaged absorption and scattering opacities at
    a wavelength lie between the least and the greatest single-size
    opacity at that wavelength. *)
Theorem get_size_averaged_opacity_is_weighted_mean (a lam n : list R)
    (rho_s : R) (d : T) (q_abs q_sca : matrix) (k_abs k_sca : option matrix)
    (kappa_abs_m kappa_sca_m : list R) (kappa_abs kappa_sca : matrix)
    (i : nat) (lo_abs hi_abs lo_sca hi_sca : R) :
  get_size_averaged_opacity bhmie_function fsolve a lam n rho_s (Some d)
    (Some q_abs) (Some q_sca) k_abs k_sca = Ok (kappa_abs_m, kappa_sca_m) ->
  get_kappa_from_q a (grain_mass rho_s a) q_abs q_sca
  = Ok (kappa_abs, kappa_sca) ->
  a <> [] -> length n = length a -> 0 < rho_s ->
  Forall (fun ai => 0 < ai) a -> Forall (fun ni => 0 <= ni) n ->
  (i < length lam)%nat ->
  (forall j v, at2 kappa_abs j i = Some v -> lo_abs <= v <= hi_abs) ->
  (forall j v, at2 kappa_sca j i = Some v -> lo_sca <= v <= hi_sca) ->
  exists v_abs v_sca,
    kappa_abs_m !! i = Some v_abs /\ lo_abs <= v_abs <= hi_abs
    /\ kappa_sca_m !! i = Some v_sca /\ lo_sca <= v_sca <= hi_sca.
Proof.
  intros Hget Hkappa Hne Hn Hrho Ha Hnn Hi Habs Hsca.
  unfold get_size_averaged_opacity in Hget.
  cbn [py_assert is_none negb orb andb] in Hget. rewrite !Ok_bind in Hget.
  assert (Hm : length (grain_mass rho_s a) = length a)
    by (unfold grain_mass; by rewrite length_fmap).
  rewrite broadcast_same_length, Ok_bind in Hget by lia.
  rewrite broadcast_same_length, Ok_bind in Hget
    by (rewrite length_zip_with; lia).
  set (sig2 := zip_with Rmult (zip_with Rmult n (grain_mass rho_s a)) a)
    in Hget.
  bind_inv Hget. rename v into sig.
  assert (Hlen2 : length sig2 = length a).
  { unfold sig2. rewrite !length_zip_with. lia. }
  assert (Hpos2 : Forall (fun w => 0 <= w) sig2).
  { apply Forall_lookup. intros j w Hw. unfold sig2 in Hw.
    apply lookup_zip_with_Some in Hw as (nm & aj & -> & Hnm & Haj).
    apply lookup_zip_with_Some in Hnm as (nj & mj & -> & Hnj & Hmj).
    unfold grain_mass in Hmj. rewrite list_lookup_fmap, Haj in Hmj.
    inversion Hmj; subst mj.
    rewrite Forall_lookup in Ha, Hnn.
    pose proof (Ha _ _ Haj) as Haj0. pose proof (Hnn _ _ Hnj) as Hnj0.
    pose proof (grain_mass_pos rho_s aj Hrho Haj0).
    apply Rmult_le_pos; [apply Rmult_le_pos|]; lra. }
  apply traverse_fdiv in Hv as [-> Hnz].
  assert (HS : np_sum sig2 <> 0).
  { apply Hnz. intros Hnil. rewrite Hnil in Hlen2. by destruct a. }
  bind_inv Hget. rename v into kappa.
  assert (Hk : kappa = Some (kappa_abs, kappa_sca)).
  { destruct k_abs, k_sca; cbn [is_none orb] in Hv;
      try (rewrite Hkappa in Hv; by inversion Hv).
    inversion Hv; subst kappa.
    destruct lam as [|lam0 lam]; [simpl in Hi; lia|].
    cbn [length] in Hget. by rewrite average_loop_unbound in Hget. }
  subst kappa.
  destruct (average_loop_spec _ _ _ _ _ _ _ Hget)
    as (_ & _ & _ & Hrange).
  destruct (Hrange i ltac:(lia))
    as (ca & cs & pa & ps & Hca & Hcs & Hpa & Hps & Hra & Hrs).
  cbn [fst snd] in Hra, Hrs. rewrite length_replicate in Hra, Hrs.
  assert (Hrows : length kappa_abs = length a /\ length kappa_sca = length a).
  { unfold get_kappa_from_q in Hkappa.
    rewrite broadcast_same_length, Ok_bind in Hkappa by lia.
    bind_inv Hkappa. rename v into fac.
    apply traverse_length in Hv0. rewrite length_zip_with in Hv0.
    bind_inv Hkappa. bind_inv Hkappa. inversion Hkappa; subst.
    unfold scale_rows in Hv1, Hv2.
    destruct (has_shape2 _ _ q_abs) eqn:Hsa; [|done].
    destruct (has_shape2 _ _ q_sca) eqn:Hss; [|done].
    apply has_shape2_spec in Hsa as [Hsa _].
    apply has_shape2_spec in Hss as [Hss _].
    inversion Hv1; inversion Hv2. rewrite !length_zip_with. lia. }
  destruct Hrows as [Hrows_abs Hrows_sca].
  exists (np_sum pa), (np_sum ps).
  split; [by apply Hra|]. split.
  { eapply (weighted_column_bounds kappa_abs i ca pa sig2); try done. lia. }
  split; [by apply Hrs|].
  eapply (weighted_column_bounds kappa_sca i cs ps sig2); try done. lia.
Qed.

End AggregatorFacts.

Lemma sample_average_runs :
  exists res,
    get_size_averaged_opacity sample_bhmie sample_fsolve [2] [1] [1] 1
      (Some Vacuum) (Some [[3]]) (Some [[5]]) None None = Ok res.
Proof.
  pose proof PI_RGT_0 as Hpi.
  assert (Hm : 4 * PI / 3 * 1 * 2 ^ 3 <> 0) by lra.
  assert (Hs : np_sum [1 * (4 * PI / 3 * 1 * 2 ^ 3) * 2] <> 0).
  { unfold np_sum. simpl. lra. }
  unfold get_size_averaged_opacity, get_kappa_from_q, grain_mass.
  cbn [py_assert is_none negb orb andb fmap list_fmap].
  rewrite !Ok_bind.
  repeat (rewrite broadcast_same_length by done;
          cbn [zip_with]; rewrite Ok_bind).
  cbn [traverse]. unfold fdiv.
  rewrite (decide_False (P := np_sum _ = 0)) by exact Hs.
  rewrite (decide_False (P := 4 * PI / 3 * 1 * 2 ^ 3 = 0)) by exact Hm.
  cbn. eauto.
Qed.

Lemma sample_kappa_from_q :
  get_kappa_from_q [2] (grain_mass 1 [2]) [[3]] [[5]]
  = Ok ([[3 * (PI * 2 ^ 2 / (4 * PI / 3 * 1 * 2 ^ 3))]],
        [[5 * (PI * 2 ^ 2 / (4 * PI / 3 * 1 * 2 ^ 3))]]).
Proof.
  pose proof PI_RGT_0 as Hpi.
  unfold get_kappa_from_q, grain_mass, broadcast, fdiv. simpl.
  rewrite decide_False by lra. reflexivity.
Qed.

Lemma get_size_averaged_opacity_returns_only_from_q_witness :
  exists res,
    get_size_averaged_opacity sample_bhmie sample_fsolve [2] [1] [1] 1
      (Some Vacuum) (Some [[3]]) (Some [[5]]) None None = Ok res
    /\ (exists d, Some Vacuum = Some d)
    /\ (exists qa qs : matrix, Some [[3]] = Some qa /\ Some [[5]] = Some qs)
    /\ ((None : option matrix) = None \/ (None : option matrix) = None).
Proof.
  destruct sample_average_runs as [res Hres].
  exists res. split; [exact Hres|].
  by apply (get_size_averaged_opacity_returns_only_from_q sample_bhmie
              sample_fsolve [2] [1] [1] 1 (Some Vacuum) (Some [[3]])
              (Some [[5]]) None None res Hres).
Defined.

Lemma get_size_averaged_opacity_is_weighted_mean_witness :
  exists kappa_abs_m kappa_sca_m v_abs v_sca,
    get_size_averaged_opacity sample_bhmie sample_fsolve [2] [1] [1] 1
      (Some Vacuum) (Some [[3]]) (Some [[5]]) None None
    = Ok (kappa_abs_m, kappa_sca_m)
    /\ kappa_abs_m !! 0%nat = Some v_abs
    /\ v_abs = 3 * (PI * 2 ^ 2 / (4 * PI / 3 * 1 * 2 ^ 3))
    /\ kappa_sca_m !! 0%nat = Some v_sca
    /\ v_sca = 5 * (PI * 2 ^ 2 / (4 * PI / 3 * 1 * 2 ^ 3)).
Proof.
  destruct sample_average_runs as [[kappa_abs_m kappa_sca_m] Hres].
  set (f := PI * 2 ^ 2 / (4 * PI / 3 * 1 * 2 ^ 3)).
  assert (Hcell : forall (c : R) j v,
            at2 [[c * f]] j 0 = Some v -> c * f <= v <= c * f).
  { intros c [|j] v Hv; [|done]. inversion Hv; subst v. lra. }
  destruct (get_size_averaged_opacity_is_weighted_mean sample_bhmie
              sample_fsolve [2] [1] [1] 1 Vacuum [[3]] [[5]] None None
              kappa_abs_m kappa_sca_m [[3 * f]] [[5 * f]] 0
              (3 * f) (3 * f) (5 * f) (5 * f) Hres sample_kappa_from_q)
    as (v_abs & v_sca & Ha & Hva & Hs & Hvs); try done.
  - lra.
  - repeat constructor; lra.
  - repeat constructor; lra.
  - simpl. lia.
  - apply Hcell.
  - apply Hcell.
  - exists kappa_abs_m, kappa_sca_m, v_abs, v_sca.
    split; [exact Hres|]. split; [exact Ha|]. split; [fold f; lra|].
    split; [exact Hs|]. fold f. lra.
Defined.

(** ** [get_opacities] *)

Lemma shape1_has_shape2 {A : Type} (r c : nat) (M : list (list A)) :
  has_shape2 r c M = true -> (0 < r)%nat -> shape1 M = c.
Proof.
  intros [Hr Hrows]%has_shape2_spec Hpos.
  destruct M as [|row M]; simpl in *; [lia|]. by apply (Hrows 0%nat).
Qed.

(** On masses that are not zero and efficiencies of the right shape the
    conversion to opacities returns. *)
Lemma get_kappa_from_q_Ok (a : list R) (rho_s : R) (c : nat)
    (q_abs q_sca : matrix) :
  a <> [] -> rho_s <> 0 -> Forall (fun ai => ai <> 0) a ->
  has_shape2 (length a) c q_abs = true ->
  has_shape2 (length a) c q_sca = true ->
  exists kappa_abs kappa_sca,
    get_kappa_from_q a (grain_mass rho_s a) q_abs q_sca
    = Ok (kappa_abs, kappa_sca).
Proof.
  intros Hne Hrho Ha Hqa Hqs. unfold get_kappa_from_q.
  rewrite broadcast_same_length
    by (unfold grain_mass; by rewrite length_fmap).
  rewrite Ok_bind.
  set (fac := zip_with (fun ai mi => PI * ai ^ 2 / mi) a (grain_mass rho_s a)).
  assert (Hfac : traverse (fun r : result R => r)
                   (zip_with (fun ai mi => fdiv (PI * ai ^ 2) mi) a
                      (grain_mass rho_s a)) = Ok fac).
  { unfold fac, grain_mass. clear Hne Hqa Hqs.
    induction a as [|ai a IH]; [done|].
    inversion Ha as [|? ? Hai Ha']; subst.
    rewrite fmap_cons. cbn [zip_with traverse].
    assert (Hd : fdiv (PI * ai ^ 2) (4 * PI / 3 * rho_s * ai ^ 3)
                 = Ok (PI * ai ^ 2 / (4 * PI / 3 * rho_s * ai ^ 3))).
    { unfold fdiv. rewrite decide_False; [done|].
      pose proof PI_RGT_0 as Hpi. intros Hz.
      apply Rmult_integral in Hz as [Hz|Hz];
        [|by apply (pow_nonzero ai 3) in Hai].
      apply Rmult_integral in Hz as [Hz|Hz]; [lra|done]. }
    rewrite Hd, Ok_bind, (IH Ha'). done. }
  rewrite Hfac, Ok_bind.
  assert (Hlen : length fac = length a).
  { unfold fac, grain_mass. rewrite length_zip_with, length_fmap. lia. }
  assert (Hrows : (0 < length a)%nat) by (destruct a; [done|simpl; lia]).
  unfold scale_rows.
  rewrite Hlen, (shape1_has_shape2 _ _ _ Hqa Hrows), Hqa, Ok_bind, Hqs.
  rewrite Ok_bind. eauto.
Qed.

Section OpacitiesFacts.

Context {T : Type} `{Dielectric T}.
Variable bhmie_function : bhmie_t.
Variable fsolve : (R -> R) -> R -> R.
Variable get_ricci_mix : bool -> R -> result (T * R).

(** With only one of [diel_const] and [rho_s] supplied the call ends in
    [AssertionError]; with neither and an empty wavelength grid it ends in
    [IndexError], at [lam[-1]], before the default mixture is built. *)
Theorem get_opacities_rejects (a lam : list R) (rho_s : option R)
    (diel_const : option T) (return_all extrapol : bool) (n_angle : Z)
    (ext : bool) :
  (is_none diel_const <> is_none rho_s ->
   get_opacities bhmie_function fsolve get_ricci_mix a lam rho_s diel_const
     return_all extrapol n_angle ext = Raise AssertionError)
  /\ (diel_const = None -> rho_s = None -> lam = [] ->
      get_opacities bhmie_function fsolve get_ricci_mix a lam rho_s
        diel_const return_all extrapol n_angle ext = Raise IndexError).
Proof.
  split.
  - by destruct diel_const, rho_s.
  - by intros -> -> ->.
Qed.

(** With both [diel_const] and [rho_s] supplied, sizes that are not zero
    and a density that is not zero, the call succeeds exactly when the
    sweep it runs succeeds, and fails with the sweep's exception
    otherwise.  It hands the sweep's package on unchanged and adds the
    opacities [3 Q / (4 rho_s a)]. *)
Theorem get_opacities_adds_opacities (a lam : list R) (rho_s : R) (d : T)
    (return_all extrapol : bool) (n_angle : Z) (ext : bool) :
  rho_s <> 0 -> Forall (fun ai => ai <> 0) a ->
  match get_mie_coefficients bhmie_function fsolve a lam d n_angle true ext
  with
  | Raise e =>
      get_opacities bhmie_function fsolve get_ricci_mix a lam (Some rho_s)
        (Some d) return_all extrapol n_angle ext = Raise e
  | Ok (pkg, ws) =>
      exists op,
        get_opacities bhmie_function fsolve get_ricci_mix a lam
          (Some rho_s) (Some d) return_all extrapol n_angle ext
        = Ok (op, ws)
        /\ op_package op = pkg /\ op_rho_s op = rho_s
        /\ op_a op = a /\ op_lam op = lam
        /\ forall i j ai qa qs,
             a !! i = Some ai ->
             at2 (pkg_q_abs pkg) i j = Some qa ->
             at2 (pkg_q_sca pkg) i j = Some qs ->
             at2 (op_k_abs op) i j = Some (3 * qa / (4 * rho_s * ai))
             /\ at2 (op_k_sca op) i j = Some (3 * qs / (4 * rho_s * ai))
  end.
Proof.
  intros Hrho Ha. unfold get_opacities.
  cbn [is_none negb andb orb]. rewrite Ok_bind.
  destruct (get_mie_coefficients _ _ a lam d n_angle true ext)
    as [[pkg ws]|e] eqn:Hget; [|done].
  rewrite Ok_bind.
  destruct (get_mie_coefficients_package_shape _ _ _ _ _ _ _ _ _ _ Hget)
    as (Hne & _ & _ & Hqa & Hqs & _).
  destruct (get_kappa_from_q_Ok a rho_s (length lam) _ _ Hne Hrho Ha Hqa Hqs)
    as (kappa_abs & kappa_sca & Hkappa).
  rewrite Hkappa, Ok_bind. eexists. split; [reflexivity|].
  cbn [op_package op_rho_s op_a op_lam op_k_abs op_k_sca].
  repeat (split; [done|]).
  intros i j ai qa qs Hai Hqa' Hqs'.
  by apply (kappa_of_spheres a rho_s (pkg_q_abs pkg) (pkg_q_sca pkg)).
Qed.

End OpacitiesFacts.

Lemma get_opacities_rejects_witness :
  get_opacities sample_bhmie sample_fsolve (fun _ _ => Ok (Vacuum, 1))
    [1] [1] None (Some Vacuum) false false 3 false = Raise AssertionError.
Proof.
  by apply (get_opacities_rejects sample_bhmie sample_fsolve
              (fun _ _ => Ok (Vacuum, 1)) [1] [1] None (Some Vacuum)
              false false 3 false).
Defined.

Lemma get_opacities_adds_opacities_witness :
  exists op ws,
    get_opacities sample_bhmie sample_fsolve (fun _ _ => Ok (Vacuum, 1))
      [2] [2 * PI] (Some 1) (Some Vacuum) false false 3 false = Ok (op, ws)
    /\ at2 (op_k_abs op) 0 0 = Some (3 * 1 / (4 * 1 * 2))
    /\ at2 (op_k_sca op) 0 0 = Some (3 * 2 / (4 * 1 * 2)).
Proof.
  pose proof (get_opacities_adds_opacities sample_bhmie sample_fsolve
                (fun _ _ => Ok (Vacuum, 1)) [2] [2 * PI] 1 Vacuum
                false false 3 false) as Hadd.
  destruct (get_mie_coefficients_total sample_bhmie sample_fsolve 3
              (sample_bhmie_total 3) [2] [2 * PI] Vacuum true false)
    as (pkg & ws & Hget); try done.
  { repeat constructor; [|by exists 1, 0].
    apply Rmult_integral_contrapositive_currified; [lra|apply PI_neq0]. }
  rewrite Hget in Hadd.
  destruct Hadd as (op & Hop & _ & _ & _ & _ & Hcells).
  { lra. }
  { repeat constructor; lra. }
  exists op, ws. split; [exact Hop|].
  destruct (get_mie_coefficients_columns sample_bhmie sample_fsolve _ _ _ _
              _ _ _ _ Hget) as (_ & _ & Hcols).
  destruct (Hcols 0%nat (2 * PI) eq_refl) as (st0 & st1 & Hok0 & Hbody & Hc).
  destruct (wavelength_body_spec sample_bhmie sample_fsolve _ _ _ _ _ _ _ _
              _ _ Hbody Hok0 eq_refl)
    as (_ & _ & n & k & _ & _ & Hrows & _).
  rewrite converging_disabled in Hrows by done.
  destruct (Hrows 0%nat _ eq_refl) as (res & Hres & Hcell).
  inversion Hres; subst res; clear Hres.
  pose proof (Hc 0%nat) as Hc0. rewrite Hcell in Hc0.
  injection Hc0 as Hqa Hqs _.
  by apply (Hcells 0%nat 0%nat 2 1 2).
Defined.

(** ** The size distributions: their shape *)

Lemma normalize_mass_inv (rho_s : R) (a dist0 dist : list R) :
  increasing a -> Forall (fun ai => 0 < ai) a -> 0 < rho_s ->
  length dist0 = length a -> Forall (fun d => 0 <= d) dist0 ->
  normalize_mass dist0 (grain_mass rho_s a) a = Ok dist ->
  exists c, 0 < c /\ dist = (fun d => c * d) <$> dist0.
Proof.
  intros Hinc Hpos Hrho Hlen Hd0 Hnorm. unfold normalize_mass in Hnorm.
  set (I := np_trapz (zip_with Rmult dist0 (grain_mass rho_s a)) a) in *.
  apply traverse_fdiv in Hnorm as [-> Hnz].
  destruct dist0 as [|d0 dist0]; [by exists 1; split; [lra|]|].
  specialize (Hnz ltac:(done)).
  assert (HI : 0 <= I).
  { apply np_trapz_nonneg; [done|]. apply Forall_lookup.
    intros j v Hv. unfold grain_mass in Hv.
    apply lookup_zip_with_Some in Hv as (d & m & -> & Hd & Hm).
    rewrite list_lookup_fmap in Hm.
    destruct (a !! j) as [aj|] eqn:Haj; [|done]. inversion Hm; subst m.
    rewrite Forall_lookup in Hd0, Hpos.
    pose proof (Hd0 _ _ Hd). pose proof (Hpos _ _ Haj) as Haj0.
    pose proof (grain_mass_pos rho_s aj Hrho Haj0).
    apply Rmult_le_pos; lra. }
  exists (/ I). split; [apply Rinv_0_lt_compat; lra|].
  apply list_fmap_ext. intros _ d _. unfold Rdiv. ring.
Qed.

(** What [powerlaw_N_of_a] returns on an increasing grid of positive sizes
    has the advertised shape: one positive constant times [a**-q] up to
    the cut-off, zero beyond it. *)
Theorem powerlaw_N_of_a_shape (a : list R) (a_max q rho_s : R)
    (dist : list R) :
  increasing a -> Forall (fun ai => 0 < ai) a -> 0 < rho_s ->
  powerlaw_N_of_a a a_max q rho_s = Ok dist ->
  exists c,
    0 < c
    /\ forall i ai, a !! i = Some ai ->
         dist !! i
         = Some (if decide (ai <= a_max) then c * fpow ai (- q) else 0).
Proof.
  intros Hinc Hpos Hrho Hpow. unfold powerlaw_N_of_a in Hpow.
  apply normalize_mass_inv in Hpow as (c & Hc & ->); try done.
  - exists c. split; [done|]. intros i ai Hai.
    rewrite !list_lookup_fmap, Hai. simpl. f_equal.
    case_decide; ring.
  - by rewrite length_fmap.
  - apply Forall_fmap, Forall_forall. intros ai _. simpl.
    unfold fpow, Rpower. pose proof (exp_pos (- q * ln ai)).
    case_decide; nra.
Qed.

(** What [gaussian_N_of_a] returns on an increasing grid of positive sizes
    is one positive constant times the Gaussian of the size. *)
Theorem gaussian_N_of_a_shape (a : list R) (a_mean sigma_a rho_s : R)
    (dist : list R) :
  increasing a -> Forall (fun ai => 0 < ai) a -> 0 < rho_s ->
  gaussian_N_of_a a a_mean sigma_a rho_s = Ok dist ->
  exists c,
    0 < c
    /\ forall i ai, a !! i = Some ai ->
         dist !! i
         = Some (c * exp (- (ai - a_mean) ^ 2 / (2 * sigma_a ^ 2))).
Proof.
  intros Hinc Hpos Hrho Hgauss. unfold gaussian_N_of_a in Hgauss.
  bind_inv Hgauss. rename v into dist0.
  assert (Hcells : forall i ai, a !! i = Some ai ->
            dist0 !! i
            = Some (exp (- (ai - a_mean) ^ 2 / (2 * sigma_a ^ 2)))).
  { intros i ai Hai.
    destruct (traverse_lookup _ _ _ i ai Hv Hai) as (y & Hy & Hf).
    bind_inv Hf. unfold fdiv in Hv0. case_decide; [done|].
    inversion Hv0; subst. by inversion Hf; subst. }
  apply normalize_mass_inv in Hgauss as (c & Hc & ->); try done.
  - exists c. split; [done|]. intros i ai Hai.
    by rewrite list_lookup_fmap, (Hcells i ai Hai).
  - by apply traverse_length in Hv.
  - apply Forall_lookup. intros i d Hd.
    destruct (lookup_lt_is_Some_2 a i) as [ai Hai].
    { apply traverse_length in Hv. apply lookup_lt_Some in Hd. lia. }
    rewrite (Hcells i ai Hai) in Hd. inversion Hd; subst d.
    left. apply exp_pos.
Qed.

Lemma sample_powerlaw_returns :
  exists dist, powerlaw_N_of_a [1; 2] 1 3.5 1 = Ok dist.
Proof.
  unfold powerlaw_N_of_a.
  set (f := fun ai => fpow ai (Ropp 3.5) * (if decide (ai <= 1) then 1 else 0)).
  destruct (normalize_mass_Ok 1 [1; 2] (f <$> [1; 2])) as (dist & Hd & _).
  - apply Rgt_not_eq. apply mass_integral_pos.
    + simpl. lra.
    + repeat constructor; lra.
    + simpl. lia.
    + lra.
    + intros ai _. unfold f, fpow, Rpower.
      pose proof (exp_pos (Ropp 3.5 * ln ai)). case_decide; nra.
    + intros a0 [= <-]. unfold f, fpow, Rpower.
      pose proof (exp_pos (Ropp 3.5 * ln 1)). rewrite decide_True by lra. nra.
  - exists dist. exact Hd.
Qed.

Lemma sample_gaussian_returns :
  exists dist, gaussian_N_of_a [1; 2] 1 1 1 = Ok dist.
Proof.
  unfold gaussian_N_of_a.
  set (f := fun ai => exp (- (ai - 1) ^ 2 / (2 * 1 ^ 2))).
  assert (Hdist : traverse
                    (fun ai => e ← fdiv (- (ai - 1) ^ 2) (2 * 1 ^ 2);
                               Ok (exp e)) [1; 2]
                  = Ok (f <$> [1; 2])).
  { apply traverse_Ok. intros ai _. unfold fdiv.
    rewrite decide_False; [done|]. lra. }
  rewrite Hdist, Ok_bind.
  destruct (normalize_mass_Ok 1 [1; 2] (f <$> [1; 2])) as (dist & Hd & _).
  - apply Rgt_not_eq. apply mass_integral_pos.
    + simpl. lra.
    + repeat constructor; lra.
    + simpl. lia.
    + lra.
    + intros ai _. left. apply exp_pos.
    + intros a0 _. apply exp_pos.
  - exists dist. exact Hd.
Qed.

Lemma powerlaw_N_of_a_shape_witness :
  exists dist c,
    powerlaw_N_of_a [1; 2] 1 3.5 1 = Ok dist
    /\ 0 < c
    /\ dist !! 0%nat = Some (c * fpow 1 (Ropp 3.5))
    /\ dist !! 1%nat = Some 0.
Proof.
  destruct sample_powerlaw_returns as [dist Hdist].
  destruct (powerlaw_N_of_a_shape [1; 2] 1 3.5 1 dist) as (c & Hc & Hcells);
    try done.
  - simpl. lra.
  - repeat constructor; lra.
  - lra.
  - exists dist, c. split; [exact Hdist|]. split; [exact Hc|]. split.
    + rewrite (Hcells 0%nat 1 eq_refl). by rewrite decide_True by lra.
    + rewrite (Hcells 1%nat 2 eq_refl). by rewrite decide_False by lra.
Defined.

Lemma gaussian_N_of_a_shape_witness :
  exists dist c,
    gaussian_N_of_a [1; 2] 1 1 1 = Ok dist
    /\ 0 < c
    /\ dist !! 1%nat = Some (c * exp (- (2 - 1) ^ 2 / (2 * 1 ^ 2))).
Proof.
  destruct sample_gaussian_returns as [dist Hdist].
  destruct (gaussian_N_of_a_shape [1; 2] 1 1 1 dist) as (c & Hc & Hcells);
    try done.
  - simpl. lra.
  - repeat constructor; lra.
  - lra.
  - exists dist, c. split; [exact Hdist|]. split; [exact Hc|].
    apply (Hcells 1%nat 2 eq_refl).
Defined.

(** ** [calculate_mueller_matrix]: the entries of one particle *)

Lemma Cabs_sqr (z : C) : Cabs z ^ 2 = Re z * Re z + Im z * Im z.
Proof.
  unfold Cabs. rewrite <- Rsqr_pow2, Rsqr_sqrt; [done|]. nra.
Qed.

(** An entry of a matrix that came back, read off the amplitudes. *)
Lemma mueller_cell (lam m : list R) (S1 S2 : cube C) (zscat : cube (list R))
    (i j a : nat) (mi lj : R) (s1 s2 : C) :
  calculate_mueller_matrix lam m S1 S2 = Ok zscat ->
  m !! i = Some mi -> lam !! j = Some lj ->
  at3 S1 i j a = Some s1 -> at3 S2 i j a = Some s2 ->
  mi <> 0 /\ at3 zscat i j a = Some (mueller_entry lj mi s1 s2).
Proof.
  intros Hcalc Hi Hj Hs1 Hs2. unfold calculate_mueller_matrix in Hcalc.
  bind_inv Hcalc. rename v into factor.
  destruct (traverse_lookup _ _ _ i mi Hv Hi) as (frow & Hfrow & Hrow).
  destruct (traverse_lookup _ _ _ j lj Hrow Hj) as (f & Hf & Hdiv).
  unfold fdiv in Hdiv. case_decide as Hmi; [done|].
  inversion Hdiv; subst f; clear Hdiv. split; [done|].
  set (d := shape_last S1) in *.
  destruct (has_shape3 _ _ d S1) eqn:HS1; [|done].
  destruct (has_shape3 _ _ d S2) eqn:HS2; [|done].
  simpl in Hcalc. inversion Hcalc; subst zscat; clear Hcalc.
  assert (Ha : (a < d)%nat).
  { apply has_shape3_spec in HS1 as [_ Hplanes].
    unfold at3, at2 in Hs1.
    destruct (S1 !! i) as [plane|] eqn:Hplane; [|done].
    apply Hplanes in Hplane as [_ Hcells]%has_shape2_spec.
    destruct (plane !! j) as [cell|] eqn:Hcell; [|done].
    apply Hcells in Hcell as <-. by eapply lookup_lt_Some. }
  apply lookup_lt_Some in Hi as Hilt. apply lookup_lt_Some in Hj as Hjlt.
  assert (Hfat : at2 factor i j = Some ((lj / (2 * PI)) ^ 2 / mi)).
  { unfold at2. by rewrite Hfrow. }
  rewrite !assign_component_at3, !zip3_at3, Hs1, Hs2, Hfat.
  rewrite replicate3_at3 by done.
  reflexivity.
Qed.

(** The Mueller entries that the code returns for one particle, one
    wavelength and one angle describe fully polarized scattering:
    [Z11^2 = Z12^2 + Z33^2 + Z34^2], with [Z22 = Z11] and [Z44 = Z33]; for
    a positive grain mass [Z11] is not negative and bounds [Z12]. *)
Theorem mueller_entries_fully_polarized (lam m : list R) (S1 S2 : cube C)
    (zscat : cube (list R)) (i j a : nat) (mi lj : R) (s1 s2 : C) :
  calculate_mueller_matrix lam m S1 S2 = Ok zscat ->
  m !! i = Some mi -> lam !! j = Some lj ->
  at3 S1 i j a = Some s1 -> at3 S2 i j a = Some s2 ->
  exists z11 z12 z33 z34,
    at3 zscat i j a = Some [z11; z12; z11; z33; z34; z33]
    /\ z11 ^ 2 = z12 ^ 2 + z33 ^ 2 + z34 ^ 2
    /\ (0 < mi -> 0 <= z11 /\ - z11 <= z12 <= z11).
Proof.
  intros Hcalc Hi Hj Hs1 Hs2.
  destruct (mueller_cell _ _ _ _ _ _ _ _ _ _ _ _ Hcalc Hi Hj Hs1 Hs2)
    as [Hmi Hcell].
  unfold mueller_entry in Hcell. cbv zeta in Hcell.
  set (f := (lj / (2 * PI)) ^ 2 / mi) in *.
  rewrite !Cabs_sqr in Hcell.
  destruct s1 as [x1 y1], s2 as [x2 y2].
  unfold Cmult, Cconj, Re, Im in Hcell. cbn [fst snd] in Hcell.
  assert (Hf : 0 < mi -> 0 <= f).
  { intros Hpos. unfold f. apply Rmult_le_pos; [apply pow2_ge_0|].
    left. by apply Rinv_0_lt_compat. }
  clearbody f.
  do 4 eexists. split; [exact Hcell|].
  split; [replace 0.5 with (/ 2) by lra; field|].
  intros Hpos. specialize (Hf Hpos).
  assert (H1 : 0 <= x1 * x1 + y1 * y1) by nra.
  assert (H2 : 0 <= x2 * x2 + y2 * y2) by nra.
  repeat split; nra.
Qed.

Lemma mueller_entries_fully_polarized_witness :
  exists zscat z11 z12 z33 z34,
    calculate_mueller_matrix [1] [1] [[[(1, 0)]]] [[[(0, 1)]]] = Ok zscat
    /\ at3 zscat 0 0 0 = Some [z11; z12; z11; z33; z34; z33]
    /\ z11 ^ 2 = z12 ^ 2 + z33 ^ 2 + z34 ^ 2.
Proof.
  assert (Hcalc : exists zscat,
            calculate_mueller_matrix [1] [1] [[[(1, 0)]]] [[[(0, 1)]]]
            = Ok zscat).
  { unfold calculate_mueller_matrix, fdiv. simpl.
    rewrite decide_False by lra. simpl. eauto. }
  destruct Hcalc as [zscat Hcalc].
  destruct (mueller_entries_fully_polarized [1] [1] [[[(1, 0)]]]
              [[[(0, 1)]]] zscat 0 0 0 1 1 (1, 0) (0, 1) Hcalc
              eq_refl eq_refl eq_refl eq_refl)
    as (z11 & z12 & z33 & z34 & Hcell & Hid & _).
  exists zscat, z11, z12, z33, z34. done.
Defined.

(** ** [diel_mixed]: mixtures of one material *)

Lemma Csum_cons (z : C) (zs : list C) : Csum (z :: zs) = Cplus z (Csum zs).
Proof.
  unfold Csum. simpl.
  assert (Hshift : forall ys acc,
            foldl Cplus acc ys = Cplus acc (foldl Cplus (0, 0) ys)).
  { induction ys as [|y ys IH]; intros acc; simpl.
    - destruct acc as [a b]. unfold Cplus; simpl. f_equal; ring.
    - rewrite (IH (Cplus acc y)), (IH (Cplus (0, 0) y)).
      destruct acc as [a b], y as [c d].
      destruct (foldl Cplus (0, 0) ys) as [s t].
      unfold Cplus; simpl. f_equal; ring. }
  rewrite (Hshift zs (Cplus (0, 0) z)).
  destruct z as [a b]. destruct (foldl Cplus (0, 0) zs) as [s t].
  unfold Cplus; simpl. f_equal; ring.
Qed.

Lemma Csum_scaled (t : C) (ab : list R) :
  Csum (zip_with Cscale ab (replicate (length ab) t)) = Cscale (np_sum ab) t.
Proof.
  induction ab as [|a ab IH].
  - unfold Csum, np_sum, Cscale; simpl. f_equal; ring.
  - cbn [length replicate zip_with]. rewrite Csum_cons, IH, np_sum_cons.
    destruct t as [x y]. unfold Cplus, Cscale; simpl. f_equal; ring.
Qed.

Lemma Csum_scaled_mult (e : C) (ab : list R) :
  Csum (zip_with Cmult (zip_with Cscale ab (replicate (length ab) (1, 0)))
          (replicate (length ab) e))
  = Cscale (np_sum ab) e.
Proof.
  induction ab as [|a ab IH].
  - unfold Csum, np_sum, Cscale; simpl. f_equal; ring.
  - cbn [length replicate zip_with]. rewrite Csum_cons, IH, np_sum_cons.
    destruct e as [x y]. unfold Cplus, Cscale, Cmult; simpl. f_equal; ring.
Qed.

Lemma fmap_const_replicate {A B : Type} (y : B) (xs : list A) :
  (fun _ => y) <$> xs = replicate (length xs) y.
Proof. induction xs as [|x xs IH]; [done|]. simpl. by rewrite <- IH. Qed.

(** Inclusions of the matrix material leave the matrix as it is, whatever
    the volume fractions. *)
Lemma maxwell_garnett_uniform (a0 : R) (f_i : list R) (e : C) :
  e <> (0, 0) ->
  maxwell_garnett (a0 :: f_i) (e :: replicate (length f_i) e) = Ok e.
Proof.
  intros He. unfold maxwell_garnett. cbv zeta.
  change (drop 1 (a0 :: f_i)) with f_i.
  assert (H3 : Cplus e (Cscale 2 e) = Cscale 3 e).
  { destruct e as [a b]. unfold Cplus, Cscale; simpl. f_equal; ring. }
  assert (H3nz : Cscale 3 e <> (0, 0)).
  { destruct e as [a b]. unfold Cscale; simpl. intros [= Ha Hb].
    apply He. f_equal; lra. }
  rewrite (traverse_Ok _ (fun _ => (1, 0))).
  2:{ intros x Hx. apply elem_of_replicate in Hx as [-> _].
      by rewrite H3, Cdiv_self. }
  rewrite Ok_bind, fmap_const_replicate, length_replicate.
  rewrite broadcast_same_length by (by rewrite length_replicate).
  rewrite Ok_bind.
  rewrite broadcast_same_length
    by (rewrite length_zip_with, !length_replicate; lia).
  rewrite Ok_bind, Csum_scaled, Csum_scaled_mult.
  set (f := np_sum f_i).
  replace (Cplus (Cscale (1 - f) e) (Cscale f e)) with e.
  2:{ destruct e as [a b]. unfold Cplus, Cscale; simpl. f_equal; ring. }
  replace (Cplus (RtoC (1 - f)) (Cscale f (1, 0))) with ((1, 0) : C).
  2:{ unfold Cplus, Cscale, RtoC; simpl. f_equal; ring. }
  apply Cdiv_one.
Qed.

(** The Bruggeman residual of a mixture of one material is the total
    abundance times the residual of that material. *)
Lemma fct_uniform (ab : list R) (e x : C) :
  ab <> [] ->
  fct ab (replicate (length ab) e) x
  = t ← Cdiv (Cminus e x) (Cplus e (Cscale 2 x));
    Ok (Cscale (np_sum ab) t).
Proof.
  intros Hab. unfold fct.
  destruct (Cdiv (Cminus e x) (Cplus e (Cscale 2 x))) as [t|err] eqn:Hdiv.
  - rewrite (traverse_Ok _ (fun _ => t)).
    2:{ intros y Hy. by apply elem_of_replicate in Hy as [-> _]. }
    rewrite !Ok_bind, fmap_const_replicate, length_replicate.
    rewrite broadcast_same_length by (by rewrite length_replicate).
    by rewrite Ok_bind, Csum_scaled.
  - destruct ab as [|a ab]; [done|].
    cbn [length replicate traverse]. by rewrite Hdiv.
Qed.

Section UniformMixtures.

Context {T : Type} `{Dielectric T}.
Variable findroot : (C -> result C) -> C -> result C.
Variable uninit : nat -> R.

Lemma constituent_eps_uniform (self : diel_mixed T) (l n k : R) :
  Forall (fun c => nk_at c l = Ok (n, k)) (constants self) ->
  constituent_eps self l
  = Ok (replicate (length (constants self)) (Cmult (n, k) (n, k))).
Proof.
  intros Hall. unfold constituent_eps.
  rewrite (traverse_Ok _ (fun _ => Cmult (n, k) (n, k))).
  - by rewrite fmap_const_replicate.
  - intros c Hc. rewrite Forall_forall in Hall. by rewrite (Hall c Hc).
Qed.

(** A Maxwell-Garnett mixture whose constituents all answer the same
    index [(n, k)] at a wavelength has that index there, for any number of
    constituents and any volume fractions; the returned pair is [(n, k)]
    itself when it lies in the half-plane of the principal square root. *)
Theorem maxwell_garnett_uniform_mixture (self : diel_mixed T) (l n k : R) :
  lower (rule self) = "maxwell-garnett" ->
  constants self <> [] ->
  length (abundances self) = length (constants self) ->
  Forall (fun c => nk_at c l = Ok (n, k)) (constants self) ->
  (n, k) <> (0, 0) ->
  eps_mean_at findroot self l = Ok (Some (Cmult (n, k) (n, k)))
  /\ (0 < n \/ (n = 0 /\ 0 <= k) ->
      nk_mixed findroot uninit self [l] = Ok (Some ([n], [k]))).
Proof.
  intros Hrule Hne Hlen Hall Hnz.
  assert (Heps : eps_mean_at findroot self l
                 = Ok (Some (Cmult (n, k) (n, k)))).
  { unfold eps_mean_at.
    rewrite (constituent_eps_uniform self l n k Hall), Ok_bind, Hrule.
    rewrite decide_False by done. rewrite decide_True by done.
    destruct (constants self) as [|c cs]; [done|].
    destruct (abundances self) as [|a0 f_i]; [done|].
    simpl in Hlen. cbn [length replicate].
    replace (length cs) with (length f_i) by lia.
    rewrite maxwell_garnett_uniform; [done|].
    by apply Cmult_self_nonzero. }
  split; [exact Heps|]. intros Hhalf.
  rewrite (nk_mixed_one_wavelength findroot uninit self l _ Heps).
  by rewrite Csqrt_square_right.
Qed.

(** A Bruggeman mixture of one material: with a total abundance that is
    not zero, the equation that [findroot] is asked to solve vanishes at
    the permittivity of that material and nowhere else, so a root finder
    that returns a root makes the mixture answer the material's index. *)
Theorem bruggeman_uniform_mixture (self : diel_mixed T) (l n k : R) :
  lower (rule self) = "bruggeman" ->
  length (abundances self) = length (constants self) ->
  np_sum (abundances self) <> 0 ->
  Forall (fun c => nk_at c l = Ok (n, k)) (constants self) ->
  (n, k) <> (0, 0) ->
  let eps_1 := Cmult (n, k) (n, k) in
  let eps := replicate (length (constants self)) eps_1 in
  fct (abundances self) eps eps_1 = Ok (0, 0)
  /\ (forall x, fct (abundances self) eps x = Ok (0, 0) -> x = eps_1)
  /\ (forall x,
        findroot (fct (abundances self) eps) (0.5, 0.5) = Ok x ->
        fct (abundances self) eps x = Ok (0, 0) ->
        eps_mean_at findroot self l = Ok (Some eps_1)
        /\ (0 < n \/ (n = 0 /\ 0 <= k) ->
            nk_mixed findroot uninit self [l] = Ok (Some ([n], [k])))).
Proof.
  intros Hrule Hlen Hsum Hall Hnz eps_1 eps. subst eps. rewrite <- Hlen.
  assert (Hab : abundances self <> []).
  { intros Hnil. apply Hsum. by rewrite Hnil. }
  assert (He : eps_1 <> (0, 0)) by (by apply Cmult_self_nonzero).
  assert (Hunique : forall x,
            fct (abundances self)
              (replicate (length (abundances self)) eps_1) x = Ok (0, 0) ->
            x = eps_1).
  { intros x Hx. rewrite fct_uniform in Hx by done.
    bind_inv Hx. rename v into t.
    assert (Ht : t = (0, 0)).
    { destruct t as [a b]. unfold Cscale in Hx; simpl in Hx.
      injection Hx as Ha Hb.
      apply Rmult_integral in Ha as [Ha|Ha]; [done|].
      apply Rmult_integral in Hb as [Hb|Hb]; [done|].
      by subst. }
    subst t. apply Cdiv_zero_inv in Hv.
    destruct eps_1 as [a b], x as [c d]. unfold Cminus in Hv; simpl in Hv.
    injection Hv as Hv1 Hv2. f_equal; lra. }
  split; [|split; [exact Hunique|]].
  - rewrite fct_uniform by done.
    assert (Hw : Cplus eps_1 (Cscale 2 eps_1) <> (0, 0)).
    { destruct eps_1 as [a b]. unfold Cplus, Cscale; simpl.
      intros [= Ha Hb]. apply He. f_equal; lra. }
    rewrite Cdiv_Ok by done. rewrite Ok_bind.
    pose proof (C_nonzero_norm _ Hw) as Hd.
    destruct eps_1 as [a b].
    unfold Cplus, Cscale, Cminus in *; simpl in *.
    f_equal. f_equal; by field.
  - intros x Hroot Hzero.
    apply Hunique in Hzero as Hx. subst x.
    assert (Heps : eps_mean_at findroot self l = Ok (Some eps_1)).
    { unfold eps_mean_at.
      rewrite (constituent_eps_uniform self l n k Hall), Ok_bind, Hrule.
      rewrite decide_True by done. rewrite <- Hlen.
      fold eps_1. by rewrite Hroot. }
    split; [exact Heps|]. intros Hhalf.
    rewrite (nk_mixed_one_wavelength findroot uninit self l _ Heps).
    unfold eps_1. by rewrite Csqrt_square_right.
Qed.

(** A mixture that [__init__] accepts carries one of the two rules, so
    [nk] always computes the permittivity it takes the root of: the case
    in which neither branch assigns [eps_mean[i]] is out of reach.  Any
    other rule is rejected with [NameError], upper and lower case being
    read alike. *)
Theorem diel_mixed_init_fixes_rule (cs : list T) (ab : list R)
    (mixing_rule : string) (extrapol : bool) :
  (forall self,
     diel_mixed_init cs ab mixing_rule extrapol = Ok self ->
     constants self = cs /\ abundances self = ab
     /\ rule self = mixing_rule
     /\ forall l x, eps_mean_at findroot self l = Ok x -> x <> None)
  /\ (lower mixing_rule <> "bruggeman" ->
      lower mixing_rule <> "maxwell-garnett" ->
      diel_mixed_init cs ab mixing_rule extrapol = Raise NameError).
Proof.
  unfold diel_mixed_init. split.
  - intros self Hinit. case_decide as Hrule; [|done].
    apply bind_Ok in Hinit as (u & _ & Hinit).
    inversion Hinit; subst self; clear Hinit. simpl.
    repeat (split; [done|]).
    intros l x Heps. unfold eps_mean_at in Heps. simpl in Heps.
    bind_inv Heps. rename v into eps.
    destruct Hrule as [Hrule|Hrule]; rewrite Hrule in Heps.
    + rewrite decide_True in Heps by done.
      bind_inv Heps. by inversion Heps.
    + rewrite decide_False in Heps by done.
      rewrite decide_True in Heps by done.
      bind_inv Heps. by inversion Heps.
  - intros Hb Hm. rewrite decide_False; [done|]. by intros [?|?].
Qed.

End UniformMixtures.

Lemma maxwell_garnett_uniform_mixture_witness :
  nk_mixed sample_no_root sample_uninit
    {| constants := [sample_table 2 1; sample_table 2 1; sample_table 2 1];
       abundances := [0.2; 0.3; 0.5];
       rule := "Maxwell-Garnett"; mixed_extrapol := false |} [5]
  = Ok (Some ([2], [1])).
Proof.
  apply (maxwell_garnett_uniform_mixture sample_no_root sample_uninit
           {| constants := [sample_table 2 1; sample_table 2 1;
                            sample_table 2 1];
              abundances := [0.2; 0.3; 0.5];
              rule := "Maxwell-Garnett"; mixed_extrapol := false |}
           5 2 1).
  - reflexivity.
  - done.
  - reflexivity.
  - repeat constructor; apply nk_sample_table; lra.
  - intros [= ? ?]; lra.
  - left. lra.
Defined.

Lemma bruggeman_uniform_mixture_witness :
  nk_mixed sample_exact_root sample_uninit
    {| constants := [sample_table 2 1; sample_table 2 1];
       abundances := [0.3; 0.7];
       rule := "Bruggeman"; mixed_extrapol := false |} [5]
  = Ok (Some ([2], [1])).
Proof.
  destruct (bruggeman_uniform_mixture sample_exact_root sample_uninit
              {| constants := [sample_table 2 1; sample_table 2 1];
                 abundances := [0.3; 0.7];
                 rule := "Bruggeman"; mixed_extrapol := false |}
              5 2 1) as (Hroot & _ & Hmix).
  - reflexivity.
  - reflexivity.
  - unfold np_sum. simpl. lra.
  - repeat constructor; apply nk_sample_table; lra.
  - intros [= ? ?]; lra.
  - destruct (Hmix (Cmult (2, 1) (2, 1)) eq_refl Hroot) as [_ Hnk].
    apply Hnk. left. lra.
Defined.

Lemma diel_mixed_init_fixes_rule_witness :
  (exists self,
     diel_mixed_init [sample_table 2 1] [1] "BRUGGEMAN" false = Ok self
     /\ forall l x, eps_mean_at sample_exact_root self l = Ok x -> x <> None)
  /\ diel_mixed_init [sample_table 2 1] [1] "Looyenga" false
     = Raise NameError.
Proof.
  destruct (diel_mixed_init_fixes_rule sample_exact_root
              [sample_table 2 1] [1] "BRUGGEMAN" false) as [Hok _].
  destruct (diel_mixed_init_fixes_rule sample_exact_root
              [sample_table 2 1] [1] "Looyenga" false) as [_ Hbad].
  split.
  - eexists. split; [reflexivity|].
    by destruct (Hok _ eq_refl) as (_ & _ & _ & Hsome).
  - by apply Hbad.
Defined.

(** ** [size_average_opacity] *)

Lemma for_each_seq_invariant {S : Type} (P : nat -> S -> Prop)
    (body : nat -> S -> result S) (len : nat) :
  forall (o : nat) (s s' : S),
    (forall i t t', (o <= i < o + len)%nat ->
       body i t = Ok t' -> P i t -> P (Datatypes.S i) t') ->
    for_each body (seq o len) s = Ok s' ->
    P o s -> P (o + len)%nat s'.
Proof.
  induction len as [|len IH]; intros o s s' Hbody Hloop HP.
  - simpl in Hloop. inversion Hloop; subst. by rewrite Nat.add_0_r.
  - cbn [seq for_each] in Hloop. bind_inv Hloop. rename v into s1.
    replace (o + Datatypes.S len)%nat with (Datatypes.S o + len)%nat by lia.
    apply (IH (Datatypes.S o) s1 s'); [|done|].
    + intros i t t' Hi. apply Hbody. lia.
    + apply (Hbody o s s1); [lia|done|done].
Qed.

(** A mean with non-negative weights that are divided by their sum lies
    between the least and the greatest term. *)
Lemma weighted_mean_bounds (lo hi : R) (cs ws : list R) :
  length cs = length ws ->
  Forall (fun c => lo <= c <= hi) cs -> Forall (fun w => 0 <= w) ws ->
  np_sum ws <> 0 ->
  lo <= np_sum (zip_with Rmult cs ((fun w => w / np_sum ws) <$> ws)) <= hi.
Proof.
  intros Hlen Hcs Hws Hnz.
  rewrite zip_with_scale_r, np_sum_scale.
  assert (HS : 0 < np_sum ws).
  { pose proof (np_sum_nonneg ws Hws). lra. }
  destruct (np_sum_weighted lo hi cs ws Hlen Hcs Hws) as [Hlo Hhi].
  assert (Hinv : 0 < / np_sum ws) by (by apply Rinv_0_lt_compat).
  split.
  - apply Rmult_le_reg_r with (np_sum ws); [done|].
    rewrite Rmult_assoc, Rinv_l by done. lra.
  - apply Rmult_le_reg_r with (np_sum ws); [done|].
    rewrite Rmult_assoc, Rinv_l by done. lra.
Qed.

Lemma interpolate_sizes_spec (l : R) (lam : list R) (k : matrix) (n_a : nat)
    (r : list R) :
  interpolate_sizes l lam k n_a = Ok r ->
  length r = n_a
  /\ forall j v, r !! j = Some v ->
       exists row, k !! j = Some row /\ np_interp l lam row = Ok v.
Proof.
  intros Hr. unfold interpolate_sizes in Hr.
  pose proof (traverse_length _ _ _ Hr) as Hlen.
  rewrite length_seq in Hlen. split; [done|].
  intros j v Hv. apply lookup_lt_Some in Hv as Hj.
  destruct (traverse_lookup _ _ _ j j Hr) as (y & Hy & Hf).
  { apply lookup_seq. lia. }
  rewrite Hv in Hy. inversion Hy; subst y.
  destruct (k !! j) as [row|]; [eauto|done].
Qed.

(** The weights of one pass are positive numbers divided by their sum. *)
Lemma size_weights_spec (a : list R) (q : R) (ia : nat) (w : list R) :
  size_weights a q ia = Ok w -> a <> [] ->
  exists s,
    w = (fun si => si / np_sum s) <$> s
    /\ length s = length a
    /\ Forall (fun si => 0 <= si) s
    /\ np_sum s <> 0.
Proof.
  intros Hw Ha. unfold size_weights in Hw.
  bind_inv Hw. rename v into a0. bind_inv Hw. rename v into s0.
  pose proof (traverse_length _ _ _ Hv0) as Hlen0.
  assert (Hpos0 : Forall (fun si => 0 < si) s0).
  { apply Forall_lookup. intros i y Hy.
    destruct (lookup_lt_is_Some_2 a i) as [ai Hai].
    { apply lookup_lt_Some in Hy. lia. }
    destruct (traverse_lookup _ _ _ i ai Hv0 Hai) as (y' & Hy' & Hf).
    rewrite Hy in Hy'. inversion Hy'; subst y'.
    bind_inv Hf. inversion Hf; subst y. unfold fpow, Rpower. apply exp_pos. }
  match type of Hw with
  | traverse _ ?s1 = _ => set (s := s1) in *
  end.
  assert (Hlen : length s = length a).
  { unfold s. case_decide; rewrite ?length_imap; done. }
  assert (Hpos : Forall (fun si => 0 <= si) s).
  { unfold s. case_decide.
    - apply Forall_lookup. intros i y Hy.
      rewrite list_lookup_imap in Hy.
      destruct (s0 !! i) as [si|] eqn:Hsi; [|done]. simpl in Hy.
      inversion Hy; subst y. case_decide; [lra|].
      rewrite Forall_lookup in Hpos0. left. by apply (Hpos0 i).
    - eapply Forall_impl; [exact Hpos0|]. intros x Hx. simpl in Hx. lra. }
  apply traverse_fdiv in Hw as [-> Hnz].
  exists s. repeat (split; [done|]).
  apply Hnz. intros Hnil. rewrite Hnil in Hlen. by destruct a.
Qed.

(** The averaged opacity at one wavelength and one maximum size is a
    weighted mean over the sizes: on a grid of positive sizes it lies
    between the least and the greatest of the opacities interpolated at
    that wavelength, for absorption and for scattering.  The entry
    ['beta'] is there exactly when more than one wavelength was asked
    for. *)
Theorem size_average_opacity_is_weighted_mean (lam_avg a lam : list R)
    (k_abs k_sca : matrix) (q : R) (ret : size_average) (ilam ia : nat)
    (l lo_abs hi_abs lo_sca hi_sca : R) :
  size_average_opacity lam_avg a lam k_abs k_sca q = Ok ret ->
  Forall (fun ai => 0 < ai) a ->
  lam_avg !! ilam = Some l -> (ia < length a)%nat ->
  (forall j row v, k_abs !! j = Some row -> np_interp l lam row = Ok v ->
                   lo_abs <= v <= hi_abs) ->
  (forall j row v, k_sca !! j = Some row -> np_interp l lam row = Ok v ->
                   lo_sca <= v <= hi_sca) ->
  (exists v_abs v_sca,
     at2 (ret_ka ret) ilam ia = Some v_abs /\ lo_abs <= v_abs <= hi_abs
     /\ at2 (ret_ks ret) ilam ia = Some v_sca /\ lo_sca <= v_sca <= hi_sca)
  /\ (is_Some (ret_beta ret) <-> (1 < length lam_avg)%nat).
Proof.
  intros Hret Hpos Hl Hia Habs Hsca. unfold size_average_opacity in Hret.
  apply bind_Ok in Hret as (rows & Hrows & Hret).
  set (k_a := fst <$> rows) in *. set (k_s := snd <$> rows) in *.
  apply bind_Ok in Hret as ([ka ks] & Hloop & Hret).
  apply bind_Ok in Hret as (beta & Hbeta & Hret).
  inversion Hret; subst ret; clear Hret. cbn [ret_ka ret_ks ret_beta].
  assert (Hne : a <> []) by (intros ->; simpl in Hia; lia).
  apply lookup_lt_Some in Hl as Hilam. 
  (* the interpolated rows of wavelength [ilam] *)
  destruct (traverse_lookup _ _ _ ilam l Hrows Hl)
    as ([ra rs] & Hrow & Hint).
  apply bind_Ok in Hint as (ra' & Hra' & Hint).
  apply bind_Ok in Hint as (rs' & Hrs' & Hint).
  injection Hint as -> ->.
  apply interpolate_sizes_spec in Hra' as [Hra_len Hra].
  apply interpolate_sizes_spec in Hrs' as [Hrs_len Hrs].
  assert (Hka : k_a !! ilam = Some ra)
    by (unfold k_a; by rewrite list_lookup_fmap, Hrow).
  assert (Hks : k_s !! ilam = Some rs)
    by (unfold k_s; by rewrite list_lookup_fmap, Hrow).
  assert (Hra_b : Forall (fun c => lo_abs <= c <= hi_abs) ra).
  { apply Forall_lookup. intros j v Hj.
    destruct (Hra j v Hj) as (row & Hrowj & Hval). eauto. }
  assert (Hrs_b : Forall (fun c => lo_sca <= c <= hi_sca) rs).
  { apply Forall_lookup. intros j v Hj.
    destruct (Hrs j v Hj) as (row & Hrowj & Hval). eauto. }
  (* the invariant of the two loops *)
  set (good := fun (acc : matrix * matrix) (i : nat) =>
         exists v_abs v_sca,
           at2 acc.1 ilam i = Some v_abs /\ lo_abs <= v_abs <= hi_abs
           /\ at2 acc.2 ilam i = Some v_sca /\ lo_sca <= v_sca <= hi_sca).
  set (shaped := fun (acc : matrix * matrix) =>
         has_shape2 (length lam_avg) (length a) acc.1 = true
         /\ has_shape2 (length lam_avg) (length a) acc.2 = true).
  set (outer := fun (n : nat) (acc : matrix * matrix) =>
         shaped acc /\ forall i, (i < n)%nat -> good acc i).
  assert (Houter : outer (0 + length a)%nat (ka, ks)).
  { eapply (for_each_seq_invariant outer); [|exact Hloop|].
    - intros i acc acc' Hi Hpass [Hshape Hdone].
      apply bind_Ok in Hpass as (w & Hw & Hpass).
      apply size_weights_spec in Hw as (s & -> & Hs_len & Hs_pos & Hs_nz);
        [|done].
      set (inner := fun (m : nat) (t : matrix * matrix) =>
             shaped t /\ (forall i', (i' < i)%nat -> good t i')
             /\ ((ilam < m)%nat -> good t i)).
      assert (Hinner : inner (0 + length lam_avg)%nat acc').
      { eapply (for_each_seq_invariant inner); [|exact Hpass|].
        - intros m t t' Hm Hcell (Hsh & Hprev & Hcur).
          unfold average_cell in Hcell.
          apply bind_Ok in Hcell as (row_a & Hrow_a & Hcell).
          apply bind_Ok in Hcell as (p_a & Hp_a & Hcell).
          apply bind_Ok in Hcell as (row_s & Hrow_s & Hcell).
          apply bind_Ok in Hcell as (p_s & Hp_s & Hcell).
          inversion Hcell; subst t'; clear Hcell.
          destruct Hsh as [Hsh1 Hsh2].
          split; [split; simpl; by apply has_shape2_set2|]. split.
          + intros i' Hi'. destruct (Hprev i' Hi')
              as (va & vs & Ha1 & Ha2 & Hs1 & Hs2).
            exists va, vs. simpl.
            rewrite !at2_set2_ne by (right; lia). done.
          + intros Hlt. destruct (decide (m = ilam)) as [->|Hne_m].
            * rewrite Hka in Hrow_a. rewrite Hks in Hrow_s.
              inversion Hrow_a; inversion Hrow_s; subst row_a row_s.
              rewrite broadcast_same_length in Hp_a
                by (rewrite length_fmap; lia).
              rewrite broadcast_same_length in Hp_s
                by (rewrite length_fmap; lia).
              inversion Hp_a; inversion Hp_s; subst p_a p_s.
              exists (np_sum (zip_with Rmult ra
                               ((fun si => si / np_sum s) <$> s))),
                     (np_sum (zip_with Rmult rs
                               ((fun si => si / np_sum s) <$> s))).
              simpl. rewrite !(at2_set2_eq (length lam_avg) (length a)) by (done || lia).
              split; [done|]. split.
              { apply weighted_mean_bounds; try done. lia. }
              split; [done|].
              apply weighted_mean_bounds; try done. lia.
            * destruct Hcur as (va & vs & Ha1 & Ha2 & Hs1 & Hs2); [lia|].
              exists va, vs. simpl.
              rewrite !at2_set2_ne by (left; lia). done.
        - split; [done|]. split; [done|]. intros Hlt. lia. }
      destruct Hinner as (Hsh' & Hprev' & Hcur').
      split; [done|]. intros i' Hi'.
      destruct (decide (i' = i)) as [->|Hne_i].
      + apply Hcur'. lia.
      + apply Hprev'. lia.
    - split; [split; apply has_shape2_replicate|]. intros i Hi. lia. }
  destruct Houter as [_ Hgood]. split.
  - apply (Hgood ia). simpl. done.
  - case_bool_decide as Hmany.
    + do 9 (apply bind_Ok in Hbeta as (? & _ & Hbeta)).
      inversion Hbeta; subst beta. split; [done|eauto].
    + inversion Hbeta; subst beta. split; [by intros [? ?]|]. intros. lia.
Qed.

Lemma sample_size_average_runs :
  exists ret,
    size_average_opacity [1] [1] [1; 2] [[3; 3]] [[5; 5]] 3.5 = Ok ret.
Proof.
  unfold size_average_opacity, interpolate_sizes, size_weights, average_cell.
  simpl.
  assert (H1 : fdiv 1 1 = Ok (1 / 1))
    by (unfold fdiv; by rewrite decide_False by lra).
  rewrite H1. simpl.
  unfold fdiv. rewrite (decide_False (P := np_sum _ = 0)); [simpl; eauto|].
  unfold np_sum, fpow, Rpower. simpl.
  pose proof (exp_pos ((4 - 3.5) * ln (1 / 1))). lra.
Qed.

Lemma size_average_opacity_is_weighted_mean_witness :
  exists ret v_abs v_sca,
    size_average_opacity [1] [1] [1; 2] [[3; 3]] [[5; 5]] 3.5 = Ok ret
    /\ at2 (ret_ka ret) 0 0 = Some v_abs /\ 3 <= v_abs <= 3
    /\ at2 (ret_ks ret) 0 0 = Some v_sca /\ 5 <= v_sca <= 5
    /\ ret_beta ret = None.
Proof.
  destruct sample_size_average_runs as [ret Hret].
  assert (Hflat : forall (f : R) (j : nat) (row : list R) (v : R),
            [[f; f]] !! j = Some row ->
            np_interp 1 [1; 2] row = Ok v -> f <= v <= f).
  { intros f [|j] row v Hrow Hv; [|done].
    inversion Hrow; subst row.
    rewrite np_interp_Ok, piecewise_linear_flat in Hv by done.
    inversion Hv; subst v. lra. }
  destruct (size_average_opacity_is_weighted_mean [1] [1] [1; 2] [[3; 3]]
              [[5; 5]] 3.5 ret 0 0 1 3 3 5 5 Hret)
    as [(v_abs & v_sca & Ha & Hva & Hs & Hvs) Hbeta].
  - repeat constructor; lra.
  - reflexivity.
  - simpl. lia.
  - apply Hflat.
  - apply Hflat.
  - exists ret, v_abs, v_sca. repeat (split; [done|]).
    destruct (ret_beta ret) eqn:Hb; [|done].
    assert (Hsome : is_Some (Some l)) by eauto.
    apply Hbeta in Hsome. simpl in Hsome. lia.
Defined.
